(** * betacorn: the commit-reveal dice contract, embedded and verified

    A shallow embedding of [betacorn.hpp] / [betacorn.cpp].  Every action of
    the contract is a function from the contract's tables to either a new
    state or an abort carrying the message of the failed [check].  Inline
    actions queued by [pay] are kept in the state as a log. *)

From Stdlib Require Import ZArith List Bool String Ascii Lia DecimalString Permutation.
From Stdlib.Strings Require Import Byte.
Import ListNotations.
Local Open Scope string_scope.
Local Open Scope Z_scope.

Set Implicit Arguments.

(** ** Aborting computations

    [eosio::check(cond, msg)] ends the whole transaction when [cond] is
    false: nothing written so far survives. *)

Inductive result (A : Type) : Type :=
| Ok (a : A)
| Abort (msg : string).
Arguments Ok {A} a.
Arguments Abort {A} msg.

Definition bind {A B : Type} (m : result A) (k : A -> result B) : result B :=
  match m with
  | Ok a => k a
  | Abort msg => Abort msg
  end.

Notation "x <- m ;; k" := (bind m (fun x => k))
  (at level 61, m at next level, right associativity).
Notation "m ;;; k" := (bind m (fun _ => k))
  (at level 61, right associativity).

Definition check (cond : bool) (msg : string) : result unit :=
  if cond then Ok tt else Abort msg.

(** ** Names, symbols and assets *)

(** An [eosio::name] is its 64-bit value. *)
Definition name : Type := Z.

(** An [eosio::symbol] is its raw 64-bit value: the code in the upper 56
    bits, the precision in the low byte. *)
Definition symbol_t : Type := Z.

Definition symbol_code_raw (sym : symbol_t) : Z := Z.shiftr sym 8.

Definition char_code (c : ascii) : Z := Z.of_N (N_of_ascii c).

Fixpoint symbol_code_of_string (str : string) : Z :=
  match str with
  | EmptyString => 0
  | String c rest => Z.lor (char_code c) (Z.shiftl (symbol_code_of_string rest) 8)
  end.

Definition mk_symbol (code : string) (precision : Z) : symbol_t :=
  Z.lor (Z.shiftl (symbol_code_of_string code) 8) precision.

Record asset : Type := mk_asset { amount : Z; symbol : symbol_t }.

(** [asset::max_amount] *)
Definition max_amount : Z := 2 ^ 62 - 1.

Definition is_amount_within_range (a : asset) : bool :=
  (- max_amount <=? amount a) && (amount a <=? max_amount).

(** [asset::is_valid]; the symbol half of the test is settled by the
    comparison with [ACORN_SYMBOL] that precedes every use in the contract. *)
Definition is_valid (a : asset) : bool := is_amount_within_range a.

(** [operator+=] on assets *)
Definition asset_add (a b : asset) : result asset :=
  check (symbol b =? symbol a) "attempt to add asset with different symbol" ;;;
  let r := amount a + amount b in
  check (- max_amount <=? r) "addition underflow" ;;;
  check (r <=? max_amount) "addition overflow" ;;;
  Ok (mk_asset r (symbol a)).

(** [operator-] on assets *)
Definition asset_sub (a b : asset) : result asset :=
  check (symbol b =? symbol a) "attempt to subtract asset with different symbol" ;;;
  let r := amount a - amount b in
  check (- max_amount <=? r) "subtraction underflow" ;;;
  check (r <=? max_amount) "subtraction overflow" ;;;
  Ok (mk_asset r (symbol a)).

(** [operator*] of an asset by an integer *)
Definition asset_mul (a : asset) (n : Z) : result asset :=
  let r := amount a * n in
  check (r <=? max_amount) "multiplication overflow" ;;;
  check (- max_amount <=? r) "multiplication underflow" ;;;
  Ok (mk_asset r (symbol a)).

(** [operator/] of an asset by an integer: C++ division truncates. *)
Definition asset_div (a : asset) (n : Z) : result asset :=
  check (negb (n =? 0)) "divide by zero" ;;;
  Ok (mk_asset (Z.quot (amount a) n) (symbol a)).

(** [operator<] on assets; the other comparisons are defined from it. *)
Definition asset_lt (a b : asset) : result bool :=
  check (symbol a =? symbol b) "comparison of assets with different symbols is not allowed" ;;;
  Ok (amount a <? amount b).

Definition asset_gt (a b : asset) : result bool := asset_lt b a.

Definition asset_ge (a b : asset) : result bool :=
  c <- asset_lt a b ;; Ok (negb c).

(** ** Constants of the contract (betacorn.hpp, lines 52-61) *)

Definition ACORN_SYMBOL : symbol_t := Eval cbv in mk_symbol "ACORN" 4.
Definition NULL_NAME : name := 0.
Definition NULL_GUESS : Z := 127.
Definition MAX_BET_TO_BANKROLL_RATIO : Z := 100.
Definition MIN_TRANSFER_SHELLS : Z := 100.
Definition GAME_TIMEOUT_SECS : Z := 5 * 60.
Definition ZERO_SOURCE : Z := 0x6c8fc18b8e9f8e20.
Definition ZERO_ACORNS : asset := mk_asset 0 ACORN_SYMBOL.
Definition ACORN_SHELL : asset := mk_asset 1 ACORN_SYMBOL.
Definition MIN_BALANCE : asset := mk_asset 500000 ACORN_SYMBOL.

(** ** Checksums

    A [checksum256] is seen through [extract_as_byte_array]: its 32 bytes in
    digest order. *)
Definition checksum256 : Type := list byte.

Definition byte_val (b : byte) : Z := Z.of_N (Byte.to_N b).

Definition byte_at (i : nat) (h : checksum256) : Z := byte_val (nth i h x00).

(** [get_hash_prefix]: the first 64-bit word of the object in memory.  A
    [checksum256] keeps two 128-bit words, the first holding digest bytes
    0..15 with byte 0 most significant; on the little-endian target the low
    half of that word comes first, so the word read is digest bytes 8..15,
    byte 8 most significant. *)
Definition get_hash_prefix (hash : checksum256) : Z :=
  fold_left (fun acc b => acc * 256 + byte_val b) (firstn 8 (skipn 8 hash)) 0.

(** ** Tables ([eosio::multi_index])

    A table is the list of its rows in ascending order of primary key, which
    is the order [begin()] / [++] walk it in.  An iterator of the primary
    index is the row it points at, [None] for [end()].  An iterator of a
    secondary index is the list of the rows still ahead of it in the order of
    that index, [[]] for [end()]. *)

Definition DUPLICATE_KEY : string := "primary key already exists in table".
Definition ERASE_END : string := "cannot pass end iterator to erase".
Definition MODIFY_END : string := "cannot pass end iterator to modify".
Definition MODIFY_KEY : string :=
  "updater cannot change primary key when modifying an object".

Fixpoint ascending (l : list Z) : bool :=
  match l with
  | [] => true
  | x :: l' =>
      match l' with
      | [] => true
      | y :: _ => (x <? y) && ascending l'
      end
  end.

Section MultiIndex.
Variable R : Type.
Variable pk : R -> Z.

Fixpoint find (k : Z) (t : list R) : option R :=
  match t with
  | [] => None
  | r :: t' => if pk r =? k then Some r else find k t'
  end.

(** [emplace] stores a new row; the store refuses a primary key that is
    already present, which aborts the transaction. *)
Fixpoint emplace (r : R) (t : list R) : result (list R) :=
  match t with
  | [] => Ok [r]
  | x :: t' =>
      if pk r <? pk x then Ok (r :: t)
      else if pk r =? pk x then Abort DUPLICATE_KEY
      else t'' <- emplace r t' ;; Ok (x :: t'')
  end.

Definition erase_key (k : Z) (t : list R) : list R :=
  filter (fun r => negb (pk r =? k)) t.

Definition erase (it : option R) (t : list R) : result (list R) :=
  match it with
  | None => Abort ERASE_END
  | Some r => Ok (erase_key (pk r) t)
  end.

Definition modify (it : option R) (updater : R -> R) (t : list R)
  : result (list R) :=
  match it with
  | None => Abort MODIFY_END
  | Some r =>
      check (pk (updater r) =? pk r) MODIFY_KEY ;;;
      Ok (map (fun x => if pk x =? pk r then updater r else x) t)
  end.

(** Rows of a table never share a primary key, and are kept in the
    ascending order of their keys. *)
Definition keys_unique (t : list R) : Prop := NoDup (map pk t).
Definition table_ok (t : list R) : Prop := ascending (map pk t) = true.

(** *** A secondary index, ordered by (secondary key, primary key) *)
Section Secondary.
Variable sk : R -> Z.

Fixpoint insert_sec (r : R) (idx : list R) : list R :=
  match idx with
  | [] => [r]
  | x :: idx' => if sk r <=? sk x then r :: idx else x :: insert_sec r idx'
  end.

(** Rows come in primary-key order, so inserting each one in front of
    the rows with an equal secondary key keeps ties in that order. *)
Definition index_order (t : list R) : list R := fold_right insert_sec [] t.

Fixpoint lower_bound (k : Z) (idx : list R) : list R :=
  match idx with
  | [] => []
  | x :: idx' => if sk x <? k then lower_bound k idx' else idx
  end.

(** [find] on a secondary index: the lower bound, kept only when its
    key is the one asked for. *)
Definition sec_find (k : Z) (t : list R) : list R :=
  match lower_bound k (index_order t) with
  | [] => []
  | x :: rest => if sk x =? k then x :: rest else []
  end.
End Secondary.
End MultiIndex.

(** ** Rows of the three tables (betacorn.hpp, lines 68-134) *)

Record account : Type := mk_account { owner : name; balance : asset }.

(** [account::primary_key]: the code of the balance's symbol. *)
Definition account_pk (a : account) : Z := symbol_code_raw (symbol (balance a)).
Definition get_owner (a : account) : Z := owner a.

Record game : Type := mk_game { g_commitment : checksum256; g_host : name }.

Definition game_pk (g : game) : Z := get_hash_prefix (g_commitment g).
Definition get_host (g : game) : Z := g_host g.

Record match_ : Type := mk_match {
  m_commitment : checksum256;
  m_host : name;
  m_guess : Z;
  m_player : name;
  m_bet : asset;
  m_deadline : Z
}.

Definition match_pk (m : match_) : Z := get_hash_prefix (m_commitment m).
Definition get_player (m : match_) : Z := m_player m.

(** An inline [acornaccount::transfer] queued by [pay]. *)
Record transfer : Type := mk_transfer {
  tr_from : name;
  tr_to : name;
  tr_quantity : asset;
  tr_memo : string
}.

(** The contract's storage, with the inline actions it has sent. *)
Record state : Type := mk_state {
  accounts : list account;
  games : list game;
  matches : list match_;
  sent : list transfer
}.

Definition init_state : state := mk_state [] [] [] [].

Definition set_accounts (t : list account) (s : state) : state :=
  mk_state t (games s) (matches s) (sent s).
Definition set_games (t : list game) (s : state) : state :=
  mk_state (accounts s) t (matches s) (sent s).
Definition set_matches (t : list match_) (s : state) : state :=
  mk_state (accounts s) (games s) t (sent s).

(** The actions of the contract, with the transfer notification it listens
    to (the [apply] dispatcher, betacorn.cpp lines 348-357). *)
Inductive action : Type :=
| Withdraw (to : name) (quantity : asset)
| Commit (host : name) (commitment : checksum256)
| CancelCommit (host : name) (commitment : checksum256)
| Reveal (commitment source : checksum256)
| Collect (player : name)
| AcornTransfer (from to : name) (quantity : asset) (memo : string).

Definition uint32 (z : Z) : Z := z mod 2 ^ 32.

(** [require_auth]: [auth] lists the accounts that authorised the action. *)
Definition require_auth (auth : list name) (who : name) : result unit :=
  check (existsb (Z.eqb who) auth) "missing required authority".

Definition is_end {A : Type} (it : list A) : bool :=
  match it with [] => true | _ => false end.

Definition is_some {A : Type} (it : option A) : bool :=
  match it with Some _ => true | None => false end.

(** ** The contract *)

Section Dice.
(** The account the contract is deployed on ([_self]). *)
Variable self : name.
(** The digest [assert_sha256] compares with. *)
Variable sha256 : list byte -> checksum256.
(** [asset::to_string]. *)
Variable asset_to_string : asset -> string.

Definition checksum_eqb (a b : checksum256) : bool :=
  if list_eq_dec Byte.byte_eq_dec a b then true else false.

Definition assert_sha256 (data : list byte) (hash : checksum256) : result unit :=
  check (checksum_eqb (sha256 data) hash) "hash mismatch".

(** betacorn.cpp, lines 273-279.  [send] queues the inline transfer; what
    the token contract makes of it is not the business of this contract. *)
Definition pay (to : name) (quantity : asset) (memo : string) (s : state) : state :=
  mk_state (accounts s) (games s) (matches s)
           (sent s ++ [mk_transfer self to quantity memo]).

(** betacorn.cpp, lines 281-302 *)
Definition add_balance (owner_ : name) (value : asset) (enforce_min : bool)
           (s : state) : result state :=
  match sec_find get_owner owner_ (accounts s) with
  | [] =>
      (if enforce_min then
         c <- asset_ge value MIN_BALANCE ;;
         check c "deposit does not meet minimum balance requirement"
       else Ok tt) ;;;
      t <- emplace account_pk (mk_account owner_ value) (accounts s) ;;
      Ok (set_accounts t s)
  | a :: _ =>
      nb <- asset_add (balance a) value ;;
      t <- modify account_pk (Some a) (fun x => mk_account (owner x) nb) (accounts s) ;;
      Ok (set_accounts t s)
  end.

(** The loop of betacorn.cpp, lines 323-327: every offer from the iterator
    to the end of the by-host index goes, with the match of the same key. *)
Fixpoint cancel_offers (git : list game) (mts : list match_) (gms : list game)
  : result (list match_ * list game) :=
  match git with
  | [] => Ok (mts, gms)
  | g :: git' =>
      mts' <- erase match_pk (find match_pk (game_pk g) mts) mts ;;
      cancel_offers git' mts' (erase_key game_pk (game_pk g) gms)
  end.

(** betacorn.cpp, lines 304-346 *)
Definition sub_balance (owner_ : name) (value : asset) (enforce_min : bool)
           (s : state) : result state :=
  match sec_find get_owner owner_ (accounts s) with
  | [] => Abort "no account object found"
  | owner_account :: _ =>
      check (amount (balance owner_account) >=? amount value) "overdrawn balance" ;;;
      result_ <- asset_sub (balance owner_account) value ;;
      if amount result_ =? 0 then
        let acnts := erase_key account_pk (account_pk owner_account) (accounts s) in
        r <- cancel_offers (sec_find get_host owner_ (games s)) (matches s) (games s) ;;
        Ok (mk_state acnts (snd r) (fst r) (sent s))
      else
        (if enforce_min then
           c <- asset_ge result_ MIN_BALANCE ;;
           check c "withdrawal must either withdraw the full balance, or the remainder must meet the minimum balance requirement" ;;;
           check (amount value >=? MIN_TRANSFER_SHELLS)
                 "withdrawals below the minimum transfer are only allowed when emptying the account"
         else Ok tt) ;;;
        t <- modify account_pk (Some owner_account)
                    (fun x => mk_account (owner x) result_) (accounts s) ;;
        Ok (set_accounts t s)
  end.

(** betacorn.cpp, lines 5-17 *)
Definition withdraw (auth : list name) (to : name) (quantity : asset)
           (s : state) : result state :=
  require_auth auth to ;;;
  check (symbol quantity =? ACORN_SYMBOL) "you can only withdraw acornaccount::ACORN" ;;;
  check (is_valid quantity) "invalid quantity" ;;;
  check (amount quantity >? 0) "must withdraw positive quantity" ;;;
  s1 <- sub_balance to quantity true s ;;
  Ok (pay to quantity "" s1).

(** betacorn.cpp, lines 19-66 *)
Definition commit (auth : list name) (now : Z) (host : name)
           (commitment : checksum256) (s : state) : result state :=
  require_auth auth host ;;;
  check (negb (is_end (sec_find get_owner host (accounts s))))
        "cannot commit with a bankroll of zero" ;;;
  let hash_prefix := get_hash_prefix commitment in
  check (negb (hash_prefix =? ZERO_SOURCE))
        "A zeroed-out checksum256 is not an acceptable commitment source" ;;;
  check (negb (is_some (find match_pk hash_prefix (matches s))))
        "commitment already exists or was generated from a bad seed" ;;;
  gms <- emplace game_pk (mk_game commitment host) (games s) ;;
  mts <- emplace match_pk
           (mk_match commitment host NULL_GUESS NULL_NAME ZERO_ACORNS now)
           (matches s) ;;
  Ok (mk_state (accounts s) gms mts (sent s)).

(** betacorn.cpp, lines 68-88 *)
Definition cancelcommit (auth : list name) (host : name)
           (commitment : checksum256) (s : state) : result state :=
  require_auth auth host ;;;
  let hash_prefix := get_hash_prefix commitment in
  match find match_pk hash_prefix (matches s) with
  | None => Abort "commitment not found"
  | Some em =>
      check (m_guess em =? NULL_GUESS) "cannot cancel commitment: already in play" ;;;
      let mts := erase_key match_pk (match_pk em) (matches s) in
      gms <- erase game_pk (find game_pk hash_prefix (games s)) (games s) ;;
      Ok (mk_state (accounts s) gms mts (sent s))
  end.

(** betacorn.cpp, lines 90-145 *)
Definition reveal (commitment source : checksum256) (s : state) : result state :=
  assert_sha256 source commitment ;;;
  let hash_prefix := get_hash_prefix commitment in
  match find match_pk hash_prefix (matches s) with
  | None => Abort "commitment not found"
  | Some em =>
      s1 <- (if negb (m_guess em =? NULL_GUESS) then
               doubled <- asset_mul (m_bet em) 2 ;;
               win_quantity <- asset_sub doubled ACORN_SHELL ;;
               let result_ := Z.land (byte_at 31 source) 1 in
               let '(host_payout, player_payout, player_message) :=
                 if result_ =? m_guess em
                 then (ACORN_SHELL, win_quantity, "Win!")
                 else (win_quantity, ACORN_SHELL, "Lose") in
               add_balance (m_host em) host_payout false
                           (pay (m_player em) player_payout player_message s)
             else
               gms <- erase game_pk (find game_pk hash_prefix (games s)) (games s) ;;
               Ok (set_games gms s)) ;;
      Ok (set_matches (erase_key match_pk (match_pk em) (matches s1)) s1)
  end.

(** The loop of betacorn.cpp, lines 156-172.  Erasing through the iterator
    removes the row it points at and leaves the rows ahead of it alone, so
    the walk visits the rows that were ahead when it started. *)
Fixpoint collect_loop (now : Z) (player : name) (it : list match_) (s : state)
  : result state :=
  match it with
  | [] => Ok s
  | em :: it' =>
      if now >? m_deadline em then
        quantity <- asset_mul (m_bet em) 2 ;;
        let s1 := pay player quantity "Win! (Timeout)" s in
        collect_loop now player it'
          (set_matches (erase_key match_pk (match_pk em) (matches s1)) s1)
      else collect_loop now player it' s
  end.

(** betacorn.cpp, lines 147-173 *)
Definition collect (now : Z) (player : name) (s : state) : result state :=
  collect_loop now player (sec_find get_player player (matches s)) s.

(** The scan of betacorn.cpp, lines 209-260.  [inl] is the early return
    after a match, [inr] the largest bankroll recorded when the walk
    reaches [end()]. *)
Fixpoint do_bet_scan (now : Z) (player : name) (quantity : asset) (guess : Z)
         (ait : list account) (max_bankroll : asset) (s : state)
  : result (state + asset) :=
  match ait with
  | [] => Ok (inr max_bankroll)
  | acct :: ait' =>
      share <- asset_div (balance acct) MAX_BET_TO_BANKROLL_RATIO ;;
      covers <- asset_ge share quantity ;;
      if covers then
        match sec_find get_host (owner acct) (games s) with
        | eg :: _ =>
            s1 <- sub_balance (owner acct) quantity false s ;;
            mts <- modify match_pk
                     (find match_pk (get_hash_prefix (g_commitment eg)) (matches s1))
                     (fun m => mk_match (m_commitment m) (m_host m) guess player
                                        quantity (uint32 (now + GAME_TIMEOUT_SECS)))
                     (matches s1) ;;
            Ok (inl (mk_state (accounts s1)
                              (erase_key game_pk (game_pk eg) (games s1))
                              mts (sent s1)))
        | [] => do_bet_scan now player quantity guess ait' max_bankroll s
        end
      else
        larger <- asset_gt (balance acct) max_bankroll ;;
        if larger then
          do_bet_scan now player quantity guess ait'
            (if is_end (sec_find get_host (owner acct) (games s))
             then max_bankroll else balance acct) s
        else do_bet_scan now player quantity guess ait' max_bankroll s
  end.

(** betacorn.cpp, lines 202-271 *)
Definition do_bet (now : Z) (player : name) (quantity : asset) (guess : Z)
           (s : state) : result state :=
  r <- do_bet_scan now player quantity guess (accounts s) ZERO_ACORNS s ;;
  match r with
  | inl s' => Ok s'
  | inr max_bankroll =>
      max_bet <- asset_div max_bankroll MAX_BET_TO_BANKROLL_RATIO ;;
      if amount max_bet <? MIN_TRANSFER_SHELLS then Abort "no bets available"
      else Abort ("the current maximum bet is " ++ asset_to_string max_bet)
  end.

(** betacorn.cpp, lines 175-200 *)
Definition acorn_transfer (now : Z) (from to : name) (quantity : asset)
           (memo : string) (s : state) : result state :=
  if from =? self then Ok s
  else
    check (symbol quantity =? ACORN_SYMBOL) "you can only deposit acornaccount::ACORN" ;;;
    check (is_valid quantity) "invalid quantity" ;;;
    check (amount quantity >=? MIN_TRANSFER_SHELLS) "minimum quantity not met" ;;;
    check (Z.of_nat (String.length memo) <=? 256) "memo has more than 256 bytes" ;;;
    if ((memo =? "odd") || (memo =? "Odd") || (memo =? "ODD") || (memo =? "1"))%string
    then do_bet now from quantity 1 s
    else if ((memo =? "even") || (memo =? "Even") || (memo =? "EVEN") || (memo =? "0"))%string
    then do_bet now from quantity 0 s
    else if ((memo =? "deposit") || (memo =? "Deposit") || (memo =? "DEPOSIT"))%string
    then add_balance from quantity true s
    else Abort "memo must be: 'odd', 'even' or 'deposit'.".

(** The dispatcher: one action, run at time [now] with authorisations
    [auth]. *)
Definition apply (auth : list name) (now : Z) (a : action) (s : state)
  : result state :=
  match a with
  | Withdraw to quantity => withdraw auth to quantity s
  | Commit host commitment => commit auth now host commitment s
  | CancelCommit host commitment => cancelcommit auth host commitment s
  | Reveal commitment source => reveal commitment source s
  | Collect player => collect now player s
  | AcornTransfer from to quantity memo => acorn_transfer now from to quantity memo s
  end.

(** A run of the contract: actions applied one after the other, the clock
    never going back. *)
Fixpoint run (clock : Z) (trace : list (list name * Z * action)) (s : state)
  : result state :=
  match trace with
  | [] => Ok s
  | (auth, now, a) :: trace' =>
      check ((clock <=? now) && (now <? 2 ^ 32)) "not a time of the chain" ;;;
      s' <- apply auth now a s ;;
      run now trace' s'
  end.

Inductive reachable_at : Z -> state -> Prop :=
| reach_init : reachable_at 0 init_state
| reach_step (clock now : Z) (auth : list name) (a : action) (s s' : state) :
    reachable_at clock s ->
    clock <= now < 2 ^ 32 ->
    apply auth now a s = Ok s' ->
    reachable_at now s'.

Definition reachable (s : state) : Prop := exists clock, reachable_at clock s.

End Dice.

(** ** Notions used to state the properties *)

(** The order of a secondary index, as a predicate. *)
Fixpoint sec_sorted {R : Type} (sk : R -> Z) (idx : list R) : Prop :=
  match idx with
  | [] => True
  | x :: idx' => (forall y, In y idx' -> sk x <= sk y) /\ sec_sorted sk idx'
  end.

(** The bankroll the ledger holds for [who]: nothing when it has no row. *)
Definition ledger_balance (who : name) (s : state) : Z :=
  match sec_find get_owner who (accounts s) with
  | [] => 0
  | a :: _ => amount (balance a)
  end.

(** The host has an open offer. *)
Definition has_offer (who : name) (s : state) : bool :=
  negb (is_end (sec_find get_host who (games s))).

(** One ledger row per owner. *)
Definition one_row_per_owner (s : state) : Prop := NoDup (map get_owner (accounts s)).

(** The tables of a state respect their primary keys. *)
Definition tables_ok (s : state) : Prop :=
  table_ok account_pk (accounts s) /\
  table_ok game_pk (games s) /\
  table_ok match_pk (matches s).

(** ASCII lower case, to compare notes without regard to case. *)
Definition lower_char (c : ascii) : ascii :=
  let n := nat_of_ascii c in
  if (65 <=? n)%nat && (n <=? 90)%nat then ascii_of_nat (n + 32) else c.

Fixpoint lower (str : string) : string :=
  match str with
  | EmptyString => EmptyString
  | String c rest => String (lower_char c) (lower rest)
  end.

(** The notes [acorn_transfer] accepts. *)
Definition odd_memos : list string := ["odd"; "Odd"; "ODD"; "1"].
Definition even_memos : list string := ["even"; "Even"; "EVEN"; "0"].
Definition deposit_memos : list string := ["deposit"; "Deposit"; "DEPOSIT"].
Definition MEMO_REJECTED : string := "memo must be: 'odd', 'even' or 'deposit'.".

(** ** SHA-256 (FIPS 180-4)

    The digest [assert_sha256] computes, for worked examples on real
    commitments.  Words are 32-bit values in [Z]. *)

Module Sha256.
Definition mask32 : Z := 0xffffffff.
Definition add32 (a b : Z) : Z := Z.land (a + b) mask32.
Definition rotr (n x : Z) : Z :=
  Z.lor (Z.shiftr x n) (Z.land (Z.shiftl x (32 - n)) mask32).
Definition ch (x y z : Z) : Z := Z.lxor (Z.land x y) (Z.land (Z.lxor x mask32) z).
Definition maj (x y z : Z) : Z :=
  Z.lxor (Z.lxor (Z.land x y) (Z.land x z)) (Z.land y z).
Definition big_sigma0 (x : Z) : Z := Z.lxor (Z.lxor (rotr 2 x) (rotr 13 x)) (rotr 22 x).
Definition big_sigma1 (x : Z) : Z := Z.lxor (Z.lxor (rotr 6 x) (rotr 11 x)) (rotr 25 x).
Definition small_sigma0 (x : Z) : Z := Z.lxor (Z.lxor (rotr 7 x) (rotr 18 x)) (Z.shiftr x 3).
Definition small_sigma1 (x : Z) : Z := Z.lxor (Z.lxor (rotr 17 x) (rotr 19 x)) (Z.shiftr x 10).

(** The constants are the first 32 bits of the fractional parts of the
    square roots (initial hash) and cube roots (rounds) of the primes. *)
Definition first_primes : list Z :=
  [2; 3; 5; 7; 11; 13; 17; 19; 23; 29; 31; 37; 41; 43; 47; 53; 59; 61; 67; 71; 73; 79;
   83; 89; 97; 101; 103; 107; 109; 113; 127; 131; 137; 139; 149; 151; 157; 163; 167;
   173; 179; 181; 191; 193; 197; 199; 211; 223; 227; 229; 233; 239; 241; 251; 257; 263;
   269; 271; 277; 281; 283; 293; 307; 311].

(** The integer cube root, one bit at a time from bit [bits - 1] down. *)
Fixpoint cube_root (bits : nat) (n root : Z) : Z :=
  match bits with
  | O => root
  | S bits' =>
      let candidate := root + 2 ^ Z.of_nat bits' in
      cube_root bits' n (if candidate * candidate * candidate <=? n then candidate else root)
  end.

Definition initial_hash : list Z :=
  Eval vm_compute in
    map (fun p => Z.land (Z.sqrt (p * 2 ^ 64)) mask32) (firstn 8 first_primes).

Definition round_constants : list Z :=
  Eval vm_compute in
    map (fun p => Z.land (cube_root 40 (p * 2 ^ 96) 0) mask32) first_primes.

Definition z_byte (z : Z) : byte :=
  match Byte.of_N (Z.to_N (Z.land z 255)) with Some b => b | None => x00 end.

(** Big-endian bytes of the low [n] bytes of [z]. *)
Fixpoint be_bytes (n : nat) (z : Z) : list byte :=
  match n with
  | O => []
  | S n' => (be_bytes n' (Z.shiftr z 8) ++ [z_byte z])%list
  end.

Definition be_word (bs : list byte) : Z :=
  fold_left (fun acc b => acc * 256 + byte_val b) bs 0.

Definition pad (msg : list byte) : list byte :=
  let len := Z.of_nat (List.length msg) in
  let zeros := Z.to_nat ((55 - len) mod 64) in
  (msg ++ [x80] ++ repeat x00 zeros ++ be_bytes 8 (len * 8))%list.

Fixpoint chunks (fuel : nat) (size : nat) (bs : list byte) : list (list byte) :=
  match fuel with
  | O => []
  | S fuel' =>
      match bs with
      | [] => []
      | _ => firstn size bs :: chunks fuel' size (skipn size bs)
      end
  end.

(** The message schedule, newest word first. *)
Fixpoint schedule (n : nat) (w : list Z) : list Z :=
  match n with
  | O => w
  | S n' =>
      let next := add32 (add32 (small_sigma1 (nth 1 w 0)) (nth 6 w 0))
                        (add32 (small_sigma0 (nth 14 w 0)) (nth 15 w 0)) in
      schedule n' (next :: w)
  end.

Definition round (st : list Z) (kw : Z * Z) : list Z :=
  match st with
  | [a; b; c; d; e; f; g; h] =>
      let t1 := add32 (add32 (add32 h (big_sigma1 e)) (add32 (ch e f g) (fst kw))) (snd kw) in
      let t2 := add32 (big_sigma0 a) (maj a b c) in
      [add32 t1 t2; a; b; c; add32 d t1; e; f; g]
  | _ => st
  end.

Definition compress (h : list Z) (block : list byte) : list Z :=
  let w16 := map be_word (chunks 16 4 block) in
  let w := rev (schedule 48 (rev w16)) in
  let st := fold_left round (combine round_constants w) h in
  map (fun p => add32 (fst p) (snd p)) (combine h st).

Definition sha256 (msg : list byte) : list byte :=
  let padded := pad msg in
  let blocks := chunks (List.length padded) 64 padded in
  flat_map (be_bytes 4) (fold_left compress blocks initial_hash).
End Sha256.

(** ** Concrete parties and values for worked examples *)

Module Ex.
Definition SELF : name := 999.
Definition ALICE : name := 5.
Definition BOB : name := 7.
Definition CAROL : name := 9.

Definition acorns (n : Z) : asset := mk_asset n ACORN_SYMBOL.

Definition digest (data : list byte) : checksum256 := Sha256.sha256 data.

(** The usual rendering of an asset for [asset::to_string] in examples:
    the amount with as many decimals as the precision of the symbol, then
    the code of the symbol. *)
Definition decimal (n : Z) : string := NilZero.string_of_uint (N.to_uint (Z.to_N n)).

Definition fraction (precision n : Z) : string :=
  match decimal (10 ^ precision + n mod 10 ^ precision) with
  | String _ digits => digits
  | EmptyString => EmptyString
  end.

Fixpoint code_string (fuel : nat) (code : Z) : string :=
  match fuel with
  | O => EmptyString
  | S fuel' =>
      if code =? 0 then EmptyString
      else String (ascii_of_N (Z.to_N (Z.land code 255)))
                  (code_string fuel' (Z.shiftr code 8))
  end.

Definition show (a : asset) : string :=
  let precision := Z.land (symbol a) 255 in
  let sign := if amount a <? 0 then "-" else "" in
  let units := decimal (Z.quot (Z.abs (amount a)) (10 ^ precision)) in
  let cents := fraction precision (Z.abs (amount a)) in
  (sign ++ units ++ "." ++ cents ++ " " ++ code_string 7 (symbol_code_raw (symbol a)))%string.

Definition source1 : checksum256 :=
  (repeat x00 16 ++ [x01; x02; x03; x04; x05; x06; x07; x08] ++ repeat x00 7 ++ [x03])%list.
Definition source2 : checksum256 :=
  (repeat x00 16 ++ [x08; x07; x06; x05; x04; x03; x02; x01] ++ repeat x00 7 ++ [x04])%list.
Definition source3 : checksum256 :=
  (repeat x00 16 ++ [x02; x02; x02; x02; x02; x02; x02; x02] ++ repeat x00 7 ++ [x05])%list.
Definition commitment1 : checksum256 := Eval vm_compute in digest source1.
Definition commitment2 : checksum256 := Eval vm_compute in digest source2.
Definition commitment3 : checksum256 := Eval vm_compute in digest source3.

(** The source of 32 zero bytes, whose commitment [commit] refuses. *)
Definition zero_source : checksum256 := repeat x00 32.

Definition final (r : result state) : state :=
  match r with Ok s => s | Abort _ => init_state end.

(** Alice funds a bankroll of 100 ACORN and publishes one commitment. *)
Definition trace_offer : list (list name * Z * action) :=
  [ ([], 10, AcornTransfer ALICE SELF (acorns 1000000) "deposit");
    ([ALICE], 10, Commit ALICE commitment1) ].
Definition offer_open : state :=
  Eval vm_compute in final (run SELF digest show 0 trace_offer init_state).

(** After Alice's commitment somebody calls [collect] for the empty name,
    one second later. *)
Definition trace_swept : list (list name * Z * action) :=
  (trace_offer ++ [ ([BOB], 11, Collect NULL_NAME) ])%list.
Definition swept : state :=
  Eval vm_compute in final (run SELF digest show 0 trace_swept init_state).

(** Bob wagers 0.5 ACORN on odd against Alice's offer. *)
Definition trace_in_play : list (list name * Z * action) :=
  (trace_offer ++ [ ([], 20, AcornTransfer BOB SELF (acorns 5000) "odd") ])%list.
Definition in_play : state :=
  Eval vm_compute in final (run SELF digest show 0 trace_in_play init_state).

(** Alice reveals the source of her commitment; its last byte is odd. *)
Definition trace_settled : list (list name * Z * action) :=
  (trace_in_play ++ [ ([ALICE], 30, Reveal commitment1 source1) ])%list.
Definition settled : state :=
  Eval vm_compute in final (run SELF digest show 0 trace_settled init_state).

(** Alice publishes three commitments, Bob's wager takes one of them, and
    Alice withdraws all that is left of her bankroll. *)
Definition trace_three_offers : list (list name * Z * action) :=
  [ ([], 10, AcornTransfer ALICE SELF (acorns 1000000) "deposit");
    ([ALICE], 10, Commit ALICE commitment1);
    ([ALICE], 11, Commit ALICE commitment2);
    ([ALICE], 12, Commit ALICE commitment3);
    ([], 20, AcornTransfer BOB SELF (acorns 5000) "even") ].
Definition three_offers : state :=
  Eval vm_compute in final (run SELF digest show 0 trace_three_offers init_state).
Definition emptied : state :=
  Eval vm_compute in final (withdraw SELF [ALICE] ALICE (acorns 995000) three_offers).

(** Alice funds the minimum balance of 50 ACORN and publishes one
    commitment; Bob's wager of 0.5 ACORN on odd is then matched. *)
Definition trace_min_offer : list (list name * Z * action) :=
  [ ([], 10, AcornTransfer ALICE SELF MIN_BALANCE "deposit");
    ([ALICE], 10, Commit ALICE commitment1) ].
Definition min_offer : state :=
  Eval vm_compute in final (run SELF digest show 0 trace_min_offer init_state).
Definition min_in_play : state :=
  Eval vm_compute in final (do_bet show 20 BOB (acorns 5000) 1 min_offer).

(** Alice has funded her bankroll and done nothing else. *)
Definition trace_funded : list (list name * Z * action) :=
  [ ([], 10, AcornTransfer ALICE SELF (acorns 1000000) "deposit") ].
Definition funded : state :=
  Eval vm_compute in final (run SELF digest show 0 trace_funded init_state).
End Ex.

(** ** Invariants of the reachable states *)

(** The ledger: at most one row, in ACORN, with a positive balance. *)
Definition ledger_inv (t : list account) : Prop :=
  (List.length t <= 1)%nat /\
  forall a, In a t -> symbol (balance a) = ACORN_SYMBOL /\ 0 < amount (balance a).

(** The Bets that were taken carry the wager that was transferred in. *)
Definition wagers_inv (t : list match_) : Prop :=
  forall m, In m t -> m_guess m <> NULL_GUESS ->
            symbol (m_bet m) = ACORN_SYMBOL /\ MIN_TRANSFER_SHELLS <= amount (m_bet m).

(** A Bet that shares its key with an Offer has not been taken. *)
Definition offers_inv (gms : list game) (mts : list match_) : Prop :=
  forall g m, In g gms -> In m mts -> match_pk m = game_pk g -> m_guess m = NULL_GUESS.

Definition state_inv (s : state) : Prop :=
  ledger_inv (accounts s) /\ wagers_inv (matches s) /\
  offers_inv (games s) (matches s).

(** The payment [collect] queues for the Bet [em] it sweeps. *)
Definition timeout_payment (self player : name) (em : match_) : transfer :=
  mk_transfer self player (mk_asset (amount (m_bet em) * 2) (symbol (m_bet em)))
              "Win! (Timeout)".

(** Offer/Bet duality: the keys of the Offers are the keys of the Bets
    whose guess is unset. *)
Definition mirrored (gms : list game) (mts : list match_) : Prop :=
  forall k,
    (exists g, In g gms /\ game_pk g = k) <->
    (exists m, In m mts /\ match_pk m = k /\ m_guess m = NULL_GUESS).

Definition duality (s : state) : Prop := mirrored (games s) (matches s).

(** The largest bankroll among the accounts that hold an open offer, zero
    when there is none. *)
Definition max_bankroll_with_offer (s : state) : Z :=
  fold_left Z.max
            (map (fun a => amount (balance a))
                 (filter (fun a => has_offer (owner a) s) (accounts s)))
            0.

(** A Bet whose guess is unset has the empty name as player and no wager. *)
Definition placeholders_inv (t : list match_) : Prop :=
  forall m, In m t -> m_guess m = NULL_GUESS ->
            m_player m = NULL_NAME /\ m_bet m = ZERO_ACORNS.

(** The actions other than a sweep for the empty name (names are unsigned,
    so the empty name, zero, is the least). *)
Definition not_empty_sweep (a : action) : Prop :=
  match a with
  | Collect player => 0 < player
  | _ => True
  end.

(** ** Notions for the properties of whole runs *)

(** What the ledger holds, what the Bets hold, and what has been paid out,
    in shells. *)
Definition total_balance (t : list account) : Z :=
  fold_right (fun a acc => amount (balance a) + acc) 0 t.

Definition total_bets (t : list match_) : Z :=
  fold_right (fun m acc => amount (m_bet m) + acc) 0 t.

Definition total_sent (l : list transfer) : Z :=
  fold_right (fun tr acc => amount (tr_quantity tr) + acc) 0 l.

(** The shells the contract answers for: the bankrolls, both stakes of every
    Bet, and what it has already paid out. *)
Definition custody (s : state) : Z :=
  total_balance (accounts s) + 2 * total_bets (matches s) + total_sent (sent s).

(** The shells an action brings into the contract: those of a transfer
    notification that is not one of the contract's own payments. *)
Definition inflow (self : name) (a : action) : Z :=
  match a with
  | AcornTransfer from _ quantity _ => if from =? self then 0 else amount quantity
  | _ => 0
  end.

(** The shells that come in over a run. *)
Definition inflows (self : name) (trace : list (list name * Z * action)) : Z :=
  fold_right (fun step acc => inflow self (snd step) + acc) 0 trace.

(** The two shapes of a Bet record. *)
Definition is_placeholder_bet (m : match_) : Prop :=
  m_guess m = NULL_GUESS /\ m_player m = NULL_NAME /\ m_bet m = ZERO_ACORNS.

Definition is_active_bet (m : match_) : Prop :=
  (m_guess m = 0 \/ m_guess m = 1) /\
  symbol (m_bet m) = ACORN_SYMBOL /\
  MIN_TRANSFER_SHELLS <= amount (m_bet m) <= max_amount /\
  0 <= m_deadline m < 2 ^ 32.

(** An Offer is there only while its host holds the ledger row. *)
Definition offers_have_bankroll (s : state) : Prop :=
  forall g, In g (games s) -> exists a, accounts s = [a] /\ owner a = g_host g.

(** An Offer whose key has no Bet. *)
Definition orphan_offer (g : game) (s : state) : Prop :=
  In g (games s) /\ find match_pk (game_pk g) (matches s) = None.

(** No bankroll exceeds the largest amount an asset can carry. *)
Definition ledger_bounded (t : list account) : Prop :=
  forall a, In a t -> amount (balance a) <= max_amount.

(** Every Bet has one of the two shapes. *)
Definition bets_shaped (t : list match_) : Prop :=
  forall m, In m t -> is_placeholder_bet m \/ is_active_bet m.

(** ** Two wagers in play at once *)

Module Ex2.
(** Alice offers two games; Bob takes one and Carol the other. *)
Definition trace_two_bets : list (list name * Z * action) :=
  [ ([], 10, AcornTransfer Ex.ALICE Ex.SELF (Ex.acorns 1000000) "deposit");
    ([Ex.ALICE], 10, Commit Ex.ALICE Ex.commitment1);
    ([Ex.ALICE], 11, Commit Ex.ALICE Ex.commitment2);
    ([], 20, AcornTransfer Ex.BOB Ex.SELF (Ex.acorns 5000) "odd");
    ([], 21, AcornTransfer Ex.CAROL Ex.SELF (Ex.acorns 4000) "even") ].
Definition two_bets : state :=
  Eval vm_compute in Ex.final (run Ex.SELF Ex.digest Ex.show 0 trace_two_bets init_state).

(** Alice has taken her bankroll out while Bob's wager is in play, and
    Carol has opened the ledger row since. *)
Definition trace_host_left : list (list name * Z * action) :=
  [ ([], 10, AcornTransfer Ex.ALICE Ex.SELF (Ex.acorns 1000000) "deposit");
    ([Ex.ALICE], 10, Commit Ex.ALICE Ex.commitment1);
    ([], 20, AcornTransfer Ex.BOB Ex.SELF (Ex.acorns 5000) "odd");
    ([Ex.ALICE], 21, Withdraw Ex.ALICE (Ex.acorns 995000));
    ([], 22, AcornTransfer Ex.CAROL Ex.SELF (Ex.acorns 500000) "deposit") ].
Definition host_left : state :=
  Eval vm_compute in Ex.final (run Ex.SELF Ex.digest Ex.show 0 trace_host_left init_state).
End Ex2.

(** No wager exceeds the hundredth of the largest amount: the bankroll that
    covered it was an amount. *)
Definition wagers_covered (t : list match_) : Prop :=
  forall m, In m t ->
            0 <= amount (m_bet m) <= Z.quot max_amount MAX_BET_TO_BANKROLL_RATIO.


(** The action is a [commit] of a commitment with the key [k]. *)
Definition commits_key (k : Z) (a : action) : Prop :=
  match a with
  | Commit _ commitment => get_hash_prefix commitment = k
  | _ => False
  end.


(** * Verification *)

Unset Implicit Arguments.

(** ** The abort monad *)

Lemma bind_Ok {A B : Type} (m : result A) (k : A -> result B) (b : B) :
  bind m k = Ok b -> exists a, m = Ok a /\ k a = Ok b.
Proof.
  destruct m as [a|msg]; simpl; intros H.
  - exists a. split; [reflexivity | exact H].
  - discriminate H.
Qed.

Lemma check_Ok (cond : bool) (msg : string) (u : unit) :
  check cond msg = Ok u -> cond = true.
Proof.
  unfold check. destruct cond; [reflexivity | discriminate].
Qed.

(** Splits a successful sequence of binds and checks found in hypothesis
    [H] into its successful steps; what is left of the sequence stays in
    [H]. *)
Ltac inv_ok H :=
  let v := fresh "v" in
  let H1 := fresh "Hstep" in
  lazymatch type of H with
  | bind (check _ _) _ = Ok _ =>
      apply bind_Ok in H; destruct H as [v [H1 H]];
      apply check_Ok in H1; inv_ok H
  | bind _ _ = Ok _ =>
      apply bind_Ok in H; destruct H as [v [H1 H]]; inv_ok H
  | Ok _ = Ok _ => injection H as H
  | Abort _ = Ok _ => discriminate H
  | _ => idtac
  end.

(** ** Tables and their indices *)

Section MultiIndexFacts.
Variable R : Type.
Variable pk : R -> Z.

Lemma find_In (k : Z) (t : list R) (r : R) :
  find pk k t = Some r -> In r t /\ pk r = k.
Proof.
  induction t as [|x t IH]; simpl; [discriminate|].
  destruct (pk x =? k) eqn:E.
  - intros H. injection H as <-. split; [now left | now apply Z.eqb_eq].
  - intros H. destruct (IH H) as [Hin Hk]. split; [now right | exact Hk].
Qed.

Lemma find_None (k : Z) (t : list R) :
  find pk k t = None <-> (forall r, In r t -> pk r <> k).
Proof.
  induction t as [|x t IH]; simpl.
  - split; [intros _ r [] | reflexivity].
  - destruct (pk x =? k) eqn:E.
    + split; [discriminate|]. intros H. exfalso.
      apply (H x); [now left | now apply Z.eqb_eq].
    + rewrite IH. apply Z.eqb_neq in E. split.
      * intros H r [<-|Hr]; [exact E | now apply H].
      * intros H r Hr. apply H. now right.
Qed.

Lemma find_unique (t : list R) (r : R) :
  keys_unique pk t -> In r t -> find pk (pk r) t = Some r.
Proof.
  unfold keys_unique. induction t as [|x t IH]; simpl; [intros _ []|].
  intros Hnd Hin. inversion Hnd as [|? ? Hx Hnd']; subst.
  destruct Hin as [->|Hin].
  - now rewrite Z.eqb_refl.
  - destruct (pk x =? pk r) eqn:E.
    + apply Z.eqb_eq in E. exfalso. apply Hx. rewrite E. now apply in_map.
    + now apply IH.
Qed.

Lemma erase_key_In (k : Z) (t : list R) (r : R) :
  In r (erase_key pk k t) <-> In r t /\ pk r <> k.
Proof.
  unfold erase_key. rewrite filter_In, negb_true_iff, Z.eqb_neq. tauto.
Qed.

Lemma find_erase_key_same (k : Z) (t : list R) :
  find pk k (erase_key pk k t) = None.
Proof.
  apply find_None. intros r Hr. now apply erase_key_In in Hr.
Qed.

Lemma find_erase_key_other (k k' : Z) (t : list R) :
  k <> k' -> find pk k' (erase_key pk k t) = find pk k' t.
Proof.
  intros Hk. unfold erase_key. induction t as [|x t IH]; simpl; [reflexivity|].
  destruct (pk x =? k) eqn:E; simpl.
  - apply Z.eqb_eq in E. rewrite IH.
    destruct (pk x =? k') eqn:E'; [|reflexivity].
    apply Z.eqb_eq in E'. congruence.
  - rewrite IH. reflexivity.
Qed.

Lemma erase_key_unique (k : Z) (t : list R) :
  keys_unique pk t -> keys_unique pk (erase_key pk k t).
Proof.
  unfold keys_unique, erase_key. induction t as [|x t IH]; simpl; [trivial|].
  intros Hnd. inversion Hnd as [|? ? Hx Hnd']; subst.
  destruct (negb (pk x =? k)); simpl; [|now apply IH].
  constructor; [|now apply IH].
  intros Hin. apply Hx. apply in_map_iff in Hin. destruct Hin as [y [Hy Hin]].
  apply filter_In in Hin. apply in_map_iff. exists y. tauto.
Qed.

Lemma emplace_In (r : R) (t t' : list R) :
  emplace pk r t = Ok t' -> forall x, In x t' <-> x = r \/ In x t.
Proof.
  revert t'. induction t as [|y t IH]; simpl; intros t' H x.
  - injection H as <-. simpl. intuition congruence.
  - destruct (pk r <? pk y).
    + injection H as <-. simpl. intuition congruence.
    + destruct (pk r =? pk y); [discriminate|].
      apply bind_Ok in H. destruct H as [t'' [H1 H2]]. injection H2 as <-.
      simpl. rewrite (IH _ H1). tauto.
Qed.

Lemma ascending_cons (x : Z) (l : list Z) :
  ascending (x :: l) = true <-> (forall y, In y l -> x < y) /\ ascending l = true.
Proof.
  revert x. induction l as [|y l IH]; intros x.
  - simpl. split; [intros _; split; [intros y []|reflexivity] | reflexivity].
  - change (ascending (x :: y :: l)) with ((x <? y) && ascending (y :: l)).
    rewrite andb_true_iff, Z.ltb_lt. split.
    + intros [Hxy Hasc]. split; [|exact Hasc].
      intros z [<-|Hz]; [exact Hxy|].
      apply IH in Hasc. destruct Hasc as [Hall _]. specialize (Hall z Hz). lia.
    + intros [Hall Hasc]. split; [|exact Hasc]. apply Hall. now left.
Qed.

Lemma ascending_NoDup (l : list Z) : ascending l = true -> NoDup l.
Proof.
  induction l as [|x l IH]; intros H; [constructor|].
  apply ascending_cons in H. destruct H as [Hall Hasc].
  constructor; [|now apply IH].
  intros Hin. specialize (Hall x Hin). lia.
Qed.

Lemma table_ok_unique (t : list R) : table_ok pk t -> keys_unique pk t.
Proof. apply ascending_NoDup. Qed.

Lemma table_ok_cons (x : R) (t : list R) :
  table_ok pk (x :: t) <-> (forall y, In y t -> pk x < pk y) /\ table_ok pk t.
Proof.
  unfold table_ok. simpl map. rewrite ascending_cons. split.
  - intros [Hall Hasc]. split; [|exact Hasc].
    intros y Hy. apply Hall. now apply in_map.
  - intros [Hall Hasc]. split; [|exact Hasc].
    intros k Hk. apply in_map_iff in Hk. destruct Hk as [y [<- Hy]]. now apply Hall.
Qed.

Lemma emplace_table_ok (r : R) (t t' : list R) :
  table_ok pk t -> emplace pk r t = Ok t' -> table_ok pk t'.
Proof.
  revert t'. induction t as [|y t IH]; simpl; intros t' Hok H.
  - injection H as <-. reflexivity.
  - destruct (pk r <? pk y) eqn:Elt.
    + injection H as <-. apply Z.ltb_lt in Elt.
      apply table_ok_cons. split; [|exact Hok].
      apply table_ok_cons in Hok. destruct Hok as [Hall _].
      intros z [<-|Hz]; [exact Elt|]. specialize (Hall z Hz). lia.
    + destruct (pk r =? pk y) eqn:Eeq; [discriminate|].
      apply bind_Ok in H. destruct H as [t'' [H1 H2]]. injection H2 as <-.
      apply Z.ltb_ge in Elt. apply Z.eqb_neq in Eeq.
      apply table_ok_cons in Hok. destruct Hok as [Hall Hok].
      apply table_ok_cons. split; [|now apply (IH t'')].
      intros z Hz. apply (emplace_In r t t'' H1) in Hz.
      destruct Hz as [->|Hz]; [lia | now apply Hall].
Qed.

(** On a table in key order, [emplace] refuses a key that is present. *)
Lemma emplace_duplicate (r x : R) (t : list R) :
  table_ok pk t -> In x t -> pk x = pk r -> emplace pk r t = Abort DUPLICATE_KEY.
Proof.
  induction t as [|y t IH]; simpl; intros Hok Hin Hk; [contradiction|].
  apply table_ok_cons in Hok. destruct Hok as [Hall Hok].
  destruct Hin as [->|Hin].
  - rewrite Hk, Z.ltb_irrefl, Z.eqb_refl. reflexivity.
  - specialize (Hall x Hin).
    destruct (pk r <? pk y) eqn:Elt; [apply Z.ltb_lt in Elt; lia|].
    destruct (pk r =? pk y) eqn:Eeq; [reflexivity|].
    rewrite (IH Hok Hin Hk). reflexivity.
Qed.

Lemma emplace_find_new (r : R) (t t' : list R) :
  emplace pk r t = Ok t' -> find pk (pk r) t' = Some r.
Proof.
  revert t'. induction t as [|y t IH]; simpl; intros t' H.
  - injection H as <-. simpl. now rewrite Z.eqb_refl.
  - destruct (pk r <? pk y) eqn:Elt.
    + injection H as <-. simpl. now rewrite Z.eqb_refl.
    + destruct (pk r =? pk y) eqn:Eeq; [discriminate|].
      apply bind_Ok in H. destruct H as [t'' [H1 H2]]. injection H2 as <-.
      simpl. rewrite Z.eqb_sym, Eeq. now apply IH.
Qed.

Lemma erase_key_table_ok (k : Z) (t : list R) :
  table_ok pk t -> table_ok pk (erase_key pk k t).
Proof.
  induction t as [|x t IH]; intros Hok; [reflexivity|].
  apply table_ok_cons in Hok. destruct Hok as [Hall Hok].
  unfold erase_key. simpl. destruct (negb (pk x =? k)).
  - apply table_ok_cons. split; [|now apply IH].
    intros y Hy. apply Hall. apply filter_In in Hy. tauto.
  - now apply IH.
Qed.

End MultiIndexFacts.

Section SecondaryFacts.
Variable R : Type.
Variable sk : R -> Z.

Lemma insert_sec_In (r x : R) (idx : list R) :
  In x (insert_sec sk r idx) <-> x = r \/ In x idx.
Proof.
  induction idx as [|y idx IH]; simpl.
  - intuition congruence.
  - destruct (sk r <=? sk y); simpl; [intuition congruence|].
    rewrite IH. tauto.
Qed.

Lemma insert_sec_sorted (r : R) (idx : list R) :
  sec_sorted sk idx -> sec_sorted sk (insert_sec sk r idx).
Proof.
  induction idx as [|y idx IH]; simpl; intros Hs.
  - split; [intros y []|exact I].
  - destruct Hs as [Hall Hs]. destruct (sk r <=? sk y) eqn:E; simpl.
    + apply Z.leb_le in E. split; [|split; assumption].
      intros z [<-|Hz]; [exact E|]. specialize (Hall z Hz). lia.
    + apply Z.leb_gt in E. split; [|now apply IH].
      intros z Hz. apply insert_sec_In in Hz.
      destruct Hz as [->|Hz]; [lia | now apply Hall].
Qed.

Lemma index_order_In (x : R) (t : list R) :
  In x (index_order sk t) <-> In x t.
Proof.
  induction t as [|y t IH]; simpl; [tauto|].
  rewrite insert_sec_In, IH. intuition congruence.
Qed.

Lemma index_order_sorted (t : list R) : sec_sorted sk (index_order sk t).
Proof.
  induction t as [|y t IH]; simpl; [exact I | now apply insert_sec_sorted].
Qed.

Lemma lower_bound_In (k : Z) (x : R) (idx : list R) :
  In x (lower_bound sk k idx) -> In x idx.
Proof.
  induction idx as [|y idx IH]; simpl; [tauto|].
  destruct (sk y <? k); [right; now apply IH | trivial].
Qed.

Lemma lower_bound_keeps (k : Z) (x : R) (idx : list R) :
  In x idx -> k <= sk x -> In x (lower_bound sk k idx).
Proof.
  induction idx as [|y idx IH]; simpl; [tauto|].
  intros Hin Hk. destruct (sk y <? k) eqn:E; [|exact Hin].
  apply Z.ltb_lt in E. destruct Hin as [->|Hin]; [lia | now apply IH].
Qed.

Lemma lower_bound_sorted (k : Z) (idx : list R) :
  sec_sorted sk idx -> sec_sorted sk (lower_bound sk k idx).
Proof.
  induction idx as [|y idx IH]; simpl; [trivial|].
  intros [Hall Hs]. destruct (sk y <? k); [now apply IH | now split].
Qed.

Lemma lower_bound_head (k : Z) (x : R) (idx rest : list R) :
  lower_bound sk k idx = x :: rest -> k <= sk x.
Proof.
  induction idx as [|y idx IH]; simpl; [discriminate|].
  destruct (sk y <? k) eqn:E; [exact IH|].
  intros H. injection H as -> _. now apply Z.ltb_ge in E.
Qed.

(** What [find] on a secondary index returns. *)
Lemma sec_find_In (k : Z) (x : R) (t : list R) :
  In x (sec_find sk k t) -> In x t.
Proof.
  unfold sec_find. intros H. apply index_order_In.
  apply (lower_bound_In k x).
  destruct (lower_bound sk k (index_order sk t)) as [|h rest]; [destruct H|].
  destruct (sk h =? k); [exact H | destruct H].
Qed.

Lemma sec_find_head (k : Z) (x : R) (rest t : list R) :
  sec_find sk k t = x :: rest -> sk x = k /\ In x t.
Proof.
  intros H. split.
  - unfold sec_find in H.
    destruct (lower_bound sk k (index_order sk t)) as [|h r]; [discriminate|].
    destruct (sk h =? k) eqn:E; [|discriminate].
    injection H as -> _. now apply Z.eqb_eq.
  - apply (sec_find_In k x t). rewrite H. now left.
Qed.

Lemma sec_find_ge (k : Z) (x : R) (t : list R) :
  In x (sec_find sk k t) -> k <= sk x.
Proof.
  unfold sec_find.
  pose proof (lower_bound_sorted k _ (index_order_sorted t)) as Hs.
  destruct (lower_bound sk k (index_order sk t)) as [|h rest] eqn:E; [intros []|].
  destruct (sk h =? k) eqn:Ek; [|intros []].
  apply Z.eqb_eq in Ek. destruct Hs as [Hall _].
  intros [<-|Hx]; [lia|]. specialize (Hall x Hx). lia.
Qed.

Lemma sec_find_complete (k : Z) (x : R) (t : list R) :
  In x t -> sk x = k -> In x (sec_find sk k t).
Proof.
  intros Hin Hk. unfold sec_find.
  assert (Hlb : In x (lower_bound sk k (index_order sk t))).
  { apply lower_bound_keeps; [now apply index_order_In | lia]. }
  pose proof (lower_bound_sorted k _ (index_order_sorted t)) as Hs.
  destruct (lower_bound sk k (index_order sk t)) as [|h rest] eqn:E; [destruct Hlb|].
  pose proof (lower_bound_head _ _ _ _ E) as Hh.
  destruct Hs as [Hall _].
  assert (sk h = k) as Hhk.
  { destruct Hlb as [->|Hx]; [exact Hk|]. specialize (Hall x Hx). lia. }
  apply Z.eqb_eq in Hhk. rewrite Hhk. exact Hlb.
Qed.

Lemma sec_find_end (k : Z) (t : list R) :
  sec_find sk k t = [] <-> (forall x, In x t -> sk x <> k).
Proof.
  split.
  - intros H x Hin Hk. pose proof (sec_find_complete k x t Hin Hk) as Hx.
    rewrite H in Hx. destruct Hx.
  - intros H. destruct (sec_find sk k t) as [|x rest] eqn:E; [reflexivity|].
    apply sec_find_head in E. destruct E as [Hk Hin]. now apply H in Hin.
Qed.

(** With one row per secondary key, [find] returns that row. *)
Lemma sec_find_unique (x : R) (t : list R) :
  NoDup (map sk t) -> In x t -> exists rest, sec_find sk (sk x) t = x :: rest.
Proof.
  intros Hnd Hin.
  destruct (sec_find sk (sk x) t) as [|y rest] eqn:E.
  - exfalso. apply (proj1 (sec_find_end _ _) E x Hin). reflexivity.
  - exists rest. apply sec_find_head in E. destruct E as [Hk Hy].
    f_equal. clear rest. induction t as [|z t IH]; [destruct Hin|].
    simpl in Hnd. inversion Hnd as [|? ? Hz Hnd']; subst.
    destruct Hin as [->|Hin], Hy as [->|Hy]; try reflexivity.
    + exfalso. apply Hz. rewrite <- Hk. now apply in_map.
    + exfalso. apply Hz. rewrite Hk. now apply in_map.
    + now apply IH.
Qed.
End SecondaryFacts.

(** ** The transfer notification *)

Section TransferFacts.
Variable self : name.
Variable asset_to_string : asset -> string.

Lemma In_memo_eqb (memo : string) (l : list string) :
  existsb (String.eqb memo) l = true <-> In memo l.
Proof.
  rewrite existsb_exists. split.
  - intros [x [Hx Heq]]. apply String.eqb_eq in Heq. now subst.
  - intros H. exists memo. split; [exact H | apply String.eqb_refl].
Qed.

(** The chain of comparisons of lines 191-199 is a membership test in the
    three lists of accepted notes. *)
Lemma memo_dispatch (now : Z) (from to : name) (quantity : asset)
      (memo : string) (s : state) :
  from <> self ->
  symbol quantity = ACORN_SYMBOL ->
  is_valid quantity = true ->
  MIN_TRANSFER_SHELLS <= amount quantity ->
  (String.length memo <= 256)%nat ->
  acorn_transfer self asset_to_string now from to quantity memo s =
  (if existsb (String.eqb memo) odd_memos
   then do_bet asset_to_string now from quantity 1 s
   else if existsb (String.eqb memo) even_memos
   then do_bet asset_to_string now from quantity 0 s
   else if existsb (String.eqb memo) deposit_memos
   then add_balance from quantity true s
   else Abort MEMO_REJECTED).
Proof.
  intros Hfrom Hsym Hval Hmin Hlen. unfold acorn_transfer.
  apply Z.eqb_neq in Hfrom. rewrite Hfrom, Hsym, Z.eqb_refl, Hval.
  assert ((amount quantity >=? MIN_TRANSFER_SHELLS) = true) as ->.
  { apply Z.geb_le. exact Hmin. }
  assert ((Z.of_nat (String.length memo) <=? 256) = true) as ->.
  { apply Z.leb_le. lia. }
  simpl. rewrite !orb_false_r, !orb_assoc. reflexivity.
Qed.

(** C8, as the code has it: the note is compared exactly with three
    spellings of each word.  "odd", "Odd", "ODD" and "1" place a wager on
    odd, "even", "Even", "EVEN" and "0" a wager on even, "deposit",
    "Deposit" and "DEPOSIT" credit the ledger, and every other note, other
    capitalisations included, aborts the transfer. *)
Theorem acorn_transfer_memo_exact (now : Z) (from to : name) (quantity : asset)
        (memo : string) (s : state) :
  from <> self ->
  symbol quantity = ACORN_SYMBOL ->
  is_valid quantity = true ->
  MIN_TRANSFER_SHELLS <= amount quantity ->
  (String.length memo <= 256)%nat ->
  (In memo odd_memos ->
   acorn_transfer self asset_to_string now from to quantity memo s =
   do_bet asset_to_string now from quantity 1 s) /\
  (In memo even_memos ->
   acorn_transfer self asset_to_string now from to quantity memo s =
   do_bet asset_to_string now from quantity 0 s) /\
  (In memo deposit_memos ->
   acorn_transfer self asset_to_string now from to quantity memo s =
   add_balance from quantity true s) /\
  (~ In memo (odd_memos ++ even_memos ++ deposit_memos) ->
   acorn_transfer self asset_to_string now from to quantity memo s =
   Abort MEMO_REJECTED).
Proof.
  intros Hfrom Hsym Hval Hmin Hlen.
  rewrite (memo_dispatch now from to quantity memo s Hfrom Hsym Hval Hmin Hlen).
  repeat split.
  - intros H. apply In_memo_eqb in H. now rewrite H.
  - intros H.
    assert (existsb (String.eqb memo) odd_memos = false) as ->.
    { simpl in H. destruct H as [<-|[<-|[<-|[<-|[]]]]]; reflexivity. }
    apply In_memo_eqb in H. now rewrite H.
  - intros H.
    assert (existsb (String.eqb memo) odd_memos = false) as ->.
    { simpl in H. destruct H as [<-|[<-|[<-|[]]]]; reflexivity. }
    assert (existsb (String.eqb memo) even_memos = false) as ->.
    { simpl in H. destruct H as [<-|[<-|[<-|[]]]]; reflexivity. }
    apply In_memo_eqb in H. now rewrite H.
  - intros H.
    destruct (existsb (String.eqb memo) odd_memos) eqn:E1.
    { exfalso. apply H. apply In_memo_eqb in E1. apply in_or_app. now left. }
    destruct (existsb (String.eqb memo) even_memos) eqn:E2.
    { exfalso. apply H. apply In_memo_eqb in E2.
      apply in_or_app. right. apply in_or_app. now left. }
    destruct (existsb (String.eqb memo) deposit_memos) eqn:E3.
    { exfalso. apply H. apply In_memo_eqb in E3.
      apply in_or_app. right. apply in_or_app. now right. }
    reflexivity.
Qed.
End TransferFacts.

(** The theorem above at Bob's wager of 0.5 ACORN against Alice's offer. *)
Lemma acorn_transfer_memo_exact_witness :
  (In "Odd" odd_memos ->
   acorn_transfer Ex.SELF Ex.show 20 Ex.BOB Ex.SELF (Ex.acorns 5000) "Odd" Ex.offer_open =
   do_bet Ex.show 20 Ex.BOB (Ex.acorns 5000) 1 Ex.offer_open) /\
  (~ In "oDD" (odd_memos ++ even_memos ++ deposit_memos) ->
   acorn_transfer Ex.SELF Ex.show 20 Ex.BOB Ex.SELF (Ex.acorns 5000) "oDD" Ex.offer_open =
   Abort MEMO_REJECTED).
Proof.
  assert (Hfrom : Ex.BOB <> Ex.SELF) by (vm_compute; discriminate).
  assert (Hsym : symbol (Ex.acorns 5000) = ACORN_SYMBOL) by reflexivity.
  assert (Hval : is_valid (Ex.acorns 5000) = true) by reflexivity.
  assert (Hmin : MIN_TRANSFER_SHELLS <= amount (Ex.acorns 5000)) by (vm_compute; discriminate).
  split.
  - assert (Hlen : (String.length "Odd" <= 256)%nat) by (simpl; lia).
    exact (proj1 (acorn_transfer_memo_exact Ex.SELF Ex.show 20 Ex.BOB Ex.SELF
                    (Ex.acorns 5000) "Odd" Ex.offer_open Hfrom Hsym Hval Hmin Hlen)).
  - assert (Hlen : (String.length "oDD" <= 256)%nat) by (simpl; lia).
    exact (proj2 (proj2 (proj2 (acorn_transfer_memo_exact Ex.SELF Ex.show 20 Ex.BOB Ex.SELF
                    (Ex.acorns 5000) "oDD" Ex.offer_open Hfrom Hsym Hval Hmin Hlen)))).
Defined.

(** C8 as stated fails: "oDD" is a capitalisation of "odd", and a transfer
    carrying it is refused where the same transfer with "odd" is matched. *)
Lemma mixed_case_memo_rejected :
  lower "oDD" = "odd" /\
  acorn_transfer Ex.SELF Ex.show 20 Ex.BOB Ex.SELF (Ex.acorns 5000) "oDD" Ex.offer_open =
    Abort MEMO_REJECTED /\
  exists s', acorn_transfer Ex.SELF Ex.show 20 Ex.BOB Ex.SELF (Ex.acorns 5000) "odd"
               Ex.offer_open = Ok s'.
Proof.
  split; [reflexivity|]. split; [reflexivity|].
  eexists. vm_compute. reflexivity.
Qed.

(** ** The ledger *)

Lemma asset_add_Ok (a b r : asset) :
  asset_add a b = Ok r ->
  symbol b = symbol a /\ r = mk_asset (amount a + amount b) (symbol a) /\
  - max_amount <= amount a + amount b <= max_amount.
Proof.
  unfold asset_add. intros H. inv_ok H. subst r.
  apply Z.eqb_eq in Hstep. apply Z.leb_le in Hstep0, Hstep1. repeat split; auto.
Qed.

Lemma asset_sub_Ok (a b r : asset) :
  asset_sub a b = Ok r ->
  symbol b = symbol a /\ r = mk_asset (amount a - amount b) (symbol a) /\
  - max_amount <= amount a - amount b <= max_amount.
Proof.
  unfold asset_sub. intros H. inv_ok H. subst r.
  apply Z.eqb_eq in Hstep. apply Z.leb_le in Hstep0, Hstep1. repeat split; auto.
Qed.

Lemma asset_mul_Ok (a r : asset) (n : Z) :
  asset_mul a n = Ok r ->
  r = mk_asset (amount a * n) (symbol a) /\
  - max_amount <= amount a * n <= max_amount.
Proof.
  unfold asset_mul. intros H. inv_ok H. subst r.
  apply Z.leb_le in Hstep, Hstep0. repeat split; auto.
Qed.

Lemma asset_mul_in_range (a : asset) (n : Z) :
  - max_amount <= amount a * n <= max_amount ->
  asset_mul a n = Ok (mk_asset (amount a * n) (symbol a)).
Proof.
  intros [Hlo Hhi]. unfold asset_mul.
  apply Z.leb_le in Hlo. apply Z.leb_le in Hhi. rewrite Hlo, Hhi. reflexivity.
Qed.

Lemma asset_sub_in_range (a b : asset) :
  symbol b = symbol a ->
  - max_amount <= amount a - amount b <= max_amount ->
  asset_sub a b = Ok (mk_asset (amount a - amount b) (symbol a)).
Proof.
  intros Hs [Hlo Hhi]. unfold asset_sub.
  apply Z.leb_le in Hlo. apply Z.leb_le in Hhi.
  rewrite Hs, Z.eqb_refl, Hlo, Hhi. reflexivity.
Qed.

Lemma asset_div_ratio (a : asset) :
  asset_div a MAX_BET_TO_BANKROLL_RATIO =
  Ok (mk_asset (Z.quot (amount a) 100) (symbol a)).
Proof. reflexivity. Qed.

Lemma asset_lt_Ok (a b : asset) (c : bool) :
  asset_lt a b = Ok c -> symbol a = symbol b /\ c = (amount a <? amount b).
Proof.
  unfold asset_lt. intros H. inv_ok H. apply Z.eqb_eq in Hstep. now split.
Qed.

Lemma asset_ge_Ok (a b : asset) (c : bool) :
  asset_ge a b = Ok c -> symbol a = symbol b /\ c = (amount b <=? amount a).
Proof.
  unfold asset_ge. intros H. inv_ok H. apply asset_lt_Ok in Hstep.
  destruct Hstep as [Hs ->]. split; [exact Hs|]. subst c.
  rewrite Z.leb_antisym. reflexivity.
Qed.

Lemma ledger_inv_cases (t : list account) :
  ledger_inv t ->
  t = [] \/ exists a, t = [a] /\ symbol (balance a) = ACORN_SYMBOL /\ 0 < amount (balance a).
Proof.
  intros [Hlen Hall]. destruct t as [|a [|b t]]; simpl in Hlen; [now left | | lia].
  right. exists a. split; [reflexivity|]. apply Hall. now left.
Qed.

Lemma ledger_inv_single (a : account) :
  symbol (balance a) = ACORN_SYMBOL -> 0 < amount (balance a) -> ledger_inv [a].
Proof.
  intros Hs Hp. split; [simpl; lia|]. intros b [<-|[]]. now split.
Qed.

Lemma ledger_inv_nil : ledger_inv [].
Proof. split; [simpl; lia | intros a []]. Qed.

Lemma ledger_inv_table_ok (t : list account) : ledger_inv t -> table_ok account_pk t.
Proof.
  intros H. destruct (ledger_inv_cases _ H) as [->|[a [-> _]]]; reflexivity.
Qed.

Lemma ledger_inv_one_row (s : state) : ledger_inv (accounts s) -> one_row_per_owner s.
Proof.
  unfold one_row_per_owner. intros H.
  destruct (ledger_inv_cases _ H) as [->|[a [-> _]]]; simpl.
  - constructor.
  - constructor; [intros [] | constructor].
Qed.

(** [find] on the by-owner index of a ledger of one row. *)
Lemma sec_find_single (a : account) (who : name) :
  sec_find get_owner who [a] = if owner a =? who then [a] else [].
Proof.
  unfold sec_find. simpl. unfold get_owner.
  destruct (owner a <? who) eqn:E1; destruct (owner a =? who) eqn:E2; try reflexivity.
  apply Z.ltb_lt in E1. apply Z.eqb_eq in E2. lia.
Qed.

Lemma add_balance_inv (who : name) (value : asset) (enforce_min : bool) (s s' : state) :
  ledger_inv (accounts s) ->
  symbol value = ACORN_SYMBOL -> 0 < amount value ->
  add_balance who value enforce_min s = Ok s' ->
  ledger_inv (accounts s') /\
  games s' = games s /\ matches s' = matches s /\ sent s' = sent s.
Proof.
  intros Hinv Hsym Hpos H. unfold add_balance in H.
  destruct (ledger_inv_cases _ Hinv) as [E|[a [E [Ha Hpa]]]]; rewrite E in H.
  - simpl in H. inv_ok H. subst s'. simpl. split; [|auto].
    now apply ledger_inv_single.
  - rewrite sec_find_single in H. destruct (owner a =? who) eqn:Eo.
    + inv_ok H. subst s'. simpl. split; [|auto].
      apply asset_add_Ok in Hstep. destruct Hstep as [_ [-> _]].
      unfold modify in Hstep0. inv_ok Hstep0. subst. simpl.
      rewrite Z.eqb_refl. apply ledger_inv_single; simpl; [exact Ha | lia].
    + inv_ok H. simpl in Hstep0. unfold account_pk in Hstep0. simpl in Hstep0.
      rewrite Hsym, Ha, Z.ltb_irrefl, Z.eqb_refl in Hstep0. discriminate.
Qed.

(** What the cascade of [sub_balance] leaves behind: the rows whose key is
    not the key of an offer the walk went over. *)
Lemma cancel_offers_Ok (git : list game) (mts mts' : list match_) (gms gms' : list game) :
  cancel_offers git mts gms = Ok (mts', gms') ->
  (forall m, In m mts' <-> In m mts /\ forall g, In g git -> match_pk m <> game_pk g) /\
  (forall g', In g' gms' <-> In g' gms /\ forall g, In g git -> game_pk g' <> game_pk g).
Proof.
  revert mts gms. induction git as [|g git IH]; simpl; intros mts gms H.
  - injection H as <- <-. split; intros x; split; try tauto; intros Hx; split; auto.
  - apply bind_Ok in H. destruct H as [mts1 [H1 H2]].
    unfold erase in H1. destruct (find match_pk (game_pk g) mts) as [em|] eqn:Ef; [|discriminate].
    injection H1 as <-. apply find_In in Ef. destruct Ef as [_ Hk].
    destruct (IH _ _ H2) as [Hm Hg]. split.
    + intros m. rewrite Hm, erase_key_In, Hk. split.
      * intros [[Hin Hne] Hall]. split; [exact Hin|].
        intros g0 [<-|Hg0]; [exact Hne | now apply Hall].
      * intros [Hin Hall]. split; [split; [exact Hin | apply Hall; now left]|].
        intros g0 Hg0. apply Hall. now right.
    + intros g'. rewrite Hg, erase_key_In. split.
      * intros [[Hin Hne] Hall]. split; [exact Hin|].
        intros g0 [<-|Hg0]; [exact Hne | now apply Hall].
      * intros [Hin Hall]. split; [split; [exact Hin | apply Hall; now left]|].
        intros g0 Hg0. apply Hall. now right.
Qed.

Lemma sub_balance_inv (who : name) (value : asset) (enforce_min : bool) (s s' : state) :
  ledger_inv (accounts s) ->
  sub_balance who value enforce_min s = Ok s' ->
  ledger_inv (accounts s') /\ sent s' = sent s /\
  (forall m, In m (matches s') -> In m (matches s)) /\
  (forall g, In g (games s') -> In g (games s)).
Proof.
  intros Hinv H. unfold sub_balance in H.
  destruct (ledger_inv_cases _ Hinv) as [E|[a [E [Ha Hpa]]]]; rewrite E in H.
  - simpl in H. discriminate.
  - rewrite sec_find_single in H. destruct (owner a =? who); [|discriminate].
    apply bind_Ok in H. destruct H as [u [Hc H]]. apply check_Ok in Hc.
    apply bind_Ok in H. destruct H as [res [Hsub H]].
    apply asset_sub_Ok in Hsub. destruct Hsub as [_ [-> _]]. simpl in H.
    apply Z.geb_le in Hc.
    destruct (amount (balance a) - amount value =? 0) eqn:Ez.
    + apply bind_Ok in H. destruct H as [[mts' gms'] [Hco H]].
      injection H as <-. simpl.
      apply cancel_offers_Ok in Hco. destruct Hco as [Hm Hg].
      unfold erase_key. simpl. rewrite Z.eqb_refl. simpl.
      split; [apply ledger_inv_nil|]. split; [reflexivity|].
      split; [intros m Hin; now apply Hm in Hin | intros g Hin; now apply Hg in Hin].
    + apply Z.eqb_neq in Ez. inv_ok H. subst s'. simpl.
      unfold modify in Hstep0. inv_ok Hstep0. subst. simpl.
      rewrite Z.eqb_refl. split; [|auto].
      apply ledger_inv_single; simpl; [exact Ha | lia].
Qed.

(** ** Every action keeps the invariants *)

Lemma wagers_inv_incl (t t' : list match_) :
  (forall m, In m t' -> In m t) -> wagers_inv t -> wagers_inv t'.
Proof. intros Hsub Hw m Hin. apply Hw. now apply Hsub. Qed.

Lemma erase_key_incl {R : Type} (pk : R -> Z) (k : Z) (t : list R) :
  forall r, In r (erase_key pk k t) -> In r t.
Proof. intros r Hr. now apply erase_key_In in Hr. Qed.

Lemma offers_inv_incl (gms gms' : list game) (mts mts' : list match_) :
  (forall g, In g gms' -> In g gms) -> (forall m, In m mts' -> In m mts) ->
  offers_inv gms mts -> offers_inv gms' mts'.
Proof. intros Hg Hm Ho g m Hgin Hmin. apply Ho; [now apply Hg | now apply Hm]. Qed.

Section Invariants.
Variable self : name.
Variable sha256 : list byte -> checksum256.
Variable asset_to_string : asset -> string.

Lemma withdraw_inv (auth : list name) (to : name) (quantity : asset) (s s' : state) :
  state_inv s -> withdraw self auth to quantity s = Ok s' -> state_inv s'.
Proof.
  intros [Hl [Hw Ho]] H. unfold withdraw in H. inv_ok H. subst s'.
  destruct (sub_balance_inv _ _ _ _ _ Hl Hstep3) as [Hl' [_ [Hm Hg]]].
  split; [|split]; simpl; [exact Hl' | now apply (wagers_inv_incl _ _ Hm) |].
  now apply (offers_inv_incl _ _ _ _ Hg Hm).
Qed.

Lemma commit_inv (auth : list name) (now : Z) (host : name)
      (commitment : checksum256) (s s' : state) :
  state_inv s -> commit auth now host commitment s = Ok s' -> state_inv s'.
Proof.
  intros [Hl [Hw Ho]] H. unfold commit in H. inv_ok H. subst s'.
  split; [|split]; simpl; [exact Hl| |].
  - intros m Hin Hg. apply (emplace_In _ _ _ _ _ Hstep4) in Hin.
    destruct Hin as [->|Hin]; [now elim Hg | now apply Hw].
  - intros g m Hg Hm Hk.
    apply (emplace_In _ _ _ _ _ Hstep4) in Hm. apply (emplace_In _ _ _ _ _ Hstep3) in Hg.
    destruct Hm as [->|Hm]; [reflexivity|].
    destruct Hg as [->|Hg]; [|now apply (Ho g m)].
    exfalso. apply negb_true_iff in Hstep2.
    destruct (find match_pk (get_hash_prefix commitment) (matches s)) eqn:Ef;
      [discriminate|].
    exact (proj1 (find_None _ _ _ _) Ef m Hm Hk).
Qed.

Lemma cancelcommit_inv (auth : list name) (host : name)
      (commitment : checksum256) (s s' : state) :
  state_inv s -> cancelcommit auth host commitment s = Ok s' -> state_inv s'.
Proof.
  intros [Hl [Hw Ho]] H. unfold cancelcommit in H. inv_ok H.
  destruct (find match_pk (get_hash_prefix commitment) (matches s)); [|discriminate].
  inv_ok H. subst s'. split; [|split]; simpl; [exact Hl| |].
  - apply (wagers_inv_incl _ _ (erase_key_incl _ _ _) Hw).
  - unfold erase in Hstep1.
    destruct (find game_pk (get_hash_prefix commitment) (games s)); [|discriminate].
    injection Hstep1 as <-.
    apply (offers_inv_incl _ _ _ _ (erase_key_incl _ _ _) (erase_key_incl _ _ _) Ho).
Qed.

Lemma reveal_inv (commitment source : checksum256) (s s' : state) :
  state_inv s -> reveal self sha256 commitment source s = Ok s' -> state_inv s'.
Proof.
  intros [Hl [Hw Ho]] H. unfold reveal in H. inv_ok H.
  destruct (find match_pk (get_hash_prefix commitment) (matches s)) as [em|] eqn:Ef;
    [|discriminate].
  apply find_In in Ef. destruct Ef as [Hin _].
  apply bind_Ok in H. destruct H as [s1 [H1 H2]]. injection H2 as <-.
  assert (ledger_inv (accounts s1) /\
          (forall m, In m (matches s1) -> In m (matches s)) /\
          (forall g, In g (games s1) -> In g (games s)))
    as [Hl1 [Hm1 Hg1]].
  { destruct (m_guess em =? NULL_GUESS) eqn:Eg; simpl in H1.
    - inv_ok H1. subst s1. simpl. split; [exact Hl|]. split; [auto|].
      unfold erase in Hstep0.
      destruct (find game_pk (get_hash_prefix commitment) (games s)); [|discriminate].
      injection Hstep0 as <-. apply erase_key_incl.
    - apply Z.eqb_neq in Eg. destruct (Hw em Hin Eg) as [Hsym Hmin].
      apply bind_Ok in H1. destruct H1 as [doubled [Hd H1]].
      apply bind_Ok in H1. destruct H1 as [win [Hwq H1]].
      apply asset_mul_Ok in Hd. destruct Hd as [-> _].
      apply asset_sub_Ok in Hwq. destruct Hwq as [_ [-> _]]. simpl in H1.
      unfold MIN_TRANSFER_SHELLS in Hmin.
      destruct (Z.land (byte_at 31 source) 1 =? m_guess em).
      + apply add_balance_inv in H1; simpl; auto; [|reflexivity].
        destruct H1 as [Hl1 [Hg [Hm _]]]. split; [exact Hl1|].
        rewrite Hm, Hg. simpl. auto.
      + apply add_balance_inv in H1; simpl; auto; [|lia].
        destruct H1 as [Hl1 [Hg [Hm _]]]. split; [exact Hl1|].
        rewrite Hm, Hg. simpl. auto. }
  assert (Hm2 : forall m, In m (erase_key match_pk (match_pk em) (matches s1)) ->
                          In m (matches s)).
  { intros m Hm. apply erase_key_incl in Hm. now apply Hm1. }
  split; [|split]; simpl; [exact Hl1| |].
  - exact (wagers_inv_incl _ _ Hm2 Hw).
  - exact (offers_inv_incl _ _ _ _ Hg1 Hm2 Ho).
Qed.

Lemma collect_loop_frame (now : Z) (player : name) (it : list match_) (s s' : state) :
  collect_loop self now player it s = Ok s' ->
  accounts s' = accounts s /\ games s' = games s /\
  forall m, In m (matches s') -> In m (matches s).
Proof.
  revert s. induction it as [|em it IH]; simpl; intros s H.
  - injection H as <-. auto.
  - destruct (now >? m_deadline em).
    + apply bind_Ok in H. destruct H as [q [_ H]].
      destruct (IH _ H) as [Ha [Hg Hm]]. simpl in *.
      repeat split; auto. intros m Hin. apply Hm in Hin.
      now apply erase_key_incl in Hin.
    + now apply IH.
Qed.

Lemma collect_inv (now : Z) (player : name) (s s' : state) :
  state_inv s -> collect self now player s = Ok s' -> state_inv s'.
Proof.
  intros [Hl [Hw Ho]] H. apply collect_loop_frame in H. destruct H as [Ha [Hg Hm]].
  split; [|split]; [now rewrite Ha | now apply (wagers_inv_incl _ _ Hm) |].
  rewrite Hg. exact (offers_inv_incl _ _ _ _ (fun g H => H) Hm Ho).
Qed.

Lemma do_bet_scan_inv (now : Z) (player : name) (quantity : asset) (guess : Z)
      (ait : list account) (max_bankroll : asset) (s s' : state) :
  state_inv s ->
  symbol quantity = ACORN_SYMBOL -> MIN_TRANSFER_SHELLS <= amount quantity ->
  do_bet_scan now player quantity guess ait max_bankroll s = Ok (inl s') ->
  state_inv s'.
Proof.
  intros [Hl [Hw Ho]] Hsym Hmin. revert max_bankroll.
  induction ait as [|acct ait IH]; simpl; intros max_bankroll H; [discriminate|].
  apply bind_Ok in H. destruct H as [covers [_ H]].
  destruct covers.
  - destruct (sec_find get_host (owner acct) (games s)) as [|eg rest]; [now apply IH in H|].
    apply bind_Ok in H. destruct H as [s1 [Hsub H]].
    apply bind_Ok in H. destruct H as [mts [Hmod H]]. injection H as <-.
    destruct (sub_balance_inv _ _ _ _ _ Hl Hsub) as [Hl1 [_ [Hm1 Hg1]]].
    unfold modify in Hmod.
    destruct (find match_pk (get_hash_prefix (g_commitment eg)) (matches s1)) as [em|] eqn:Ef;
      [|discriminate].
    apply find_In in Ef. destruct Ef as [_ Hk].
    inv_ok Hmod. subst mts.
    split; [|split]; simpl; [exact Hl1| |].
    + intros m Hin Hg.
      apply in_map_iff in Hin. destruct Hin as [x [Hx Hin]].
      destruct (match_pk x =? match_pk em).
      * subst m. simpl. now split.
      * subst m. apply Hw; [now apply Hm1 | exact Hg].
    + intros g m Hg Hin Hkm.
      apply erase_key_In in Hg. destruct Hg as [Hg Hne].
      apply in_map_iff in Hin. destruct Hin as [x [Hx Hin]].
      destruct (match_pk x =? match_pk em) eqn:Ex.
      * exfalso. subst m. apply Hne. rewrite <- Hkm.
        unfold game_pk. rewrite <- Hk. reflexivity.
      * subst m. apply (Ho g x); [now apply Hg1 | now apply Hm1 | exact Hkm].
  - apply bind_Ok in H. destruct H as [larger [_ H]].
    destruct larger; now apply IH in H.
Qed.

Lemma acorn_transfer_inv (now : Z) (from to : name) (quantity : asset)
      (memo : string) (s s' : state) :
  state_inv s ->
  acorn_transfer self asset_to_string now from to quantity memo s = Ok s' ->
  state_inv s'.
Proof.
  intros Hinv H. unfold acorn_transfer in H.
  destruct (from =? self); [now injection H as <-|].
  inv_ok H. apply Z.eqb_eq in Hstep. apply Z.geb_le in Hstep1.
  assert (Hbet : forall g, do_bet asset_to_string now from quantity g s = Ok s' ->
                           state_inv s').
  { intros g Hb. unfold do_bet in Hb. apply bind_Ok in Hb.
    destruct Hb as [[s1|mb] [Hscan Hb]].
    - injection Hb as <-. exact (do_bet_scan_inv _ _ _ _ _ _ _ _ Hinv Hstep Hstep1 Hscan).
    - apply bind_Ok in Hb. destruct Hb as [mx [_ Hb]].
      destruct (amount mx <? MIN_TRANSFER_SHELLS); discriminate. }
  destruct (_ || _)%bool; [now apply (Hbet 1)|].
  destruct (_ || _)%bool; [now apply (Hbet 0)|].
  destruct (_ || _)%bool; [|discriminate].
  destruct Hinv as [Hl [Hw Ho]]. unfold MIN_TRANSFER_SHELLS in Hstep1.
  match goal with
  | Hadd : add_balance _ _ _ _ = Ok _ |- _ =>
      apply add_balance_inv in Hadd; auto; [|lia];
      destruct Hadd as [Hl' [Hg [Hm _]]]
  end.
  split; [|split]; [exact Hl' | now rewrite Hm | now rewrite Hg, Hm].
Qed.

Lemma apply_inv (auth : list name) (now : Z) (a : action) (s s' : state) :
  state_inv s ->
  apply self sha256 asset_to_string auth now a s = Ok s' -> state_inv s'.
Proof.
  intros Hinv H. destruct a; simpl in H.
  - exact (withdraw_inv _ _ _ _ _ Hinv H).
  - exact (commit_inv _ _ _ _ _ _ Hinv H).
  - exact (cancelcommit_inv _ _ _ _ _ Hinv H).
  - exact (reveal_inv _ _ _ _ Hinv H).
  - exact (collect_inv _ _ _ _ Hinv H).
  - exact (acorn_transfer_inv _ _ _ _ _ _ _ Hinv H).
Qed.

Lemma reachable_at_inv (clock : Z) (s : state) :
  reachable_at self sha256 asset_to_string clock s -> state_inv s.
Proof.
  induction 1 as [|clock now auth a s s' _ IH _ Happ].
  - split; [apply ledger_inv_nil | split; [intros m [] | intros g m []]].
  - exact (apply_inv _ _ _ _ _ IH Happ).
Qed.

Lemma reachable_inv (s : state) :
  reachable self sha256 asset_to_string s -> state_inv s.
Proof. intros [clock H]. exact (reachable_at_inv _ _ H). Qed.
End Invariants.

(** ** Runs *)

Section Runs.
Variable self : name.
Variable sha256 : list byte -> checksum256.
Variable asset_to_string : asset -> string.

Lemma run_reachable (trace : list (list name * Z * action)) (clock : Z) (s s' : state) :
  reachable_at self sha256 asset_to_string clock s ->
  run self sha256 asset_to_string clock trace s = Ok s' ->
  reachable self sha256 asset_to_string s'.
Proof.
  revert clock s. induction trace as [|[[auth now] a] trace IH]; simpl; intros clock s Hr H.
  - injection H as <-. now exists clock.
  - apply bind_Ok in H. destruct H as [u [Hc H]]. apply check_Ok in Hc.
    apply andb_true_iff in Hc. destruct Hc as [Hc1 Hc2].
    apply Z.leb_le in Hc1. apply Z.ltb_lt in Hc2.
    apply bind_Ok in H. destruct H as [s1 [Happ H]].
    apply (IH now s1); [|exact H].
    apply (@reach_step self sha256 asset_to_string clock now auth a s s1 Hr);
      [split; assumption | exact Happ].
Qed.

Lemma run_from_init (trace : list (list name * Z * action)) (s' : state) :
  run self sha256 asset_to_string 0 trace init_state = Ok s' ->
  reachable self sha256 asset_to_string s'.
Proof. apply run_reachable. constructor. Qed.
End Runs.

Lemma offer_open_reachable : reachable Ex.SELF Ex.digest Ex.show Ex.offer_open.
Proof. apply (run_from_init _ _ _ Ex.trace_offer). reflexivity. Qed.

Lemma funded_reachable : reachable Ex.SELF Ex.digest Ex.show Ex.funded.
Proof. apply (run_from_init _ _ _ Ex.trace_funded). reflexivity. Qed.

(** ** One ledger row for the whole contract *)

Section LedgerKey.
Variable self : name.
Variable sha256 : list byte -> checksum256.
Variable asset_to_string : asset -> string.

(** With a row of another owner in the ledger, [add_balance] for an owner
    without a row stops in [emplace]. *)
Lemma add_balance_second_owner (s : state) (a : account) (other : name)
      (value : asset) (enforce_min : bool) :
  ledger_inv (accounts s) -> In a (accounts s) -> other <> owner a ->
  symbol value = ACORN_SYMBOL ->
  add_balance other value enforce_min s =
  if enforce_min && (amount value <? amount MIN_BALANCE)
  then Abort "deposit does not meet minimum balance requirement"
  else Abort DUPLICATE_KEY.
Proof.
  intros Hinv Hin Hother Hsym. unfold add_balance.
  destruct (ledger_inv_cases _ Hinv) as [E|[b [E [Hb _]]]]; rewrite E in *;
    [destruct Hin|].
  destruct Hin as [->|[]]. rewrite sec_find_single.
  assert ((owner a =? other) = false) as -> by (apply Z.eqb_neq; congruence).
  assert (emplace account_pk (mk_account other value) [a] = Abort DUPLICATE_KEY) as ->.
  { simpl. unfold account_pk. simpl. rewrite Hsym, Hb, Z.ltb_irrefl, Z.eqb_refl.
    reflexivity. }
  destruct enforce_min; simpl; [|reflexivity].
  unfold asset_ge, asset_lt. simpl. rewrite Hsym, Z.eqb_refl. simpl.
  destruct (amount value <? 500000); reflexivity.
Qed.

(** C9: in every reachable state each ledger row is keyed by the code of
    the ACORN symbol, whoever owns it, so the ledger has at most one row;
    and once it has one, a deposit from any other account never goes
    through: it aborts on the duplicate key as soon as it is large enough
    to open an account. *)
Theorem ledger_keyed_by_symbol (s : state) :
  reachable self sha256 asset_to_string s ->
  (forall a, In a (accounts s) -> account_pk a = symbol_code_raw ACORN_SYMBOL) /\
  (List.length (accounts s) <= 1)%nat /\
  (forall a now other to quantity memo,
      In a (accounts s) -> other <> owner a -> other <> self ->
      In memo deposit_memos ->
      (forall s', acorn_transfer self asset_to_string now other to quantity
                                 memo s <> Ok s') /\
      (symbol quantity = ACORN_SYMBOL -> is_valid quantity = true ->
       amount MIN_BALANCE <= amount quantity ->
       acorn_transfer self asset_to_string now other to quantity memo s =
       Abort DUPLICATE_KEY)).
Proof.
  intros Hr. apply reachable_inv in Hr. destruct Hr as [Hl _].
  split; [|split].
  - intros a Hin. destruct Hl as [_ Hall]. destruct (Hall a Hin) as [Hs _].
    unfold account_pk. now rewrite Hs.
  - exact (proj1 Hl).
  - intros a now other to quantity memo Hin Hother Hself Hmemo.
    apply Z.eqb_neq in Hself. split.
    + intros s' H. unfold acorn_transfer in H. rewrite Hself in H.
      inv_ok H. apply Z.eqb_eq in Hstep.
      destruct Hmemo as [<-|[<-|[<-|[]]]]; simpl in H;
        rewrite (add_balance_second_owner s a other quantity true Hl Hin Hother Hstep)
          in H;
        destruct (true && _)%bool; discriminate.
    + intros Hsym Hval Hmin. unfold acorn_transfer.
      rewrite Hself, Hsym, Z.eqb_refl, Hval. simpl in Hmin.
      assert ((amount quantity >=? MIN_TRANSFER_SHELLS) = true) as ->.
      { apply Z.geb_le. unfold MIN_TRANSFER_SHELLS. lia. }
      assert ((amount quantity <? amount MIN_BALANCE) = false) as Hlt.
      { apply Z.ltb_ge. simpl. lia. }
      destruct Hmemo as [<-|[<-|[<-|[]]]]; simpl;
        rewrite (add_balance_second_owner s a other quantity true Hl Hin Hother Hsym);
        rewrite Hlt; reflexivity.
Qed.
End LedgerKey.

(** The theorem above once Alice has deposited: Bob's deposit of 100 ACORN
    is refused. *)
Lemma ledger_keyed_by_symbol_witness :
  reachable Ex.SELF Ex.digest Ex.show Ex.funded /\
  (List.length (accounts Ex.funded) <= 1)%nat /\
  acorn_transfer Ex.SELF Ex.show 11 Ex.BOB Ex.SELF (Ex.acorns 1000000) "deposit" Ex.funded =
  Abort DUPLICATE_KEY.
Proof.
  split; [exact funded_reachable|].
  destruct (ledger_keyed_by_symbol Ex.SELF Ex.digest Ex.show Ex.funded funded_reachable)
    as [_ [Hlen Hdep]].
  split; [exact Hlen|].
  refine (proj2 (Hdep (mk_account Ex.ALICE (Ex.acorns 1000000)) 11 Ex.BOB Ex.SELF
                      (Ex.acorns 1000000) "deposit" _ _ _ _) _ _ _).
  - left. reflexivity.
  - vm_compute. discriminate.
  - vm_compute. discriminate.
  - left. reflexivity.
  - reflexivity.
  - reflexivity.
  - vm_compute. discriminate.
Defined.

(** ** The timeout sweep *)

Section CollectFacts.
Variable self : name.

Lemma collect_loop_Ok (now : Z) (player : name) (it : list match_) (s s' : state) :
  collect_loop self now player it s = Ok s' ->
  (forall m, In m (matches s') <->
             In m (matches s) /\
             forall e, In e it -> m_deadline e < now -> match_pk m <> match_pk e) /\
  sent s' = (sent s ++ map (timeout_payment self player)
                           (filter (fun e => now >? m_deadline e) it))%list.
Proof.
  revert s. induction it as [|em it IH]; simpl; intros s H.
  - injection H as <-. rewrite app_nil_r. split; [|reflexivity].
    intros m. split; [intros Hm; split; [exact Hm | intros e []] | tauto].
  - destruct (now >? m_deadline em) eqn:Ed.
    + apply Z.gtb_lt in Ed.
      apply bind_Ok in H. destruct H as [q [Hq H]].
      apply asset_mul_Ok in Hq. destruct Hq as [-> _].
      destruct (IH _ H) as [Hm Hs]. simpl in Hm, Hs. split.
      * intros m. rewrite Hm, erase_key_In. split.
        -- intros [[Hin Hne] Hall]. split; [exact Hin|].
           intros e [<-|He] Hexp; [exact Hne | now apply Hall].
        -- intros [Hin Hall]. split; [split; [exact Hin | apply Hall; [now left | exact Ed]]|].
           intros e He. apply Hall. now right.
      * rewrite Hs. simpl. rewrite <- app_assoc. reflexivity.
    + destruct (IH _ H) as [Hm Hs]. split; [|exact Hs].
      assert (~ m_deadline em < now) as Hn.
      { intros Hlt. apply Z.gtb_lt in Hlt. congruence. }
      intros m. rewrite Hm. split.
      * intros [Hin Hall]. split; [exact Hin|].
        intros e [<-|He] Hexp; [contradiction | now apply Hall].
      * intros [Hin Hall]. split; [exact Hin|]. intros e He. apply Hall. now right.
Qed.

Lemma collect_loop_total (now : Z) (player : name) (it : list match_) (s : state) :
  (forall e, In e it -> - max_amount <= amount (m_bet e) * 2 <= max_amount) ->
  exists s', collect_loop self now player it s = Ok s'.
Proof.
  revert s. induction it as [|em it IH]; intros s Hr; simpl.
  - now exists s.
  - destruct (now >? m_deadline em).
    + rewrite (asset_mul_in_range _ _ (Hr em (or_introl eq_refl))). simpl.
      apply IH. intros e He. apply Hr. now right.
    + apply IH. intros e He. apply Hr. now right.
Qed.

End CollectFacts.


Lemma swept_reachable : reachable Ex.SELF Ex.digest Ex.show Ex.swept.
Proof. apply (run_from_init _ _ _ Ex.trace_swept). reflexivity. Qed.

(** C2 at a failing run: Alice deposits and commits, and one second later
    anybody calls [collect] for the empty name.  The placeholder Bet is
    gone, its Offer is still there: the state is reachable and the Offers
    are no longer the Bets whose guess is unset. *)
Theorem duality_broken_by_collect :
  reachable Ex.SELF Ex.digest Ex.show Ex.offer_open /\
  duality Ex.offer_open /\
  collect Ex.SELF 11 NULL_NAME Ex.offer_open = Ok Ex.swept /\
  reachable Ex.SELF Ex.digest Ex.show Ex.swept /\
  games Ex.swept = [mk_game Ex.commitment1 Ex.ALICE] /\
  matches Ex.swept = [] /\
  ~ duality Ex.swept.
Proof.
  split; [exact offer_open_reachable|]. split.
  { intros k. split.
    - intros [g [[<-|[]] Hk]].
      exists (mk_match Ex.commitment1 Ex.ALICE NULL_GUESS NULL_NAME ZERO_ACORNS 10).
      split; [left; reflexivity|]. split; [exact Hk | reflexivity].
    - intros [m [[<-|[]] [Hk _]]].
      exists (mk_game Ex.commitment1 Ex.ALICE). split; [left; reflexivity | exact Hk]. }
  split; [reflexivity|]. split; [exact swept_reachable|].
  split; [reflexivity|]. split; [reflexivity|].
  intros Hd.
  destruct (proj1 (Hd (get_hash_prefix Ex.commitment1))) as [m [[] _]].
  exists (mk_game Ex.commitment1 Ex.ALICE). split; [left|]; reflexivity.
Qed.

(** ** Cancelling a commitment *)

(** What a successful [cancelcommit] has checked and done. *)
Lemma cancelcommit_Ok (auth : list name) (host : name) (commitment : checksum256)
      (s s' : state) :
  cancelcommit auth host commitment s = Ok s' ->
  In host auth /\
  (exists em, find match_pk (get_hash_prefix commitment) (matches s) = Some em /\
              m_guess em = NULL_GUESS) /\
  (exists eg, find game_pk (get_hash_prefix commitment) (games s) = Some eg) /\
  find match_pk (get_hash_prefix commitment) (matches s') = None /\
  find game_pk (get_hash_prefix commitment) (games s') = None /\
  accounts s' = accounts s /\ sent s' = sent s.
Proof.
  intros H. unfold cancelcommit in H. inv_ok H.
  destruct (find match_pk (get_hash_prefix commitment) (matches s)) as [em|] eqn:Ef;
    [|discriminate].
  inv_ok H. subst s'. simpl. apply Z.eqb_eq in Hstep0.
  destruct (find game_pk (get_hash_prefix commitment) (games s)) as [eg|] eqn:Eg;
    [|discriminate].
  simpl in Hstep1. injection Hstep1 as <-.
  apply find_In in Ef. destruct Ef as [_ Hk]. apply find_In in Eg. destruct Eg as [_ Hkg].
  split.
  { unfold require_auth in Hstep. apply check_Ok in Hstep.
    apply existsb_exists in Hstep. destruct Hstep as [x [Hx Hxe]].
    apply Z.eqb_eq in Hxe. now subst x. }
  split; [exists em; auto|]. split; [exists eg; auto|].
  rewrite Hk, Hkg. split; [apply find_erase_key_same|].
  split; [apply find_erase_key_same|]. auto.
Qed.

(** Any account that signs the action cancels an open commitment: the host
    stored in the Bet plays no part. *)
Lemma cancelcommit_ignores_recorded_host (auth : list name) (caller : name)
      (commitment : checksum256) (s : state) (em : match_) (eg : game) :
  In caller auth ->
  find match_pk (get_hash_prefix commitment) (matches s) = Some em ->
  m_guess em = NULL_GUESS ->
  find game_pk (get_hash_prefix commitment) (games s) = Some eg ->
  cancelcommit auth caller commitment s =
  Ok (mk_state (accounts s)
               (erase_key game_pk (game_pk eg) (games s))
               (erase_key match_pk (match_pk em) (matches s))
               (sent s)).
Proof.
  intros Hauth Hm Hg Hgm. unfold cancelcommit, require_auth.
  assert (existsb (Z.eqb caller) auth = true) as ->.
  { apply existsb_exists. exists caller. split; [exact Hauth | apply Z.eqb_refl]. }
  cbn [check bind]. rewrite Hm, Hg, Hgm. reflexivity.
Qed.

(** C4 at a failing call: Bob, with nothing but his own authorisation,
    cancels the commitment Alice published.  [host] is only passed to
    [require_auth]; it is never compared with the host of the record. *)
Theorem cancelcommit_by_another_host :
  find match_pk (get_hash_prefix Ex.commitment1) (matches Ex.offer_open) =
    Some (mk_match Ex.commitment1 Ex.ALICE NULL_GUESS NULL_NAME ZERO_ACORNS 10) /\
  Ex.BOB <> Ex.ALICE /\
  cancelcommit [Ex.BOB] Ex.BOB Ex.commitment1 Ex.offer_open =
    Ok (mk_state (accounts Ex.offer_open) [] [] []).
Proof.
  split; [reflexivity|]. split; [vm_compute; discriminate | reflexivity].
Qed.

(** ** Deposits *)

(** The first deposit into an empty ledger. *)
Lemma add_balance_opens_account (who : name) (value : asset) (s : state) :
  accounts s = [] -> symbol value = ACORN_SYMBOL ->
  add_balance who value true s =
  if amount value <? amount MIN_BALANCE
  then Abort "deposit does not meet minimum balance requirement"
  else Ok (set_accounts [mk_account who value] s).
Proof.
  intros E Hsym. unfold add_balance. rewrite E. simpl.
  unfold asset_ge, asset_lt. simpl. rewrite Hsym, Z.eqb_refl. simpl.
  destruct (amount value <? 500000); reflexivity.
Qed.

(** A deposit by the owner of the one row of the ledger. *)
Lemma add_balance_tops_up (a : account) (value : asset) (enforce_min : bool) (s : state) :
  accounts s = [a] -> symbol value = symbol (balance a) ->
  - max_amount <= amount (balance a) + amount value <= max_amount ->
  add_balance (owner a) value enforce_min s =
  Ok (set_accounts
        [mk_account (owner a)
                    (mk_asset (amount (balance a) + amount value) (symbol (balance a)))]
        s).
Proof.
  intros E Hsym [Hlo Hhi]. unfold add_balance. rewrite E, sec_find_single, Z.eqb_refl.
  unfold asset_add. rewrite Hsym, Z.eqb_refl.
  apply Z.leb_le in Hlo. apply Z.leb_le in Hhi. rewrite Hlo, Hhi. simpl.
  rewrite !Z.eqb_refl. reflexivity.
Qed.

(** C5 at a failing call: Alice holds an account, Bob has none and deposits
    the minimum balance.  No account is created for Bob: [emplace] meets the
    key of Alice's row, which is the key every row has. *)
Theorem deposit_by_second_owner_aborts :
  reachable Ex.SELF Ex.digest Ex.show Ex.funded /\
  accounts Ex.funded = [mk_account Ex.ALICE (Ex.acorns 1000000)] /\
  sec_find get_owner Ex.BOB (accounts Ex.funded) = [] /\
  account_pk (mk_account Ex.BOB MIN_BALANCE) =
    account_pk (mk_account Ex.ALICE (Ex.acorns 1000000)) /\
  add_balance Ex.BOB MIN_BALANCE true Ex.funded = Abort DUPLICATE_KEY /\
  acorn_transfer Ex.SELF Ex.show 11 Ex.BOB Ex.SELF MIN_BALANCE "deposit" Ex.funded =
    Abort DUPLICATE_KEY.
Proof.
  split; [exact funded_reachable|]. repeat split; reflexivity.
Qed.

(** ** Reveal and settlement *)

Lemma byte_at_31_last (source : checksum256) :
  List.length source = 32%nat -> byte_at 31 source = byte_val (last source x00).
Proof.
  intros H. unfold byte_at.
  do 32 (destruct source as [|? source]; [discriminate H|]).
  destruct source; [reflexivity | discriminate H].
Qed.

(** What [add_balance] does to the bankroll of the owner it credits. *)
Lemma add_balance_credit (who : name) (value : asset) (enforce_min : bool) (s s' : state) :
  ledger_inv (accounts s) -> symbol value = ACORN_SYMBOL ->
  add_balance who value enforce_min s = Ok s' ->
  ledger_balance who s' = ledger_balance who s + amount value /\
  games s' = games s /\ matches s' = matches s /\ sent s' = sent s.
Proof.
  intros Hinv Hsym H. unfold add_balance, ledger_balance in *.
  destruct (ledger_inv_cases _ Hinv) as [E|[a [E [Ha _]]]]; rewrite E in *.
  - simpl in H. inv_ok H. subst s'. simpl. rewrite sec_find_single. simpl.
    rewrite Z.eqb_refl. auto.
  - rewrite sec_find_single in *. destruct (owner a =? who) eqn:Eo.
    + inv_ok H. subst s'. simpl.
      apply asset_add_Ok in Hstep. destruct Hstep as [_ [-> _]].
      unfold modify in Hstep0. inv_ok Hstep0. subst. simpl.
      rewrite Z.eqb_refl, sec_find_single. simpl. rewrite Eo. auto.
    + inv_ok H. simpl in Hstep0. unfold account_pk in Hstep0. simpl in Hstep0.
      rewrite Hsym, Ha, Z.ltb_irrefl, Z.eqb_refl in Hstep0. discriminate.
Qed.

Section RevealFacts.
Variable self : name.
Variable sha256 : list byte -> checksum256.
Variable asset_to_string : asset -> string.

(** X23: in a reachable state, a reveal of an active Bet that goes through
    takes the lowest bit of the last byte of the source as the outcome.
    When it equals the guess the player is paid twice the wager less one
    shell and the host's ledger gains one shell; otherwise the host's ledger
    gains twice the wager less one shell and the player is paid one shell.
    The two payouts add up to twice the wager, and the Bet is gone. *)
Theorem reveal_settles_active_bet (s s' : state) (commitment source : checksum256)
        (em : match_) :
  reachable self sha256 asset_to_string s ->
  sha256 source = commitment ->
  List.length source = 32%nat ->
  find match_pk (get_hash_prefix commitment) (matches s) = Some em ->
  m_guess em <> NULL_GUESS ->
  reveal self sha256 commitment source s = Ok s' ->
  let outcome := Z.land (byte_val (last source x00)) 1 in
  let wager := amount (m_bet em) in
  exists host_payout player_payout message,
    (outcome = m_guess em ->
     player_payout = 2 * wager - amount ACORN_SHELL /\
     host_payout = amount ACORN_SHELL /\ message = "Win!") /\
    (outcome <> m_guess em ->
     host_payout = 2 * wager - amount ACORN_SHELL /\
     player_payout = amount ACORN_SHELL /\ message = "Lose") /\
    host_payout + player_payout = 2 * wager /\
    sent s' = (sent s ++ [mk_transfer self (m_player em)
                                      (mk_asset player_payout ACORN_SYMBOL) message])%list /\
    ledger_balance (m_host em) s' = ledger_balance (m_host em) s + host_payout /\
    find match_pk (get_hash_prefix commitment) (matches s') = None /\
    (forall m, In m (matches s') <-> In m (matches s) /\ match_pk m <> match_pk em) /\
    games s' = games s.
Proof.
  intros Hreach Hhash Hlen Hfind Hguess H outcome wager.
  apply reachable_inv in Hreach. destruct Hreach as [Hl _].
  unfold reveal in H. inv_ok H. rewrite Hfind in H.
  apply bind_Ok in H. destruct H as [s1 [H1 H2]]. injection H2 as <-.
  apply Z.eqb_neq in Hguess. rewrite Hguess in H1. simpl in H1.
  apply bind_Ok in H1. destruct H1 as [doubled [Hd H1]].
  apply bind_Ok in H1. destruct H1 as [win [Hwq H1]].
  apply asset_mul_Ok in Hd. destruct Hd as [-> _].
  apply asset_sub_Ok in Hwq. destruct Hwq as [Hsym [-> _]]. simpl in Hsym, H1.
  rewrite (byte_at_31_last _ Hlen) in H1. fold outcome in H1.
  apply find_In in Hfind. destruct Hfind as [_ Hk].
  assert (Hgone : forall t, find match_pk (get_hash_prefix commitment)
                                 (erase_key match_pk (match_pk em) t) = None).
  { intros t. rewrite <- Hk. apply find_erase_key_same. }
  assert (Hgen : forall value quantity message,
             symbol value = ACORN_SYMBOL ->
             add_balance (m_host em) value false
                         (pay self (m_player em) quantity message s) = Ok s1 ->
             ledger_balance (m_host em) s1 = ledger_balance (m_host em) s + amount value /\
             games s1 = games s /\ matches s1 = matches s /\
             sent s1 = (sent s ++ [mk_transfer self (m_player em) quantity message])%list).
  { intros value quantity message Hv Ha.
    apply add_balance_credit in Ha; try exact Hl; try exact Hv. exact Ha. }
  unfold ledger_balance, set_matches. cbn [accounts games matches sent].
  fold (ledger_balance (m_host em) s1). fold (ledger_balance (m_host em) s).
  change (amount ACORN_SHELL) with 1.
  destruct (outcome =? m_guess em) eqn:Eo.
  - apply Z.eqb_eq in Eo.
    destruct (Hgen ACORN_SHELL _ _ eq_refl H1) as [Hb [Hg [Hm Hs]]].
    exists 1, (2 * wager - 1), "Win!".
    split; [auto|]. split; [intros Hne; contradiction|].
    split; [lia|].
    split; [rewrite Hs, <- Hsym; do 4 f_equal; unfold wager; lia|].
    split; [exact Hb|]. split; [apply Hgone|].
    split; [|exact Hg]. intros m. rewrite erase_key_In, Hm. reflexivity.
  - apply Z.eqb_neq in Eo.
    assert (Hv : symbol (mk_asset (amount (m_bet em) * 2 - 1) (symbol (m_bet em))) =
                 ACORN_SYMBOL) by (simpl; congruence).
    destruct (Hgen _ _ _ Hv H1) as [Hb [Hg [Hm Hs]]].
    exists (2 * wager - 1), 1, "Lose".
    split; [intros He; contradiction|]. split; [auto|].
    split; [lia|].
    split; [exact Hs|].
    split; [rewrite Hb; unfold wager; cbn [amount]; lia|]. split; [apply Hgone|].
    split; [|exact Hg]. intros m. rewrite erase_key_In, Hm. reflexivity.
Qed.

(** The settlement goes through whenever the host still holds the ledger
    row and the credit fits the amount range. *)
Lemma reveal_active_goes_through (s : state) (commitment source : checksum256)
      (em : match_) (a : account) :
  sha256 source = commitment ->
  find match_pk (get_hash_prefix commitment) (matches s) = Some em ->
  m_guess em <> NULL_GUESS ->
  symbol (m_bet em) = ACORN_SYMBOL -> 1 <= amount (m_bet em) ->
  accounts s = [a] -> owner a = m_host em ->
  symbol (balance a) = ACORN_SYMBOL -> 0 <= amount (balance a) ->
  amount (balance a) + 2 * amount (m_bet em) <= max_amount ->
  exists s', reveal self sha256 commitment source s = Ok s'.
Proof.
  intros Hhash Hfind Hguess Hsym Hpos Hacc Hown Hsa Hba Hmax.
  unfold reveal, assert_sha256. rewrite Hhash.
  assert (checksum_eqb commitment commitment = true) as ->.
  { unfold checksum_eqb. destruct (list_eq_dec byte_eq_dec commitment commitment);
      [reflexivity | congruence]. }
  cbn [check bind]. rewrite Hfind. apply Z.eqb_neq in Hguess. rewrite Hguess.
  cbn [negb].
  rewrite asset_mul_in_range by (unfold max_amount in *; lia). cbn [bind].
  rewrite asset_sub_in_range;
    [|symmetry; exact Hsym | cbn [amount ACORN_SHELL]; unfold max_amount in *; lia].
  cbn [bind amount symbol ACORN_SHELL].
  destruct (Z.land (byte_at 31 source) 1 =? m_guess em); rewrite <- Hown;
    rewrite add_balance_tops_up with (a := a);
    cbn [bind accounts pay symbol amount ACORN_SHELL]; eauto;
    try congruence; unfold max_amount in *; lia.
Qed.
End RevealFacts.

Lemma in_play_reachable : reachable Ex.SELF Ex.digest Ex.show Ex.in_play.
Proof. apply (run_from_init _ _ _ Ex.trace_in_play). reflexivity. Qed.

(** Scenario A through the theorem above: Bob's 0.5 ACORN on odd against
    Alice's bankroll of 100 ACORN, revealed with a source whose last byte is
    odd.  Bob is paid 9999 shells and Alice's ledger gains one. *)
Lemma reveal_settles_active_bet_witness :
  reachable Ex.SELF Ex.digest Ex.show Ex.in_play /\
  Ex.digest Ex.source1 = Ex.commitment1 /\
  reveal Ex.SELF Ex.digest Ex.commitment1 Ex.source1 Ex.in_play = Ok Ex.settled /\
  sent Ex.settled = [mk_transfer Ex.SELF Ex.BOB (Ex.acorns 9999) "Win!"] /\
  ledger_balance Ex.ALICE Ex.settled = ledger_balance Ex.ALICE Ex.in_play + 1 /\
  find match_pk (get_hash_prefix Ex.commitment1) (matches Ex.settled) = None.
Proof.
  assert (Hhash : Ex.digest Ex.source1 = Ex.commitment1) by (vm_compute; reflexivity).
  assert (Hrun : reveal Ex.SELF Ex.digest Ex.commitment1 Ex.source1 Ex.in_play =
                 Ok Ex.settled) by (vm_compute; reflexivity).
  assert (Hodd : Z.land (byte_val (last Ex.source1 x00)) 1 = 1) by reflexivity.
  assert (Hne : 1 <> NULL_GUESS) by (vm_compute; discriminate).
  destruct (reveal_settles_active_bet Ex.SELF Ex.digest Ex.show
              Ex.in_play Ex.settled Ex.commitment1 Ex.source1
              (mk_match Ex.commitment1 Ex.ALICE 1 Ex.BOB (Ex.acorns 5000) 320)
              in_play_reachable Hhash eq_refl eq_refl Hne Hrun)
    as [host_payout [player_payout [message [Hwin [_ [_ [Hsent [Hledger [Hgone _]]]]]]]]].
  destruct (Hwin Hodd) as [Hp [Hh Hm]].
  split; [exact in_play_reachable|]. split; [exact Hhash|]. split; [exact Hrun|].
  split; [rewrite Hsent, Hp, Hm; reflexivity|].
  split; [cbn [m_host] in Hledger; rewrite Hledger, Hh; reflexivity | exact Hgone].
Defined.

(** ** Withdrawing the whole bankroll *)

Lemma cancel_offers_paired (git : list game) (mts : list match_) (gms : list game)
      (r : list match_ * list game) :
  cancel_offers git mts gms = Ok r ->
  forall g, In g git -> exists em, In em mts /\ match_pk em = game_pk g.
Proof.
  revert mts gms. induction git as [|g0 git IH]; simpl; intros mts gms H g Hg;
    [destruct Hg|].
  apply bind_Ok in H. destruct H as [mts1 [H1 H2]].
  unfold erase in H1.
  destruct (find match_pk (game_pk g0) mts) as [em|] eqn:Ef; [|discriminate].
  injection H1 as <-. destruct Hg as [<-|Hg].
  - exists em. now apply find_In in Ef.
  - destruct (IH _ _ H2 g Hg) as [em' [Hin Hk]].
    exists em'. split; [now apply erase_key_incl in Hin | exact Hk].
Qed.

(** The branch of [sub_balance] that empties the account. *)
Lemma sub_balance_to_zero (who : name) (value : asset) (enforce_min : bool) (s s' : state) :
  ledger_inv (accounts s) ->
  sub_balance who value enforce_min s = Ok s' ->
  amount value = ledger_balance who s ->
  accounts s' = [] /\ sent s' = sent s /\
  cancel_offers (sec_find get_host who (games s)) (matches s) (games s) =
  Ok (matches s', games s').
Proof.
  intros Hinv H Hall. unfold sub_balance, ledger_balance in *.
  destruct (ledger_inv_cases _ Hinv) as [E|[a [E [Ha Hpa]]]]; rewrite E in *.
  - simpl in H. discriminate.
  - rewrite sec_find_single in *. destruct (owner a =? who); [|discriminate].
    apply bind_Ok in H. destruct H as [u [_ H]].
    apply bind_Ok in H. destruct H as [res [Hsub H]].
    apply asset_sub_Ok in Hsub. destruct Hsub as [_ [-> _]]. cbn [amount] in H.
    simpl in Hall. rewrite Hall, Z.sub_diag in H. cbn [Z.eqb] in H.
    apply bind_Ok in H. destruct H as [[mts' gms'] [Hco H]].
    injection H as <-. cbn [accounts sent matches games fst snd].
    unfold erase_key. simpl. rewrite Z.eqb_refl. simpl. auto.
Qed.

Section WithdrawFacts.
Variable self : name.
Variable sha256 : list byte -> checksum256.
Variable asset_to_string : asset -> string.

(** C6: in a reachable state, a withdrawal of the owner's whole balance
    deletes the ledger row and, in the same action, every Offer of that
    owner together with the placeholder Bet of the same key; no Bet that has
    been taken is removed, whoever hosts it. *)
Theorem withdraw_to_zero_cancels_offers (s s' : state) (auth : list name) (to : name)
        (quantity : asset) :
  reachable self sha256 asset_to_string s ->
  withdraw self auth to quantity s = Ok s' ->
  amount quantity = ledger_balance to s ->
  sec_find get_owner to (accounts s') = [] /\
  (forall g, In g (games s) -> g_host g = to ->
             find game_pk (game_pk g) (games s') = None /\
             (exists em, In em (matches s) /\ match_pk em = game_pk g /\
                         m_guess em = NULL_GUESS) /\
             find match_pk (game_pk g) (matches s') = None) /\
  (forall m, In m (matches s) -> m_guess m <> NULL_GUESS -> In m (matches s')) /\
  sent s' = (sent s ++ [mk_transfer self to quantity ""])%list.
Proof.
  intros Hreach H Hall. apply reachable_inv in Hreach. destruct Hreach as [Hl [_ Ho]].
  unfold withdraw in H. inv_ok H. subst s'.
  destruct (sub_balance_to_zero _ _ _ _ _ Hl Hstep3 Hall) as [Hacc [Hsent Hco]].
  destruct (cancel_offers_Ok _ _ _ _ _ Hco) as [Hm Hg].
  pose proof (cancel_offers_paired _ _ _ _ Hco) as Hpair.
  unfold pay. cbn [accounts games matches sent]. rewrite Hacc, Hsent.
  split; [reflexivity|]. split; [|split; [|reflexivity]].
  - intros g Hin Hhost.
    assert (Hit : In g (sec_find get_host to (games s)))
      by exact (sec_find_complete _ get_host _ _ _ Hin Hhost).
    split; [|split].
    + apply find_None. intros g' Hg'. apply Hg in Hg'. destruct Hg' as [_ Hne].
      now apply Hne.
    + destruct (Hpair g Hit) as [em [Hem Hk]]. exists em.
      split; [exact Hem|]. split; [exact Hk|]. exact (Ho g em Hin Hem Hk).
    + apply find_None. intros m Hm'. apply Hm in Hm'. destruct Hm' as [_ Hne].
      now apply Hne.
  - intros m Hin Hactive. apply Hm. split; [exact Hin|].
    intros g Hg' Hk. apply Hactive. apply (Ho g m); [|exact Hin | exact Hk].
    exact (sec_find_In _ get_host _ _ _ Hg').
Qed.
End WithdrawFacts.

Lemma three_offers_reachable : reachable Ex.SELF Ex.digest Ex.show Ex.three_offers.
Proof. apply (run_from_init _ _ _ Ex.trace_three_offers). reflexivity. Qed.

(** Scenario E through the theorem above, with a taken Bet beside the two
    open offers: Alice withdraws the 99.5 ACORN left of her bankroll. *)
Lemma withdraw_to_zero_cancels_offers_witness :
  reachable Ex.SELF Ex.digest Ex.show Ex.three_offers /\
  withdraw Ex.SELF [Ex.ALICE] Ex.ALICE (Ex.acorns 995000) Ex.three_offers = Ok Ex.emptied /\
  amount (Ex.acorns 995000) = ledger_balance Ex.ALICE Ex.three_offers /\
  List.length (games Ex.three_offers) = 2%nat /\
  sec_find get_owner Ex.ALICE (accounts Ex.emptied) = [] /\
  games Ex.emptied = [] /\
  (forall m, In m (matches Ex.three_offers) -> m_guess m <> NULL_GUESS ->
             In m (matches Ex.emptied)) /\
  List.length (matches Ex.emptied) = 1%nat.
Proof.
  assert (Hrun : withdraw Ex.SELF [Ex.ALICE] Ex.ALICE (Ex.acorns 995000) Ex.three_offers =
                 Ok Ex.emptied) by reflexivity.
  assert (Hall : amount (Ex.acorns 995000) = ledger_balance Ex.ALICE Ex.three_offers)
    by reflexivity.
  destruct (withdraw_to_zero_cancels_offers Ex.SELF Ex.digest Ex.show
              Ex.three_offers Ex.emptied [Ex.ALICE] Ex.ALICE (Ex.acorns 995000)
              three_offers_reachable Hrun Hall) as [Hacc [_ [Hkeep _]]].
  split; [exact three_offers_reachable|]. split; [exact Hrun|]. split; [exact Hall|].
  split; [reflexivity|]. split; [exact Hacc|]. split; [reflexivity|].
  split; [exact Hkeep | reflexivity].
Defined.

(** ** Matching a wager *)

(** The scan when no account both covers the wager and holds an offer: it
    reaches the end with the largest bankroll among the accounts with an
    offer. *)
Lemma do_bet_scan_no_match (now : Z) (player : name) (quantity : asset) (guess : Z)
      (s : state) (ait : list account) (m : Z) :
  symbol quantity = ACORN_SYMBOL ->
  (forall a, In a ait -> symbol (balance a) = ACORN_SYMBOL) ->
  (forall a, In a ait ->
             ~ (amount quantity <= Z.quot (amount (balance a)) MAX_BET_TO_BANKROLL_RATIO /\
                has_offer (owner a) s = true)) ->
  do_bet_scan now player quantity guess ait (mk_asset m ACORN_SYMBOL) s =
  Ok (inr (mk_asset
             (fold_left Z.max
                        (map (fun a => amount (balance a))
                             (filter (fun a => has_offer (owner a) s) ait)) m)
             ACORN_SYMBOL)).
Proof.
  intros Hq. revert m. induction ait as [|acct ait IH]; intros m Hsym Hno; [reflexivity|].
  assert (Hsa : symbol (balance acct) = ACORN_SYMBOL) by (apply Hsym; now left).
  assert (Hno' : ~ (amount quantity <= Z.quot (amount (balance acct)) 100 /\
                    has_offer (owner acct) s = true)) by (apply Hno; now left).
  assert (IH' : forall m',
             do_bet_scan now player quantity guess ait (mk_asset m' ACORN_SYMBOL) s =
             Ok (inr (mk_asset
                        (fold_left Z.max
                                   (map (fun a => amount (balance a))
                                        (filter (fun a => has_offer (owner a) s) ait)) m')
                        ACORN_SYMBOL))).
  { intros m'. apply IH; intros a Ha; [apply Hsym | apply Hno]; now right. }
  destruct acct as [o [b sy]]. cbn [balance symbol amount owner] in Hsa, Hno'. subst sy.
  cbn [do_bet_scan]. rewrite asset_div_ratio. cbn [bind].
  unfold asset_ge, asset_gt, asset_lt. cbn [amount symbol balance owner].
  rewrite Hq, Z.eqb_refl. cbn [check bind filter map balance owner amount].
  unfold has_offer in *.
  destruct (Z.quot b 100 <? amount quantity) eqn:Ecov; cbn [negb].
  - destruct (m <? b) eqn:Elarger.
    + apply Z.ltb_lt in Elarger.
      destruct (sec_find get_host o (games s));
        cbn [is_end negb map fold_left balance amount].
      * apply IH'.
      * rewrite IH'. rewrite Z.max_r by lia. reflexivity.
    + apply Z.ltb_ge in Elarger. rewrite IH'.
      destruct (sec_find get_host o (games s));
        cbn [is_end negb map fold_left balance amount].
      * reflexivity.
      * rewrite Z.max_l by lia. reflexivity.
  - apply Z.ltb_ge in Ecov.
    destruct (sec_find get_host o (games s)) eqn:Eg; cbn [is_end negb].
    + apply IH'.
    + exfalso. apply Hno'. split; [exact Ecov | reflexivity].
Qed.

Section BetFacts.
Variable asset_to_string : asset -> string.

(** C7: when no account both covers the wager and holds an open offer,
    [do_bet] aborts, and the message carries the hundredth part of the
    largest bankroll among the accounts that hold an open offer, or says
    that no bets are available when that part is below the minimum
    transfer. *)
Theorem do_bet_reports_maximum_bet (now : Z) (player : name) (quantity : asset)
        (guess : Z) (s : state) :
  symbol quantity = ACORN_SYMBOL ->
  (forall a, In a (accounts s) -> symbol (balance a) = ACORN_SYMBOL) ->
  (forall a, In a (accounts s) ->
             ~ (amount quantity <= Z.quot (amount (balance a)) MAX_BET_TO_BANKROLL_RATIO /\
                has_offer (owner a) s = true)) ->
  do_bet asset_to_string now player quantity guess s =
  (let max_bet := Z.quot (max_bankroll_with_offer s) MAX_BET_TO_BANKROLL_RATIO in
   if max_bet <? MIN_TRANSFER_SHELLS
   then Abort "no bets available"
   else Abort ("the current maximum bet is " ++
               asset_to_string (mk_asset max_bet ACORN_SYMBOL))).
Proof.
  intros Hq Hsym Hno. unfold do_bet, ZERO_ACORNS.
  rewrite (do_bet_scan_no_match now player quantity guess s (accounts s) 0 Hq Hsym Hno).
  cbn [bind]. rewrite asset_div_ratio. cbn [bind amount symbol]. reflexivity.
Qed.
End BetFacts.

(** The theorem above on Alice's bankroll of 100 ACORN.  With one open
    offer, a wager of 5 ACORN is refused and told that one ACORN is the most
    that can be bet; before she has published an offer, a wager is told that
    no bets are available, whatever her bankroll. *)
Lemma do_bet_reports_maximum_bet_witness :
  (max_bankroll_with_offer Ex.offer_open = 1000000 /\
   do_bet Ex.show 20 Ex.CAROL (Ex.acorns 50000) 1 Ex.offer_open =
   Abort "the current maximum bet is 1.0000 ACORN") /\
  (max_bankroll_with_offer Ex.funded = 0 /\
   do_bet Ex.show 20 Ex.CAROL (Ex.acorns 5000) 1 Ex.funded =
   Abort "no bets available").
Proof.
  split; (split; [reflexivity|]).
  - rewrite (do_bet_reports_maximum_bet Ex.show 20 Ex.CAROL (Ex.acorns 50000) 1
                                        Ex.offer_open).
    + reflexivity.
    + reflexivity.
    + intros a [<-|[]]. reflexivity.
    + intros a [<-|[]] [Hle _]. vm_compute in Hle. apply Hle. reflexivity.
  - rewrite (do_bet_reports_maximum_bet Ex.show 20 Ex.CAROL (Ex.acorns 5000) 1 Ex.funded).
    + reflexivity.
    + reflexivity.
    + intros a [<-|[]]. reflexivity.
    + intros a [<-|[]] [_ Hoffer]. vm_compute in Hoffer. discriminate Hoffer.
Defined.

(** A scan that returns early has found an account that covers the wager
    and holds an offer, debited it and rewritten the Bet of that offer. *)
Lemma do_bet_scan_matched (now : Z) (player : name) (quantity : asset) (guess : Z)
      (s s' : state) (ait : list account) (max_bankroll : asset) :
  do_bet_scan now player quantity guess ait max_bankroll s = Ok (inl s') ->
  exists acct eg rest s1 em,
    In acct ait /\
    sec_find get_host (owner acct) (games s) = eg :: rest /\
    amount quantity <= Z.quot (amount (balance acct)) MAX_BET_TO_BANKROLL_RATIO /\
    sub_balance (owner acct) quantity false s = Ok s1 /\
    find match_pk (game_pk eg) (matches s1) = Some em /\
    s' = mk_state (accounts s1)
                  (erase_key game_pk (game_pk eg) (games s1))
                  (map (fun x => if match_pk x =? match_pk em
                                 then mk_match (m_commitment em) (m_host em) guess player
                                               quantity (uint32 (now + GAME_TIMEOUT_SECS))
                                 else x) (matches s1))
                  (sent s1).
Proof.
  revert max_bankroll. induction ait as [|acct ait IH]; intros max_bankroll H;
    [discriminate H|].
  cbn [do_bet_scan] in H. rewrite asset_div_ratio in H. cbn [bind] in H.
  apply bind_Ok in H. destruct H as [covers [Hc H]].
  apply asset_ge_Ok in Hc. destruct Hc as [_ Hc]. cbn [amount] in Hc.
  assert (Htail : forall mb, do_bet_scan now player quantity guess ait mb s = Ok (inl s') ->
            exists acct0 eg rest s1 em,
              In acct0 (acct :: ait) /\
              sec_find get_host (owner acct0) (games s) = eg :: rest /\
              amount quantity <= Z.quot (amount (balance acct0)) MAX_BET_TO_BANKROLL_RATIO /\
              sub_balance (owner acct0) quantity false s = Ok s1 /\
              find match_pk (game_pk eg) (matches s1) = Some em /\
              s' = mk_state (accounts s1)
                            (erase_key game_pk (game_pk eg) (games s1))
                            (map (fun x => if match_pk x =? match_pk em
                                           then mk_match (m_commitment em) (m_host em) guess
                                                         player quantity
                                                         (uint32 (now + GAME_TIMEOUT_SECS))
                                           else x) (matches s1))
                            (sent s1)).
  { intros mb Hmb. destruct (IH mb Hmb) as [a0 [eg [rest [s1 [em [Hin Hrest]]]]]].
    exists a0, eg, rest, s1, em. split; [now right | exact Hrest]. }
  destruct covers.
  - destruct (sec_find get_host (owner acct) (games s)) as [|eg rest] eqn:Eg;
      [exact (Htail _ H)|].
    apply bind_Ok in H. destruct H as [s1 [Hsub H]].
    apply bind_Ok in H. destruct H as [mts [Hmod H]]. injection H as <-.
    unfold modify in Hmod. fold (game_pk eg) in Hmod.
    destruct (find match_pk (game_pk eg) (matches s1)) as [em|] eqn:Ef; [|discriminate].
    inv_ok Hmod. subst mts.
    exists acct, eg, rest, s1, em. split; [now left|]. split; [exact Eg|].
    split; [symmetry in Hc; apply Z.leb_le in Hc; exact Hc|]. auto.
  - apply bind_Ok in H. destruct H as [larger [_ H]].
    destruct larger; exact (Htail _ H).
Qed.

(** The branch of [sub_balance] that leaves something in the account, with
    no minimum asked for. *)
Lemma sub_balance_partial (a : account) (value : asset) (s s1 : state) :
  accounts s = [a] -> amount (balance a) - amount value <> 0 ->
  sub_balance (owner a) value false s = Ok s1 ->
  accounts s1 = [mk_account (owner a)
                            (mk_asset (amount (balance a) - amount value)
                                      (symbol (balance a)))] /\
  games s1 = games s /\ matches s1 = matches s /\ sent s1 = sent s.
Proof.
  intros E Hnz H. unfold sub_balance in H.
  rewrite E, sec_find_single, Z.eqb_refl in H.
  apply bind_Ok in H. destruct H as [u [_ H]].
  apply bind_Ok in H. destruct H as [res [Hsub H]].
  apply asset_sub_Ok in Hsub. destruct Hsub as [_ [-> _]]. cbn [amount] in H.
  apply Z.eqb_neq in Hnz. rewrite Hnz in H.
  inv_ok H. subst s1. unfold modify in Hstep0. inv_ok Hstep0. subst.
  cbn [accounts games matches sent set_accounts map]. rewrite Z.eqb_refl. auto.
Qed.

Section MatchingFacts.
Variable self : name.
Variable sha256 : list byte -> checksum256.
Variable asset_to_string : asset -> string.

(** C3: in a reachable state, [do_bet] succeeds only by taking an offer of a
    host whose bankroll, at that moment, is at least a hundred times the
    wager; the host's ledger is debited by exactly the wager, through
    [sub_balance] with no minimum enforced, and the Bet of the offer becomes
    the player's. *)
Theorem do_bet_respects_risk_ratio (s s' : state) (now : Z) (player : name)
        (quantity : asset) (guess : Z) :
  reachable self sha256 asset_to_string s ->
  do_bet asset_to_string now player quantity guess s = Ok s' ->
  exists acct eg,
    In acct (accounts s) /\ In eg (games s) /\ g_host eg = owner acct /\
    ledger_balance (owner acct) s = amount (balance acct) /\
    amount quantity * MAX_BET_TO_BANKROLL_RATIO <= amount (balance acct) /\
    (exists s1, sub_balance (owner acct) quantity false s = Ok s1 /\
                accounts s' = accounts s1) /\
    ledger_balance (owner acct) s' = amount (balance acct) - amount quantity /\
    find game_pk (game_pk eg) (games s') = None /\
    (exists em, In em (matches s) /\ match_pk em = game_pk eg /\
                In (mk_match (m_commitment em) (m_host em) guess player quantity
                             (uint32 (now + GAME_TIMEOUT_SECS)))
                   (matches s')).
Proof.
  intros Hreach H. apply reachable_inv in Hreach. destruct Hreach as [Hl _].
  unfold do_bet in H. apply bind_Ok in H. destruct H as [[s0|mb] [Hscan H]].
  2:{ apply bind_Ok in H. destruct H as [mx [_ H]].
      destruct (amount mx <? MIN_TRANSFER_SHELLS); discriminate. }
  injection H as ->.
  destruct (do_bet_scan_matched _ _ _ _ _ _ _ _ Hscan)
    as [acct [eg [rest [s1 [em [Hin [Hg [Hcov [Hsub [Hf ->]]]]]]]]]].
  destruct (ledger_inv_cases _ Hl) as [E|[a [E [Ha Hpa]]]]; rewrite E in Hin;
    [destruct Hin|].
  destruct Hin as [->|[]].
  apply sec_find_head in Hg. destruct Hg as [Hhost Hgin].
  unfold MAX_BET_TO_BANKROLL_RATIO in *.
  assert (Hratio : amount quantity * 100 <= amount (balance acct)).
  { rewrite Z.quot_div_nonneg in Hcov by lia.
    pose proof (Z.mul_div_le (amount (balance acct)) 100 ltac:(lia)). lia. }
  assert (Hnz : amount (balance acct) - amount quantity <> 0) by lia.
  destruct (sub_balance_partial _ _ _ _ E Hnz Hsub) as [Hacc [Hgs [Hms Hss]]].
  exists acct, eg. split; [rewrite E; now left|]. split; [exact Hgin|].
  split; [exact Hhost|].
  split; [unfold ledger_balance; rewrite E, sec_find_single, Z.eqb_refl; reflexivity|].
  split; [exact Hratio|]. split; [exists s1; split; [exact Hsub | reflexivity]|].
  split.
  { unfold ledger_balance. cbn [accounts]. rewrite Hacc, sec_find_single.
    cbn [owner]. rewrite Z.eqb_refl. reflexivity. }
  split; [apply find_erase_key_same|].
  apply find_In in Hf. destruct Hf as [Hem Hk].
  exists em. split; [now rewrite <- Hms|]. split; [exact Hk|].
  cbn [matches]. apply in_map_iff. exists em. rewrite Z.eqb_refl. auto.
Qed.
End MatchingFacts.

Lemma min_offer_reachable : reachable Ex.SELF Ex.digest Ex.show Ex.min_offer.
Proof. apply (run_from_init _ _ _ Ex.trace_min_offer). reflexivity. Qed.

(** The theorem above on a bankroll at the minimum balance: Bob's wager of
    0.5 ACORN is matched and debited although it leaves Alice's account
    below the minimum balance, which a withdrawal of the same amount is
    refused for. *)
Lemma do_bet_respects_risk_ratio_witness :
  reachable Ex.SELF Ex.digest Ex.show Ex.min_offer /\
  do_bet Ex.show 20 Ex.BOB (Ex.acorns 5000) 1 Ex.min_offer = Ok Ex.min_in_play /\
  ledger_balance Ex.ALICE Ex.min_offer = 500000 /\
  5000 * MAX_BET_TO_BANKROLL_RATIO <= 500000 /\
  ledger_balance Ex.ALICE Ex.min_in_play = 500000 - 5000 /\
  ledger_balance Ex.ALICE Ex.min_in_play < amount MIN_BALANCE /\
  withdraw Ex.SELF [Ex.ALICE] Ex.ALICE (Ex.acorns 5000) Ex.min_offer =
  Abort "withdrawal must either withdraw the full balance, or the remainder must meet the minimum balance requirement".
Proof.
  assert (Hrun : do_bet Ex.show 20 Ex.BOB (Ex.acorns 5000) 1 Ex.min_offer =
                 Ok Ex.min_in_play) by reflexivity.
  destruct (do_bet_respects_risk_ratio Ex.SELF Ex.digest Ex.show
              Ex.min_offer Ex.min_in_play 20 Ex.BOB (Ex.acorns 5000) 1
              min_offer_reachable Hrun)
    as [acct [eg [Hin [_ [_ [Hb [Hratio [_ [Hb' _]]]]]]]]].
  destruct Hin as [<-|[]].
  cbn [owner balance amount Ex.acorns MIN_BALANCE] in Hb, Hb', Hratio.
  split; [exact min_offer_reachable|]. split; [exact Hrun|].
  split; [exact Hb|]. split; [exact Hratio|]. split; [exact Hb'|].
  split; reflexivity.
Defined.

(** ** The digest and the key of a commitment *)

(** The digest of the 32 zero bytes, and the key [commit] refuses: the
    64-bit word [get_hash_prefix] reads from it is [ZERO_SOURCE]. *)
Lemma zero_source_prefix :
  map byte_val (Sha256.sha256 Ex.zero_source) =
  [0x66; 0x68; 0x7a; 0xad; 0xf8; 0x62; 0xbd; 0x77;
   0x6c; 0x8f; 0xc1; 0x8b; 0x8e; 0x9f; 0x8e; 0x20;
   0x08; 0x97; 0x14; 0x85; 0x6e; 0xe2; 0x33; 0xb3;
   0x90; 0x2a; 0x59; 0x1d; 0x0d; 0x5f; 0x29; 0x25] /\
  get_hash_prefix (Sha256.sha256 Ex.zero_source) = ZERO_SOURCE.
Proof. split; vm_compute; reflexivity. Qed.

(** The commitment to the zero source is refused by [commit]. *)
Lemma commit_refuses_zero_source :
  commit [Ex.ALICE] 10 Ex.ALICE (Sha256.sha256 Ex.zero_source) Ex.funded =
  Abort "A zeroed-out checksum256 is not an acceptable commitment source".
Proof. vm_compute. reflexivity. Qed.

(** ** The tables stay in key order

    The list model of a table erases and rewrites by key; on the tables of a
    reachable state a key names one row, as [multi_index] has it. *)

Lemma modify_table_ok {R : Type} (pk : R -> Z) (it : option R) (updater : R -> R)
      (t t' : list R) :
  table_ok pk t -> modify pk it updater t = Ok t' -> table_ok pk t'.
Proof.
  unfold modify, table_ok. intros Hok H. destruct it as [r|]; [|discriminate].
  inv_ok H. subst t'. apply Z.eqb_eq in Hstep.
  assert (map pk (map (fun x => if pk x =? pk r then updater r else x) t) = map pk t) as ->;
    [|exact Hok].
  rewrite map_map. apply map_ext. intros x.
  destruct (pk x =? pk r) eqn:E; [|reflexivity].
  apply Z.eqb_eq in E. congruence.
Qed.

Lemma cancel_offers_table_ok (git : list game) (mts mts' : list match_)
      (gms gms' : list game) :
  table_ok match_pk mts -> table_ok game_pk gms ->
  cancel_offers git mts gms = Ok (mts', gms') ->
  table_ok match_pk mts' /\ table_ok game_pk gms'.
Proof.
  revert mts gms. induction git as [|g git IH]; simpl; intros mts gms Hm Hg H.
  - injection H as <- <-. now split.
  - apply bind_Ok in H. destruct H as [mts1 [H1 H2]].
    unfold erase in H1. destruct (find match_pk (game_pk g) mts); [|discriminate].
    injection H1 as <-.
    apply (IH _ _ (erase_key_table_ok _ _ _ _ Hm) (erase_key_table_ok _ _ _ _ Hg) H2).
Qed.

Lemma add_balance_tables_ok (who : name) (value : asset) (enforce_min : bool)
      (s s' : state) :
  tables_ok s -> add_balance who value enforce_min s = Ok s' -> tables_ok s'.
Proof.
  intros [Ha [Hg Hm]] H. unfold add_balance in H.
  destruct (sec_find get_owner who (accounts s)) as [|a rest]; inv_ok H; subst s'.
  - split; [exact (emplace_table_ok _ _ _ _ _ Ha Hstep0) | now split].
  - split; [exact (modify_table_ok _ _ _ _ _ Ha Hstep0) | now split].
Qed.

Lemma sub_balance_tables_ok (who : name) (value : asset) (enforce_min : bool)
      (s s' : state) :
  tables_ok s -> sub_balance who value enforce_min s = Ok s' -> tables_ok s'.
Proof.
  intros [Ha [Hg Hm]] H. unfold sub_balance in H.
  destruct (sec_find get_owner who (accounts s)) as [|a rest]; [discriminate|].
  apply bind_Ok in H. destruct H as [u [_ H]].
  apply bind_Ok in H. destruct H as [res [_ H]].
  destruct (amount res =? 0).
  - apply bind_Ok in H. destruct H as [[mts' gms'] [Hco H]]. injection H as <-.
    destruct (cancel_offers_table_ok _ _ _ _ _ Hm Hg Hco) as [Hm' Hg'].
    split; [apply erase_key_table_ok; exact Ha | now split].
  - inv_ok H. subst s'.
    split; [exact (modify_table_ok _ _ _ _ _ Ha Hstep0) | now split].
Qed.

Section TablesInvariant.
Variable self : name.
Variable sha256 : list byte -> checksum256.
Variable asset_to_string : asset -> string.

Lemma collect_loop_tables_ok (now : Z) (player : name) (it : list match_) (s s' : state) :
  tables_ok s -> collect_loop self now player it s = Ok s' -> tables_ok s'.
Proof.
  revert s. induction it as [|em it IH]; simpl; intros s Hok H.
  - now injection H as <-.
  - destruct (now >? m_deadline em); [|now apply (IH s)].
    apply bind_Ok in H. destruct H as [q [_ H]].
    apply (IH _) in H; [exact H|].
    destruct Hok as [Ha [Hg Hm]].
    split; [exact Ha | split; [exact Hg | apply erase_key_table_ok; exact Hm]].
Qed.

Lemma do_bet_scan_tables_ok (now : Z) (player : name) (quantity : asset) (guess : Z)
      (ait : list account) (max_bankroll : asset) (s s' : state) :
  tables_ok s ->
  do_bet_scan now player quantity guess ait max_bankroll s = Ok (inl s') ->
  tables_ok s'.
Proof.
  intros Hok H.
  destruct (do_bet_scan_matched _ _ _ _ _ _ _ _ H)
    as [acct [eg [rest [s1 [em [_ [_ [_ [Hsub [Hf ->]]]]]]]]]].
  destruct (sub_balance_tables_ok _ _ _ _ _ Hok Hsub) as [Ha [Hg Hm]].
  split; [exact Ha|]. split; [apply erase_key_table_ok; exact Hg|].
  cbn [matches].
  apply (modify_table_ok match_pk (Some em)
           (fun m => mk_match (m_commitment m) (m_host m) guess player quantity
                              (uint32 (now + GAME_TIMEOUT_SECS)))
           (matches s1)); [exact Hm|].
  unfold modify, match_pk. cbn [m_commitment]. rewrite Z.eqb_refl. reflexivity.
Qed.

Lemma apply_tables_ok (auth : list name) (now : Z) (a : action) (s s' : state) :
  tables_ok s ->
  apply self sha256 asset_to_string auth now a s = Ok s' -> tables_ok s'.
Proof.
  intros Hok H. destruct a; simpl in H.
  - unfold withdraw in H. inv_ok H. subst s'.
    exact (sub_balance_tables_ok _ _ _ _ _ Hok Hstep3).
  - unfold commit in H. inv_ok H. subst s'. destruct Hok as [Ha [Hg Hm]].
    split; [exact Ha|].
    split; [exact (emplace_table_ok _ _ _ _ _ Hg Hstep3)
           | exact (emplace_table_ok _ _ _ _ _ Hm Hstep4)].
  - unfold cancelcommit in H. inv_ok H.
    destruct (find match_pk (get_hash_prefix commitment) (matches s)); [|discriminate].
    inv_ok H. subst s'. destruct Hok as [Ha [Hg Hm]].
    unfold erase in Hstep1.
    destruct (find game_pk (get_hash_prefix commitment) (games s)); [|discriminate].
    injection Hstep1 as <-.
    split; [exact Ha|]. split; apply erase_key_table_ok; assumption.
  - unfold reveal in H. inv_ok H.
    destruct (find match_pk (get_hash_prefix commitment) (matches s)) as [em|];
      [|discriminate].
    apply bind_Ok in H. destruct H as [s1 [H1 H2]]. injection H2 as <-.
    assert (Hok1 : tables_ok s1).
    { destruct (negb (m_guess em =? NULL_GUESS)).
      - apply bind_Ok in H1. destruct H1 as [doubled [_ H1]].
        apply bind_Ok in H1. destruct H1 as [win [_ H1]].
        destruct (Z.land (byte_at 31 source) 1 =? m_guess em);
          apply add_balance_tables_ok in H1; try exact H1; exact Hok.
      - inv_ok H1. subst s1. destruct Hok as [Ha [Hg Hm]].
        unfold erase in Hstep0.
        destruct (find game_pk (get_hash_prefix commitment) (games s)); [|discriminate].
        injection Hstep0 as <-.
        split; [exact Ha|]. split; [apply erase_key_table_ok; exact Hg | exact Hm]. }
    destruct Hok1 as [Ha [Hg Hm]].
    split; [exact Ha|]. split; [exact Hg | apply erase_key_table_ok; exact Hm].
  - exact (collect_loop_tables_ok _ _ _ _ _ Hok H).
  - unfold acorn_transfer in H. destruct (from =? self); [now injection H as <-|].
    inv_ok H.
    assert (Hbet : forall g, do_bet asset_to_string now from quantity g s = Ok s' ->
                             tables_ok s').
    { intros g Hb. unfold do_bet in Hb. apply bind_Ok in Hb.
      destruct Hb as [[s1|mb] [Hscan Hb]].
      - injection Hb as <-. exact (do_bet_scan_tables_ok _ _ _ _ _ _ _ _ Hok Hscan).
      - apply bind_Ok in Hb. destruct Hb as [mx [_ Hb]].
        destruct (amount mx <? MIN_TRANSFER_SHELLS); discriminate. }
    destruct (_ || _)%bool; [now apply (Hbet 1)|].
    destruct (_ || _)%bool; [now apply (Hbet 0)|].
    destruct (_ || _)%bool; [|discriminate].
    exact (add_balance_tables_ok _ _ _ _ _ Hok H).
Qed.

(** In every reachable state the three tables are in ascending key order,
    without a repeated key. *)
Lemma reachable_tables_ok (s : state) :
  reachable self sha256 asset_to_string s -> tables_ok s.
Proof.
  intros [clock H]. induction H as [|clock now auth a s s' _ IH _ Happ].
  - repeat split.
  - exact (apply_tables_ok _ _ _ _ _ IH Happ).
Qed.
End TablesInvariant.

(** ** Offer/Bet duality away from the sweep of the empty name

    The run that breaks the duality ends with [collect] called for the empty
    name.  Every other action keeps it. *)

Lemma add_balance_frame (who : name) (value : asset) (enforce_min : bool) (s s' : state) :
  add_balance who value enforce_min s = Ok s' ->
  games s' = games s /\ matches s' = matches s /\ sent s' = sent s.
Proof.
  intros H. unfold add_balance in H.
  destruct (sec_find get_owner who (accounts s)); inv_ok H; subst s'; auto.
Qed.

Lemma sub_balance_frame (who : name) (value : asset) (enforce_min : bool) (s s' : state) :
  sub_balance who value enforce_min s = Ok s' ->
  (games s' = games s /\ matches s' = matches s) \/
  cancel_offers (sec_find get_host who (games s)) (matches s) (games s) =
  Ok (matches s', games s').
Proof.
  intros H. unfold sub_balance in H.
  destruct (sec_find get_owner who (accounts s)) as [|a rest]; [discriminate|].
  apply bind_Ok in H. destruct H as [u [_ H]].
  apply bind_Ok in H. destruct H as [res [_ H]].
  destruct (amount res =? 0).
  - right. apply bind_Ok in H. destruct H as [[mts' gms'] [Hco H]].
    injection H as <-. exact Hco.
  - left. inv_ok H. subst s'. auto.
Qed.

Lemma mirrored_filter (P : Z -> Prop) (gms gms' : list game) (mts mts' : list match_) :
  (forall g, In g gms' <-> In g gms /\ P (game_pk g)) ->
  (forall m, In m mts' <-> In m mts /\ P (match_pk m)) ->
  mirrored gms mts -> mirrored gms' mts'.
Proof.
  intros Hg Hm Hd k. split.
  - intros [g [Hin Hk]]. apply Hg in Hin. destruct Hin as [Hin HP].
    destruct (proj1 (Hd k) (ex_intro _ g (conj Hin Hk))) as [m [Hmin [Hmk Hmg]]].
    exists m. split; [|now split]. apply Hm. split; [exact Hmin|].
    rewrite Hmk, <- Hk. exact HP.
  - intros [m [Hin [Hk Hgu]]]. apply Hm in Hin. destruct Hin as [Hin HP].
    destruct (proj2 (Hd k) (ex_intro _ m (conj Hin (conj Hk Hgu)))) as [g [Hgin Hgk]].
    exists g. split; [|exact Hgk]. apply Hg. split; [exact Hgin|].
    rewrite Hgk, <- Hk. exact HP.
Qed.

Lemma mirrored_drop_taken (gms : list game) (mts mts' : list match_) :
  (forall m, In m mts' -> In m mts) ->
  (forall m, In m mts -> m_guess m = NULL_GUESS -> In m mts') ->
  mirrored gms mts -> mirrored gms mts'.
Proof.
  intros Hsub Hkeep Hd k. rewrite (Hd k). split.
  - intros [m [Hin [Hk Hg]]]. exists m. split; [now apply Hkeep | now split].
  - intros [m [Hin [Hk Hg]]]. exists m. split; [now apply Hsub | now split].
Qed.

(** Erasing a Bet that has been taken loses no placeholder. *)
Lemma mirrored_erase_taken (gms : list game) (mts : list match_) (em : match_) :
  offers_inv gms mts -> In em mts -> m_guess em <> NULL_GUESS ->
  mirrored gms mts -> mirrored gms (erase_key match_pk (match_pk em) mts).
Proof.
  intros Ho Hem Hact Hd. apply (mirrored_drop_taken gms mts); [apply erase_key_incl| |exact Hd].
  intros m Hin Hg. apply erase_key_In. split; [exact Hin|]. intros Hk.
  destruct (proj2 (Hd (match_pk m)) (ex_intro _ m (conj Hin (conj eq_refl Hg))))
    as [g [Hgin Hgk]].
  apply Hact. apply (Ho g em Hgin Hem). congruence.
Qed.

Lemma cancel_offers_mirrored (git : list game) (mts mts' : list match_)
      (gms gms' : list game) :
  cancel_offers git mts gms = Ok (mts', gms') ->
  mirrored gms mts -> mirrored gms' mts'.
Proof.
  intros Hco. destruct (cancel_offers_Ok _ _ _ _ _ Hco) as [Hm Hg].
  apply (mirrored_filter (fun k => forall g, In g git -> k <> game_pk g)); assumption.
Qed.

Lemma sub_balance_mirrored (who : name) (value : asset) (enforce_min : bool)
      (s s' : state) :
  sub_balance who value enforce_min s = Ok s' ->
  mirrored (games s) (matches s) -> mirrored (games s') (matches s').
Proof.
  intros H Hd. destruct (sub_balance_frame _ _ _ _ _ H) as [[-> ->]|Hco];
    [exact Hd | exact (cancel_offers_mirrored _ _ _ _ _ Hco Hd)].
Qed.

Lemma sub_balance_offers_inv (who : name) (value : asset) (enforce_min : bool)
      (s s' : state) :
  sub_balance who value enforce_min s = Ok s' ->
  offers_inv (games s) (matches s) -> offers_inv (games s') (matches s').
Proof.
  intros H Ho. destruct (sub_balance_frame _ _ _ _ _ H) as [[-> ->]|Hco]; [exact Ho|].
  destruct (cancel_offers_Ok _ _ _ _ _ Hco) as [Hm Hg].
  apply (offers_inv_incl (games s) _ (matches s)); [| |exact Ho].
  - intros g Hin. now apply Hg in Hin.
  - intros m Hin. now apply Hm in Hin.
Qed.

Section DualityKept.
Variable self : name.
Variable sha256 : list byte -> checksum256.
Variable asset_to_string : asset -> string.

(** What a successful [reveal] has done to the two pools. *)
Lemma reveal_tables (commitment source : checksum256) (s s' : state) :
  reveal self sha256 commitment source s = Ok s' ->
  exists em,
    In em (matches s) /\ match_pk em = get_hash_prefix commitment /\
    matches s' = erase_key match_pk (match_pk em) (matches s) /\
    ((m_guess em <> NULL_GUESS /\ games s' = games s) \/
     (m_guess em = NULL_GUESS /\
      games s' = erase_key game_pk (get_hash_prefix commitment) (games s))).
Proof.
  intros H. unfold reveal in H. inv_ok H.
  destruct (find match_pk (get_hash_prefix commitment) (matches s)) as [em|] eqn:Ef;
    [|discriminate].
  apply find_In in Ef. destruct Ef as [Hin Hk].
  apply bind_Ok in H. destruct H as [s1 [H1 H2]]. injection H2 as <-.
  exists em. split; [exact Hin|]. split; [exact Hk|]. cbn [matches games set_matches].
  destruct (m_guess em =? NULL_GUESS) eqn:Eg; cbn [negb] in H1.
  - apply Z.eqb_eq in Eg. inv_ok H1. subst s1. cbn [matches games set_games].
    split; [reflexivity|]. right. split; [exact Eg|].
    unfold erase in Hstep0.
    destruct (find game_pk (get_hash_prefix commitment) (games s)) as [eg|] eqn:Efg;
      [|discriminate].
    injection Hstep0 as <-. apply find_In in Efg. destruct Efg as [_ ->]. reflexivity.
  - apply Z.eqb_neq in Eg.
    apply bind_Ok in H1. destruct H1 as [doubled [_ H1]].
    apply bind_Ok in H1. destruct H1 as [win [_ H1]].
    assert (games s1 = games s /\ matches s1 = matches s) as [-> ->].
    { destruct (Z.land (byte_at 31 source) 1 =? m_guess em);
        apply add_balance_frame in H1; destruct H1 as [Hg [Hm _]]; now split. }
    split; [reflexivity|]. left. now split.
Qed.

Lemma acorn_transfer_cases (now : Z) (from to : name) (quantity : asset)
      (memo : string) (s s' : state) :
  acorn_transfer self asset_to_string now from to quantity memo s = Ok s' ->
  s' = s \/
  (exists guess, guess <> NULL_GUESS /\
                 do_bet asset_to_string now from quantity guess s = Ok s') \/
  add_balance from quantity true s = Ok s'.
Proof.
  intros H. unfold acorn_transfer in H.
  destruct (from =? self); [left; now injection H as <-|].
  inv_ok H.
  destruct (_ || _)%bool;
    [right; left; exists 1; split; [vm_compute; discriminate | exact H]|].
  destruct (_ || _)%bool;
    [right; left; exists 0; split; [vm_compute; discriminate | exact H]|].
  destruct (_ || _)%bool; [right; right; exact H | discriminate].
Qed.

Lemma do_bet_Ok (now : Z) (player : name) (quantity : asset) (guess : Z) (s s' : state) :
  do_bet asset_to_string now player quantity guess s = Ok s' ->
  exists eg s1 em,
    sub_balance (g_host eg) quantity false s = Ok s1 /\
    In em (matches s1) /\ match_pk em = game_pk eg /\
    games s' = erase_key game_pk (game_pk eg) (games s1) /\
    matches s' = map (fun x => if match_pk x =? match_pk em
                               then mk_match (m_commitment em) (m_host em) guess player
                                             quantity (uint32 (now + GAME_TIMEOUT_SECS))
                               else x) (matches s1).
Proof.
  intros H. unfold do_bet in H. apply bind_Ok in H. destruct H as [[s0|mb] [Hscan H]].
  2:{ apply bind_Ok in H. destruct H as [mx [_ H]].
      destruct (amount mx <? MIN_TRANSFER_SHELLS); discriminate. }
  injection H as ->.
  destruct (do_bet_scan_matched _ _ _ _ _ _ _ _ Hscan)
    as [acct [eg [rest [s1 [em [_ [Hg [_ [Hsub [Hf ->]]]]]]]]]].
  apply sec_find_head in Hg. destruct Hg as [Hhost _]. unfold get_host in Hhost.
  apply find_In in Hf. destruct Hf as [Hin Hk].
  exists eg, s1, em. rewrite Hhost. auto.
Qed.

Lemma cancelcommit_tables (auth : list name) (host : name) (commitment : checksum256)
      (s s' : state) :
  cancelcommit auth host commitment s = Ok s' ->
  matches s' = erase_key match_pk (get_hash_prefix commitment) (matches s) /\
  games s' = erase_key game_pk (get_hash_prefix commitment) (games s).
Proof.
  intros H. unfold cancelcommit in H. inv_ok H.
  destruct (find match_pk (get_hash_prefix commitment) (matches s)) as [em|] eqn:Ef;
    [|discriminate].
  inv_ok H. subst s'. cbn [matches games].
  unfold erase in Hstep1.
  destruct (find game_pk (get_hash_prefix commitment) (games s)) as [eg|] eqn:Eg;
    [|discriminate].
  injection Hstep1 as <-.
  apply find_In in Ef. destruct Ef as [_ ->].
  apply find_In in Eg. destruct Eg as [_ ->]. auto.
Qed.

Lemma apply_placeholders (auth : list name) (now : Z) (a : action) (s s' : state) :
  placeholders_inv (matches s) ->
  apply self sha256 asset_to_string auth now a s = Ok s' ->
  placeholders_inv (matches s').
Proof.
  intros Hp H.
  assert (Hincl : forall t, (forall m, In m t -> In m (matches s)) -> placeholders_inv t).
  { intros t Hsub m Hin. apply Hp. now apply Hsub. }
  assert (Hsubb : forall who value e s1,
             sub_balance who value e s = Ok s1 -> placeholders_inv (matches s1)).
  { intros who value e s1 Hsub.
    destruct (sub_balance_frame _ _ _ _ _ Hsub) as [[_ ->]|Hco]; [exact Hp|].
    apply Hincl. intros m Hin. destruct (cancel_offers_Ok _ _ _ _ _ Hco) as [Hm _].
    now apply Hm in Hin. }
  destruct a; simpl in H.
  - unfold withdraw in H. inv_ok H. subst s'. cbn [matches pay].
    exact (Hsubb _ _ _ _ Hstep3).
  - unfold commit in H. inv_ok H. subst s'. cbn [matches].
    intros m Hin Hg. apply (emplace_In _ _ _ _ _ Hstep4) in Hin.
    destruct Hin as [->|Hin]; [now split | now apply Hp].
  - apply cancelcommit_tables in H. destruct H as [-> _].
    apply Hincl. apply erase_key_incl.
  - apply reveal_tables in H. destruct H as [em [_ [_ [-> _]]]].
    apply Hincl. apply erase_key_incl.
  - apply Hincl. exact (proj2 (proj2 (collect_loop_frame self _ _ _ _ _ H))).
  - destruct (acorn_transfer_cases _ _ _ _ _ _ _ H) as [->|[[guess [Hg Hb]]|Hadd]].
    + exact Hp.
    + destruct (do_bet_Ok _ _ _ _ _ _ Hb) as [eg [s1 [em [Hsub [_ [_ [_ ->]]]]]]].
      pose proof (Hsubb _ _ _ _ Hsub) as Hp1.
      intros m Hin Hgm. apply in_map_iff in Hin. destruct Hin as [x [Hx Hin]].
      destruct (match_pk x =? match_pk em).
      * subst m. cbn [m_guess] in Hgm. contradiction.
      * subst m. now apply Hp1.
    + apply add_balance_frame in Hadd. destruct Hadd as [_ [-> _]]. exact Hp.
Qed.

Lemma apply_offers_inv (auth : list name) (now : Z) (a : action) (s s' : state) :
  state_inv s ->
  apply self sha256 asset_to_string auth now a s = Ok s' ->
  offers_inv (games s') (matches s').
Proof.
  intros Hinv H. exact (proj2 (proj2 (apply_inv self sha256 asset_to_string _ _ _ _ _ Hinv H))).
Qed.

(** Every action other than a sweep for the empty name keeps the Offers
    and the unset-guess Bets on the same keys. *)
Lemma apply_keeps_duality (auth : list name) (now : Z) (a : action) (s s' : state) :
  state_inv s -> placeholders_inv (matches s) -> duality s ->
  not_empty_sweep a ->
  apply self sha256 asset_to_string auth now a s = Ok s' ->
  duality s'.
Proof.
  unfold duality. intros [_ [_ Ho]] Hp Hd Hne H. destruct a; simpl in H.
  - unfold withdraw in H. inv_ok H. subst s'. cbn [matches games pay].
    exact (sub_balance_mirrored _ _ _ _ _ Hstep3 Hd).
  - unfold commit in H. inv_ok H. subst s'. cbn [matches games].
    pose proof (emplace_In _ _ _ _ _ Hstep3) as Hg.
    pose proof (emplace_In _ _ _ _ _ Hstep4) as Hm.
    intros k. split.
    + intros [g [Hin Hk]]. apply Hg in Hin. destruct Hin as [->|Hin].
      * eexists. split; [apply Hm; left; reflexivity|]. split; [exact Hk | reflexivity].
      * destruct (proj1 (Hd k) (ex_intro _ g (conj Hin Hk))) as [m [Hmin Hrest]].
        exists m. split; [apply Hm; now right | exact Hrest].
    + intros [m [Hin [Hk Hgu]]]. apply Hm in Hin. destruct Hin as [->|Hin].
      * eexists. split; [apply Hg; left; reflexivity | exact Hk].
      * destruct (proj2 (Hd k) (ex_intro _ m (conj Hin (conj Hk Hgu)))) as [g [Hgin Hgk]].
        exists g. split; [apply Hg; now right | exact Hgk].
  - apply cancelcommit_tables in H. destruct H as [-> ->].
    apply (mirrored_filter (fun k => k <> get_hash_prefix commitment)
                           (games s) _ (matches s)); [| |exact Hd]; intros x;
      apply erase_key_In.
  - apply reveal_tables in H. destruct H as [em [Hin [Hk [-> [[Hact ->]|[Hph ->]]]]]].
    + exact (mirrored_erase_taken _ _ _ Ho Hin Hact Hd).
    + rewrite Hk.
      apply (mirrored_filter (fun k => k <> get_hash_prefix commitment)
                             (games s) _ (matches s)); [| |exact Hd]; intros x;
        apply erase_key_In.
  - unfold collect in H. simpl in Hne.
    destruct (collect_loop_frame self _ _ _ _ _ H) as [_ [-> _]].
    destruct (collect_loop_Ok self _ _ _ _ _ H) as [Hm _].
    apply (mirrored_drop_taken (games s) (matches s)); [| |exact Hd].
    + intros m Hin. now apply Hm in Hin.
    + intros m Hin Hg. apply Hm. split; [exact Hin|].
      intros e He _ Hk.
      pose proof (sec_find_ge _ get_player _ _ _ He) as Hge. unfold get_player in Hge.
      pose proof (sec_find_In _ get_player _ _ _ He) as Hein.
      destruct (proj2 (Hd (match_pk m)) (ex_intro _ m (conj Hin (conj eq_refl Hg))))
        as [g [Hgin Hgk]].
      assert (Heg : m_guess e = NULL_GUESS) by (apply (Ho g e Hgin Hein); congruence).
      destruct (Hp e Hein Heg) as [Hpl _]. unfold NULL_NAME in Hpl. lia.
  - destruct (acorn_transfer_cases _ _ _ _ _ _ _ H) as [->|[[guess [Hg Hb]]|Hadd]].
    + exact Hd.
    + destruct (do_bet_Ok _ _ _ _ _ _ Hb) as [eg [s1 [em [Hsub [Hem [Hk [-> ->]]]]]]].
      pose proof (sub_balance_mirrored _ _ _ _ _ Hsub Hd) as Hd1.
      intros k. split.
      * intros [g [Hin Hgk]]. apply erase_key_In in Hin. destruct Hin as [Hin Hne'].
        destruct (proj1 (Hd1 k) (ex_intro _ g (conj Hin Hgk))) as [m [Hmin [Hmk Hmg]]].
        exists m. split; [|now split].
        apply in_map_iff. exists m. split; [|exact Hmin].
        assert ((match_pk m =? match_pk em) = false) as ->; [|reflexivity].
        apply Z.eqb_neq. congruence.
      * intros [m [Hin [Hmk Hmg]]]. apply in_map_iff in Hin.
        destruct Hin as [x [Hx Hin]].
        destruct (match_pk x =? match_pk em) eqn:Ex.
        -- subst m. cbn [m_guess] in Hmg. contradiction.
        -- subst x. apply Z.eqb_neq in Ex.
           destruct (proj2 (Hd1 k) (ex_intro _ m (conj Hin (conj Hmk Hmg))))
             as [g [Hgin Hgk]].
           exists g. split; [|exact Hgk]. apply erase_key_In. split; [exact Hgin|].
           congruence.
    + apply add_balance_frame in Hadd. destruct Hadd as [-> [-> _]]. exact Hd.
Qed.

(** A run without a sweep for the empty name ends in a state where the
    duality holds. *)
Lemma run_keeps_duality (trace : list (list name * Z * action)) (clock : Z) (s s' : state) :
  state_inv s -> placeholders_inv (matches s) -> duality s ->
  Forall (fun step => not_empty_sweep (snd step)) trace ->
  run self sha256 asset_to_string clock trace s = Ok s' ->
  duality s'.
Proof.
  revert clock s. induction trace as [|[[auth now] a] trace IH]; simpl;
    intros clock s Hinv Hp Hd Hall H.
  - now injection H as <-.
  - apply bind_Ok in H. destruct H as [u [_ H]].
    apply bind_Ok in H. destruct H as [s1 [Happ H]].
    inversion Hall as [|? ? Hne Hall']; subst. simpl in Hne.
    apply (IH now s1); [| | |exact Hall' | exact H].
    + exact (apply_inv self sha256 asset_to_string _ _ _ _ _ Hinv Happ).
    + exact (apply_placeholders _ _ _ _ _ Hp Happ).
    + exact (apply_keeps_duality _ _ _ _ _ Hinv Hp Hd Hne Happ).
Qed.

Lemma init_state_duality : duality init_state.
Proof. intros k. split; intros [x [[] _]]. Qed.
End DualityKept.

(** ** Sweeping the placeholders *)

Section SweepFacts.
Variable self : name.
Variable sha256 : list byte -> checksum256.
Variable asset_to_string : asset -> string.

Lemma reachable_placeholders (s : state) :
  reachable self sha256 asset_to_string s -> placeholders_inv (matches s).
Proof.
  intros [clock H]. induction H as [|clock now auth a s s' _ IH _ Happ].
  - intros m [].
  - exact (apply_placeholders self sha256 asset_to_string _ _ _ _ _ IH Happ).
Qed.

(** C10: [commit] creates the placeholder Bet with the empty name as player,
    a wager of zero and its own creation time as deadline.  [collect] asks
    for no authorisation: whatever accounts signed the action, it runs the
    same.  Called for the empty name it walks every placeholder: each one
    whose creation time has passed is erased and a payment of zero to the
    empty name is queued for it, while the table of Offers is left as it
    was. *)
Theorem collect_empty_name_sweeps_placeholders (s : state) :
  (reachable self sha256 asset_to_string s ->
   forall m, In m (matches s) -> m_guess m = NULL_GUESS ->
             m_player m = NULL_NAME /\ m_bet m = ZERO_ACORNS) /\
  (forall auth now,
      apply self sha256 asset_to_string auth now (Collect NULL_NAME) s =
      collect self now NULL_NAME s) /\
  (forall auth now host commitment s1,
      commit auth now host commitment s = Ok s1 ->
      find match_pk (get_hash_prefix commitment) (matches s1) =
      Some (mk_match commitment host NULL_GUESS NULL_NAME ZERO_ACORNS now) /\
      find game_pk (get_hash_prefix commitment) (games s1) =
      Some (mk_game commitment host)) /\
  (forall now s2,
      collect self now NULL_NAME s = Ok s2 ->
      games s2 = games s /\
      exists swept,
        sent s2 = (sent s ++ map (timeout_payment self NULL_NAME) swept)%list /\
        (forall e, In e swept -> In e (matches s) /\ m_deadline e < now) /\
        (forall m, In m (matches s2) <->
                   In m (matches s) /\
                   forall e, In e swept -> match_pk m <> match_pk e) /\
        (forall m, In m (matches s) ->
                   m_guess m = NULL_GUESS -> m_player m = NULL_NAME ->
                   m_bet m = ZERO_ACORNS -> m_deadline m < now ->
                   In m swept /\
                   timeout_payment self NULL_NAME m =
                   mk_transfer self NULL_NAME ZERO_ACORNS "Win! (Timeout)" /\
                   find match_pk (match_pk m) (matches s2) = None)) /\
  (forall now,
      (forall e, In e (matches s) -> - max_amount <= amount (m_bet e) * 2 <= max_amount) ->
      exists s2, collect self now NULL_NAME s = Ok s2).
Proof.
  split; [intros Hr; exact (reachable_placeholders s Hr)|].
  split; [reflexivity|]. split; [|split].
  - intros auth now host commitment s1 H. unfold commit in H. inv_ok H. subst s1. simpl.
    split.
    + exact (emplace_find_new _ match_pk _ _ _ Hstep4).
    + exact (emplace_find_new _ game_pk _ _ _ Hstep3).
  - intros now s2 H. unfold collect in H.
    destruct (collect_loop_frame self _ _ _ _ _ H) as [_ [Hg _]].
    destruct (collect_loop_Ok self _ _ _ _ _ H) as [Hm Hs].
    split; [exact Hg|].
    set (it := sec_find get_player NULL_NAME (matches s)) in *.
    exists (filter (fun e => now >? m_deadline e) it).
    assert (Hsw : forall e, In e (filter (fun e => now >? m_deadline e) it) <->
                            In e it /\ m_deadline e < now).
    { intros e. rewrite filter_In, Z.gtb_lt. tauto. }
    split; [exact Hs|]. split; [|split].
    + intros e He. apply Hsw in He. destruct He as [He Hd].
      split; [|exact Hd]. exact (sec_find_In _ get_player _ _ _ He).
    + intros m. rewrite Hm. split; intros [Hin Hall]; (split; [exact Hin|]).
      * intros e He. apply Hsw in He. now apply Hall.
      * intros e He Hd. apply Hall. apply Hsw. now split.
    + intros m Hin Hg' Hp Hb Hd.
      assert (Hit : In m it) by exact (sec_find_complete _ get_player _ _ _ Hin Hp).
      split; [apply Hsw; now split|]. split.
      * unfold timeout_payment. rewrite Hb. reflexivity.
      * apply find_None. intros r Hr. apply Hm in Hr. destruct Hr as [_ Hall].
        now apply Hall.
  - intros now Hr. unfold collect. apply collect_loop_total.
    intros e He. apply Hr. exact (sec_find_In _ get_player _ _ _ He).
Qed.
End SweepFacts.

(** The theorem above on Alice's open offer, swept by a call made one second
    after the commitment. *)
Lemma collect_empty_name_sweeps_placeholders_witness :
  collect Ex.SELF 11 NULL_NAME Ex.offer_open = Ok Ex.swept /\
  games Ex.swept = games Ex.offer_open /\
  matches Ex.swept = [] /\
  sent Ex.swept = [mk_transfer Ex.SELF NULL_NAME ZERO_ACORNS "Win! (Timeout)"].
Proof.
  assert (Hrun : collect Ex.SELF 11 NULL_NAME Ex.offer_open = Ok Ex.swept) by reflexivity.
  split; [exact Hrun|].
  destruct (collect_empty_name_sweeps_placeholders Ex.SELF Ex.digest Ex.show Ex.offer_open)
    as [_ [_ [_ [Hc _]]]].
  destruct (Hc 11 Ex.swept Hrun) as [Hg _].
  split; [exact Hg|]. split; reflexivity.
Defined.

(** ** The withdrawal of a whole bankroll goes through *)

Lemma insert_sec_perm {R : Type} (sk : R -> Z) (r : R) (idx : list R) :
  Permutation (insert_sec sk r idx) (r :: idx).
Proof.
  induction idx as [|x idx IH]; simpl; [apply Permutation_refl|].
  destruct (sk r <=? sk x); [apply Permutation_refl|].
  apply (Permutation_trans (perm_skip x IH)). apply perm_swap.
Qed.

Lemma index_order_perm {R : Type} (sk : R -> Z) (t : list R) :
  Permutation (index_order sk t) t.
Proof.
  induction t as [|x t IH]; simpl; [apply Permutation_refl|].
  apply (Permutation_trans (insert_sec_perm sk x _)). now apply perm_skip.
Qed.

Lemma lower_bound_suffix {R : Type} (sk : R -> Z) (k : Z) (idx : list R) :
  exists front, idx = (front ++ lower_bound sk k idx)%list.
Proof.
  induction idx as [|x idx [front IH]]; simpl; [now exists []|].
  destruct (sk x <? k).
  - exists (x :: front). simpl. now rewrite <- IH.
  - now exists [].
Qed.

(** The rows an iterator of a secondary index still has ahead of it do not
    share a primary key. *)
Lemma sec_find_keys_unique {R : Type} (pk sk : R -> Z) (k : Z) (t : list R) :
  keys_unique pk t -> keys_unique pk (sec_find sk k t).
Proof.
  unfold keys_unique. intros Hnd.
  assert (Hidx : NoDup (map pk (index_order sk t))).
  { apply (Permutation_NoDup (l := map pk t)); [|exact Hnd].
    apply Permutation_map. apply Permutation_sym. apply index_order_perm. }
  destruct (lower_bound_suffix sk k (index_order sk t)) as [front Hfront].
  rewrite Hfront, map_app in Hidx. apply NoDup_app_remove_l in Hidx.
  unfold sec_find. destruct (lower_bound sk k (index_order sk t)) as [|x rest];
    [constructor|].
  destruct (sk x =? k); [exact Hidx | constructor].
Qed.

Lemma cancel_offers_total (git : list game) (mts : list match_) (gms : list game) :
  keys_unique game_pk git ->
  (forall g, In g git -> exists m, In m mts /\ match_pk m = game_pk g) ->
  exists r, cancel_offers git mts gms = Ok r.
Proof.
  unfold keys_unique. revert mts gms.
  induction git as [|g git IH]; intros mts gms Hnd Hpair; simpl; [now eexists|].
  inversion Hnd as [|? ? Hfresh Hnd']; subst.
  destruct (Hpair g (or_introl eq_refl)) as [m [Hm Hk]].
  destruct (find match_pk (game_pk g) mts) as [em|] eqn:Ef.
  - cbn [erase bind]. apply IH; [exact Hnd'|].
    intros g' Hg'. destruct (Hpair g' (or_intror Hg')) as [m' [Hm' Hk']].
    exists m'. split; [|exact Hk']. apply erase_key_In. split; [exact Hm'|].
    apply find_In in Ef. destruct Ef as [_ Hke]. rewrite Hke, Hk'.
    intros Heq. apply Hfresh. rewrite <- Heq. now apply in_map.
  - exfalso. exact (proj1 (find_None _ _ _ _) Ef m Hm Hk).
Qed.

Section WithdrawTotal.
Variable self : name.
Variable sha256 : list byte -> checksum256.
Variable asset_to_string : asset -> string.

(** Where the duality holds, the owner of the ledger row can always take the
    whole bankroll out. *)
Lemma withdraw_to_zero_goes_through (s : state) (auth : list name) (to : name)
      (quantity : asset) :
  reachable self sha256 asset_to_string s -> duality s ->
  In to auth ->
  symbol quantity = ACORN_SYMBOL -> is_valid quantity = true ->
  sec_find get_owner to (accounts s) <> [] ->
  amount quantity = ledger_balance to s ->
  exists s', withdraw self auth to quantity s = Ok s'.
Proof.
  intros Hreach Hd Hauth Hsym Hvalid Hrow Hall.
  pose proof (reachable_tables_ok self sha256 asset_to_string s Hreach) as [_ [Hgk _]].
  apply reachable_inv in Hreach. destruct Hreach as [Hl _].
  unfold ledger_balance in Hall.
  destruct (ledger_inv_cases _ Hl) as [E|[a [E [Ha Hpa]]]]; rewrite E in Hrow, Hall;
    [now elim Hrow|].
  rewrite sec_find_single in Hrow, Hall.
  destruct (owner a =? to) eqn:Eo; [|now elim Hrow]. cbn [amount] in Hall.
  destruct (cancel_offers_total (sec_find get_host to (games s)) (matches s) (games s))
    as [r Hr].
  { apply sec_find_keys_unique. apply table_ok_unique. exact Hgk. }
  { intros g Hg. apply (sec_find_In _ get_host) in Hg.
    destruct (proj1 (Hd (game_pk g)) (ex_intro _ g (conj Hg eq_refl))) as [m [Hm [Hk _]]].
    now exists m. }
  unfold withdraw, require_auth.
  assert (existsb (Z.eqb to) auth = true) as ->.
  { apply existsb_exists. exists to. split; [exact Hauth | apply Z.eqb_refl]. }
  rewrite Hsym, Z.eqb_refl, Hvalid.
  assert ((amount quantity >? 0) = true) as -> by (apply Z.gtb_lt; lia).
  cbn [check bind]. unfold sub_balance. rewrite E, sec_find_single, Eo.
  assert ((amount (balance a) >=? amount quantity) = true) as ->
      by (apply Z.geb_le; lia).
  cbn [check bind].
  rewrite asset_sub_in_range;
    [|congruence | rewrite Hall, Z.sub_diag; unfold max_amount; lia].
  cbn [bind amount]. rewrite Hall, Z.sub_diag. cbn [Z.eqb].
  rewrite Hr. cbn [bind]. eexists. reflexivity.
Qed.
End WithdrawTotal.

(** * Further properties of the contract *)

(** ** Where the rows of a state come from *)

Section Provenance.
Variable self : name.
Variable sha256 : list byte -> checksum256.
Variable asset_to_string : asset -> string.

(** What an accepted transfer notification has checked and run. *)
Lemma acorn_transfer_Ok (now : Z) (from to : name) (quantity : asset)
      (memo : string) (s s' : state) :
  acorn_transfer self asset_to_string now from to quantity memo s = Ok s' ->
  (from = self /\ s' = s) \/
  (from <> self /\ symbol quantity = ACORN_SYMBOL /\
   MIN_TRANSFER_SHELLS <= amount quantity <= max_amount /\
   ((exists guess, (guess = 0 \/ guess = 1) /\
                   do_bet asset_to_string now from quantity guess s = Ok s') \/
    add_balance from quantity true s = Ok s')).
Proof.
  intros H. unfold acorn_transfer in H.
  destruct (from =? self) eqn:Ef.
  - left. apply Z.eqb_eq in Ef. split; [exact Ef | now injection H as <-].
  - right. apply Z.eqb_neq in Ef. inv_ok H.
    apply Z.eqb_eq in Hstep. apply Z.geb_le in Hstep1.
    unfold is_valid, is_amount_within_range in Hstep0.
    apply andb_true_iff in Hstep0. destruct Hstep0 as [_ Hhi]. apply Z.leb_le in Hhi.
    split; [exact Ef|]. split; [exact Hstep|]. split; [split; assumption|].
    destruct (_ || _)%bool; [left; exists 1; split; [now right | exact H]|].
    destruct (_ || _)%bool; [left; exists 0; split; [now left | exact H]|].
    destruct (_ || _)%bool; [right; exact H | discriminate].
Qed.

Lemma sub_balance_incl (who : name) (value : asset) (enforce_min : bool) (s s' : state) :
  sub_balance who value enforce_min s = Ok s' ->
  (forall m, In m (matches s') -> In m (matches s)) /\
  (forall g, In g (games s') -> In g (games s)).
Proof.
  intros H. destruct (sub_balance_frame _ _ _ _ _ H) as [[-> ->]|Hco]; [auto|].
  destruct (cancel_offers_Ok _ _ _ _ _ Hco) as [Hm Hg].
  split; [intros m Hin; now apply Hm in Hin | intros g Hin; now apply Hg in Hin].
Qed.

(** A Bet of the state after an action was there before, or is the
    placeholder of the commitment just published, or is the Bet a wager has
    just taken. *)
Lemma apply_matches_provenance (auth : list name) (now : Z) (a : action) (s s' : state) :
  apply self sha256 asset_to_string auth now a s = Ok s' ->
  forall m, In m (matches s') ->
    In m (matches s) \/
    (exists host commitment,
        a = Commit host commitment /\
        get_hash_prefix commitment <> ZERO_SOURCE /\
        m = mk_match commitment host NULL_GUESS NULL_NAME ZERO_ACORNS now) \/
    (exists from to quantity memo guess em,
        a = AcornTransfer from to quantity memo /\
        In em (matches s) /\ (guess = 0 \/ guess = 1) /\
        symbol quantity = ACORN_SYMBOL /\
        MIN_TRANSFER_SHELLS <= amount quantity <= max_amount /\
        m = mk_match (m_commitment em) (m_host em) guess from quantity
                     (uint32 (now + GAME_TIMEOUT_SECS))).
Proof.
  intros H m Hin. destruct a; simpl in H.
  - left. unfold withdraw in H. inv_ok H. subst s'. cbn [matches pay] in Hin.
    exact (proj1 (sub_balance_incl _ _ _ _ _ Hstep3) m Hin).
  - unfold commit in H. inv_ok H. subst s'. cbn [matches] in Hin.
    apply (emplace_In _ _ _ _ _ Hstep4) in Hin. destruct Hin as [->|Hin]; [|now left].
    right. left. exists host, commitment. split; [reflexivity|]. split; [|reflexivity].
    apply negb_true_iff in Hstep1. now apply Z.eqb_neq.
  - left. apply cancelcommit_tables in H. destruct H as [Hm _]. rewrite Hm in Hin.
    now apply erase_key_incl in Hin.
  - left. apply reveal_tables in H. destruct H as [em [_ [_ [Hm _]]]]. rewrite Hm in Hin.
    now apply erase_key_incl in Hin.
  - left. exact (proj2 (proj2 (collect_loop_frame self _ _ _ _ _ H)) m Hin).
  - destruct (acorn_transfer_Ok _ _ _ _ _ _ _ H)
      as [[_ ->]|[_ [Hsym [Hrange [[guess [Hg Hb]]|Hadd]]]]].
    + now left.
    + destruct (do_bet_Ok _ _ _ _ _ _ _ Hb) as [eg [s1 [em [Hsub [Hem [_ [_ Hm]]]]]]].
      pose proof (proj1 (sub_balance_incl _ _ _ _ _ Hsub)) as Hincl.
      rewrite Hm in Hin. apply in_map_iff in Hin. destruct Hin as [x [Hx Hxin]].
      destruct (match_pk x =? match_pk em).
      * right. right. exists from, to, quantity, memo, guess, em.
        split; [reflexivity|]. split; [now apply Hincl|]. auto.
      * left. subst x. now apply Hincl.
    + left. apply add_balance_frame in Hadd. destruct Hadd as [_ [Hm _]].
      now rewrite Hm in Hin.
Qed.

(** An Offer of the state after an action was there before, or is the one
    just published by a host that holds a ledger row. *)
Lemma apply_games_provenance (auth : list name) (now : Z) (a : action) (s s' : state) :
  apply self sha256 asset_to_string auth now a s = Ok s' ->
  forall g, In g (games s') ->
    In g (games s) \/
    (exists host commitment,
        a = Commit host commitment /\ g = mk_game commitment host /\
        get_hash_prefix commitment <> ZERO_SOURCE /\
        accounts s' = accounts s /\
        sec_find get_owner host (accounts s) <> []).
Proof.
  intros H g Hin. destruct a; simpl in H.
  - left. unfold withdraw in H. inv_ok H. subst s'. cbn [games pay] in Hin.
    exact (proj2 (sub_balance_incl _ _ _ _ _ Hstep3) g Hin).
  - unfold commit in H. inv_ok H. subst s'. cbn [games accounts] in *.
    apply (emplace_In _ _ _ _ _ Hstep3) in Hin. destruct Hin as [->|Hin]; [|now left].
    right. exists host, commitment. split; [reflexivity|]. split; [reflexivity|].
    split; [apply negb_true_iff in Hstep1; now apply Z.eqb_neq|]. split; [reflexivity|].
    intros E. rewrite E in Hstep0. discriminate.
  - left. apply cancelcommit_tables in H. destruct H as [_ Hg]. rewrite Hg in Hin.
    now apply erase_key_incl in Hin.
  - left. apply reveal_tables in H. destruct H as [em [_ [_ [_ [[_ Hg]|[_ Hg]]]]]];
      rewrite Hg in Hin; [exact Hin | now apply erase_key_incl in Hin].
  - left. destruct (collect_loop_frame self _ _ _ _ _ H) as [_ [Hg _]]. now rewrite <- Hg.
  - destruct (acorn_transfer_Ok _ _ _ _ _ _ _ H)
      as [[_ ->]|[_ [_ [_ [[guess [_ Hb]]|Hadd]]]]].
    + now left.
    + left. destruct (do_bet_Ok _ _ _ _ _ _ _ Hb) as [eg [s1 [em [Hsub [_ [_ [Hg _]]]]]]].
      rewrite Hg in Hin. apply erase_key_incl in Hin.
      exact (proj2 (sub_balance_incl _ _ _ _ _ Hsub) g Hin).
    + left. apply add_balance_frame in Hadd. destruct Hadd as [Hg _].
      now rewrite Hg in Hin.
Qed.
End Provenance.

(** ** Keys of commitments *)

Lemma byte_val_bounds (b : byte) : 0 <= byte_val b < 256.
Proof.
  unfold byte_val. pose proof (Byte.to_N_bounded b). lia.
Qed.

Lemma be_fold_bounds (l : list byte) (acc : Z) :
  0 <= acc ->
  0 <= fold_left (fun a b => a * 256 + byte_val b) l acc
  < (acc + 1) * 256 ^ Z.of_nat (List.length l).
Proof.
  revert acc. induction l as [|b l IH]; intros acc Hacc.
  - simpl. lia.
  - cbn [fold_left List.length]. pose proof (byte_val_bounds b) as Hb.
    destruct (IH (acc * 256 + byte_val b) ltac:(lia)) as [Hlo Hhi].
    split; [exact Hlo|]. rewrite Nat2Z.inj_succ, Z.pow_succ_r by lia.
    assert (0 < 256 ^ Z.of_nat (List.length l)) by (apply Z.pow_pos_nonneg; lia).
    nia.
Qed.

(** X1: the key of a commitment is a 64-bit value read from bytes 8 to 15 of
    the digest alone: two commitments that agree on those eight bytes have
    the same key, whatever their other bytes. *)
Theorem get_hash_prefix_word (c1 c2 : checksum256) :
  firstn 8 (skipn 8 c1) = firstn 8 (skipn 8 c2) ->
  0 <= get_hash_prefix c1 < 2 ^ 64 /\ get_hash_prefix c1 = get_hash_prefix c2.
Proof.
  intros Heq. split; [|unfold get_hash_prefix; now rewrite Heq].
  unfold get_hash_prefix.
  pose proof (be_fold_bounds (firstn 8 (skipn 8 c1)) 0 ltac:(lia)) as [Hlo Hhi].
  split; [exact Hlo|].
  pose proof (firstn_le_length 8 (skipn 8 c1)) as Hlen.
  assert (256 ^ Z.of_nat (List.length (firstn 8 (skipn 8 c1))) <= 256 ^ 8).
  { apply Z.pow_le_mono_r; lia. }
  change (2 ^ 64) with (256 ^ 8). lia.
Qed.

(** The theorem above on Alice's first commitment and the same digest with
    its first byte changed. *)
Lemma get_hash_prefix_word_witness :
  x00 :: tl Ex.commitment1 <> Ex.commitment1 /\
  0 <= get_hash_prefix (x00 :: tl Ex.commitment1) < 2 ^ 64 /\
  get_hash_prefix (x00 :: tl Ex.commitment1) = get_hash_prefix Ex.commitment1.
Proof.
  split; [vm_compute; discriminate|].
  apply (get_hash_prefix_word (x00 :: tl Ex.commitment1) Ex.commitment1).
  reflexivity.
Defined.

(** ** Publishing a commitment *)

Lemma emplace_total {R : Type} (pk : R -> Z) (r : R) (t : list R) :
  (forall x, In x t -> pk x <> pk r) -> exists t', emplace pk r t = Ok t'.
Proof.
  induction t as [|y t IH]; intros Hfresh; simpl; [now eexists|].
  destruct (pk r <? pk y); [now eexists|].
  destruct (pk r =? pk y) eqn:E.
  - apply Z.eqb_eq in E. exfalso. apply (Hfresh y); [now left | congruence].
  - destruct IH as [t' Ht']; [intros x Hx; apply Hfresh; now right|].
    rewrite Ht'. now eexists.
Qed.

Lemma emplace_Ok_fresh {R : Type} (pk : R -> Z) (r : R) (t t' : list R) :
  table_ok pk t -> emplace pk r t = Ok t' -> forall x, In x t -> pk x <> pk r.
Proof.
  intros Hok H x Hx Hk. rewrite (emplace_duplicate _ pk r x t Hok Hx Hk) in H.
  discriminate.
Qed.

Lemma erase_key_fresh {R : Type} (pk : R -> Z) (k : Z) (t : list R) :
  (forall x, In x t -> pk x <> k) -> erase_key pk k t = t.
Proof.
  unfold erase_key. induction t as [|y t IH]; intros Hfresh; simpl; [reflexivity|].
  assert ((pk y =? k) = false) as -> by (apply Z.eqb_neq; apply Hfresh; now left).
  simpl. rewrite IH; [reflexivity | intros x Hx; apply Hfresh; now right].
Qed.

Lemma erase_emplace {R : Type} (pk : R -> Z) (r : R) (t t' : list R) :
  (forall x, In x t -> pk x <> pk r) -> emplace pk r t = Ok t' ->
  erase_key pk (pk r) t' = t.
Proof.
  revert t'. induction t as [|y t IH]; simpl; intros t' Hfresh H.
  - injection H as <-. unfold erase_key. simpl. now rewrite Z.eqb_refl.
  - destruct (pk r <? pk y).
    + injection H as <-. unfold erase_key. simpl. rewrite Z.eqb_refl. simpl.
      apply (erase_key_fresh pk (pk r) (y :: t)). exact Hfresh.
    + destruct (pk r =? pk y); [discriminate|].
      apply bind_Ok in H. destruct H as [t'' [H1 H2]]. injection H2 as <-.
      unfold erase_key. simpl.
      assert ((pk y =? pk r) = false) as -> by (apply Z.eqb_neq; apply Hfresh; now left).
      simpl. f_equal. apply IH; [intros x Hx; apply Hfresh; now right | exact H1].
Qed.

Lemma require_auth_Ok (auth : list name) (who : name) :
  require_auth auth who = Ok tt <-> In who auth.
Proof.
  unfold require_auth, check. split.
  - intros H. destruct (existsb (Z.eqb who) auth) eqn:E; [|discriminate].
    apply existsb_exists in E. destruct E as [x [Hx Hxe]].
    apply Z.eqb_eq in Hxe. now subst x.
  - intros H. assert (existsb (Z.eqb who) auth = true) as ->; [|reflexivity].
    apply existsb_exists. exists who. split; [exact H | apply Z.eqb_refl].
Qed.

(** X2: [commit] goes through exactly when the host signed, holds a ledger
    row, the key of the commitment is not the refused key of the zero
    source, and neither a Bet nor an Offer has that key; it then adds one
    Offer and one placeholder Bet and leaves the ledger and the payments
    alone. *)
Theorem commit_succeeds_iff (auth : list name) (now : Z) (host : name)
        (commitment : checksum256) (s : state) :
  table_ok game_pk (games s) ->
  ((exists s1, commit auth now host commitment s = Ok s1) <->
   (In host auth /\
    sec_find get_owner host (accounts s) <> [] /\
    get_hash_prefix commitment <> ZERO_SOURCE /\
    find match_pk (get_hash_prefix commitment) (matches s) = None /\
    find game_pk (get_hash_prefix commitment) (games s) = None)) /\
  (forall s1, commit auth now host commitment s = Ok s1 ->
     accounts s1 = accounts s /\ sent s1 = sent s /\
     (forall g, In g (games s1) <-> g = mk_game commitment host \/ In g (games s)) /\
     (forall m, In m (matches s1) <->
                m = mk_match commitment host NULL_GUESS NULL_NAME ZERO_ACORNS now \/
                In m (matches s))).
Proof.
  intros Hok. split; [split|].
  - intros [s1 H]. unfold commit in H. inv_ok H.
    destruct v. apply require_auth_Ok in Hstep.
    apply negb_true_iff in Hstep0, Hstep1, Hstep2. apply Z.eqb_neq in Hstep1.
    split; [exact Hstep|]. split; [intros E; rewrite E in Hstep0; discriminate|].
    split; [exact Hstep1|].
    split; [destruct (find match_pk _ (matches s)); [discriminate | reflexivity]|].
    apply find_None. intros g Hg.
    exact (emplace_Ok_fresh game_pk _ _ _ Hok Hstep3 g Hg).
  - intros [Hauth [Hrow [Hzero [Hm Hg]]]]. unfold commit.
    apply require_auth_Ok in Hauth. rewrite Hauth. cbn [bind].
    destruct (sec_find get_owner host (accounts s)) as [|a rest]; [now elim Hrow|].
    apply Z.eqb_neq in Hzero. rewrite Hzero, Hm. cbn [is_end negb is_some check bind].
    destruct (emplace_total game_pk (mk_game commitment host) (games s)) as [gms Hgms].
    { intros x Hx. exact (proj1 (find_None _ game_pk _ _) Hg x Hx). }
    destruct (emplace_total match_pk
                (mk_match commitment host NULL_GUESS NULL_NAME ZERO_ACORNS now)
                (matches s)) as [mts Hmts].
    { intros x Hx. exact (proj1 (find_None _ match_pk _ _) Hm x Hx). }
    rewrite Hgms. cbn [bind]. rewrite Hmts. cbn [bind]. now eexists.
  - intros s1 H. unfold commit in H. inv_ok H. subst s1. cbn [accounts games matches sent].
    split; [reflexivity|]. split; [reflexivity|].
    split; [exact (emplace_In _ _ _ _ _ Hstep3) | exact (emplace_In _ _ _ _ _ Hstep4)].
Qed.

(** The theorem above on Alice's second commitment, and on a repeat of her
    first. *)
Lemma commit_succeeds_iff_witness :
  table_ok game_pk (games Ex.offer_open) /\
  (exists s1, commit [Ex.ALICE] 11 Ex.ALICE Ex.commitment2 Ex.offer_open = Ok s1) /\
  ~ (exists s1, commit [Ex.ALICE] 11 Ex.ALICE Ex.commitment1 Ex.offer_open = Ok s1).
Proof.
  assert (Hok : table_ok game_pk (games Ex.offer_open)) by reflexivity.
  split; [exact Hok|]. split.
  - apply (proj1 (commit_succeeds_iff [Ex.ALICE] 11 Ex.ALICE Ex.commitment2
                                      Ex.offer_open Hok)).
    split; [now left|]. split; [vm_compute; discriminate|].
    split; [vm_compute; discriminate|]. split; reflexivity.
  - intros Hex.
    apply (proj1 (commit_succeeds_iff [Ex.ALICE] 11 Ex.ALICE Ex.commitment1
                                      Ex.offer_open Hok)) in Hex.
    destruct Hex as [_ [_ [_ [Hm _]]]]. vm_compute in Hm. discriminate Hm.
Defined.

(** X3: a commitment whose bytes 8 to 15 are those of the SHA-256 digest of
    32 zero bytes is never accepted: its key is [ZERO_SOURCE], and [commit]
    aborts. *)
Theorem commit_refuses_zero_source_key (auth : list name) (now : Z) (host : name)
        (commitment : checksum256) (s : state) :
  firstn 8 (skipn 8 commitment) =
  firstn 8 (skipn 8 (Sha256.sha256 (repeat x00 32))) ->
  exists msg, commit auth now host commitment s = Abort msg.
Proof.
  intros Hbytes.
  destruct (commit auth now host commitment s) as [s1|msg] eqn:H; [|now exists msg].
  exfalso. unfold commit in H. inv_ok H.
  apply negb_true_iff in Hstep1. apply Z.eqb_neq in Hstep1. apply Hstep1.
  unfold get_hash_prefix. rewrite Hbytes. vm_compute. reflexivity.
Qed.

(** The theorem above on the digest of the zero source itself, committed by
    Alice once she has a bankroll. *)
Lemma commit_refuses_zero_source_key_witness :
  exists msg,
    commit [Ex.ALICE] 10 Ex.ALICE (Sha256.sha256 (repeat x00 32)) Ex.funded = Abort msg.
Proof.
  apply (commit_refuses_zero_source_key [Ex.ALICE] 10 Ex.ALICE
           (Sha256.sha256 (repeat x00 32)) Ex.funded).
  reflexivity.
Defined.

Section CommitRoundTrip.
Variable self : name.
Variable sha256 : list byte -> checksum256.

(** X4: a commitment nobody has taken can be taken back, and the contract
    is then in the state it had before the commitment: by [cancelcommit]
    with the host's signature, or by [reveal] with the source. *)
Theorem commit_then_cancel_or_reveal_restores (auth : list name) (now : Z) (host : name)
        (commitment : checksum256) (s s1 : state) :
  table_ok game_pk (games s) ->
  commit auth now host commitment s = Ok s1 ->
  cancelcommit auth host commitment s1 = Ok s /\
  (forall source, sha256 source = commitment ->
                  reveal self sha256 commitment source s1 = Ok s).
Proof.
  intros Hok H.
  assert (Hiff : exists s1, commit auth now host commitment s = Ok s1) by now exists s1.
  unfold commit in H. inv_ok H. subst s1.
  apply negb_true_iff in Hstep2.
  assert (Hfm : forall x, In x (matches s) ->
                          match_pk x <> get_hash_prefix commitment).
  { apply find_None. destruct (find match_pk _ (matches s)); [discriminate|reflexivity]. }
  pose proof (emplace_Ok_fresh game_pk _ _ _ Hok Hstep3) as Hfg.
  pose proof (erase_emplace match_pk
                (mk_match commitment host NULL_GUESS NULL_NAME ZERO_ACORNS now)
                _ _ Hfm Hstep4) as Hem.
  pose proof (erase_emplace game_pk _ _ _ Hfg Hstep3) as Heg.
  pose proof (emplace_find_new _ match_pk _ _ _ Hstep4) as Hnm.
  pose proof (emplace_find_new _ game_pk _ _ _ Hstep3) as Hng.
  change (match_pk (mk_match commitment host NULL_GUESS NULL_NAME ZERO_ACORNS now))
    with (get_hash_prefix commitment) in Hnm.
  change (game_pk (mk_game commitment host)) with (get_hash_prefix commitment) in Hng.
  split.
  - unfold cancelcommit. rewrite Hstep. cbn [bind matches games accounts sent].
    rewrite Hnm. cbn [m_guess]. rewrite Z.eqb_refl. cbn [check bind]. rewrite Hng.
    cbn [erase bind]. rewrite Hem, Heg. destruct s. reflexivity.
  - intros source Hsrc. unfold reveal, assert_sha256. rewrite Hsrc.
    assert (checksum_eqb commitment commitment = true) as ->.
    { unfold checksum_eqb. destruct (list_eq_dec byte_eq_dec commitment commitment);
        [reflexivity | congruence]. }
    cbn [check bind matches games accounts sent]. rewrite Hnm.
    cbn [m_guess]. rewrite Z.eqb_refl. cbn [negb games].
    rewrite Hng. cbn [erase bind set_games set_matches matches games accounts sent].
    rewrite Hem, Heg. destruct s. reflexivity.
Qed.
End CommitRoundTrip.

(** Scenario C through the theorem above: Alice commits and cancels. *)
Lemma commit_then_cancel_or_reveal_restores_witness :
  commit [Ex.ALICE] 10 Ex.ALICE Ex.commitment1 Ex.funded = Ok Ex.offer_open /\
  cancelcommit [Ex.ALICE] Ex.ALICE Ex.commitment1 Ex.offer_open = Ok Ex.funded /\
  reveal Ex.SELF Ex.digest Ex.commitment1 Ex.source1 Ex.offer_open = Ok Ex.funded.
Proof.
  assert (Hc : commit [Ex.ALICE] 10 Ex.ALICE Ex.commitment1 Ex.funded = Ok Ex.offer_open)
    by reflexivity.
  assert (Hok : table_ok game_pk (games Ex.funded)) by reflexivity.
  destruct (commit_then_cancel_or_reveal_restores Ex.SELF Ex.digest [Ex.ALICE] 10 Ex.ALICE
              Ex.commitment1 Ex.funded Ex.offer_open Hok Hc) as [Hcancel Hreveal].
  split; [exact Hc|]. split; [exact Hcancel|].
  apply Hreveal. vm_compute. reflexivity.
Defined.

(** ** The shape of the ledger after a credit or a debit *)

Lemma add_balance_shape (who : name) (value : asset) (enforce_min : bool) (s s' : state) :
  ledger_inv (accounts s) -> symbol value = ACORN_SYMBOL ->
  add_balance who value enforce_min s = Ok s' ->
  accounts s' = [mk_account who (mk_asset (total_balance (accounts s) + amount value)
                                          ACORN_SYMBOL)] /\
  (accounts s = [] \/ exists a, accounts s = [a] /\ owner a = who) /\
  (amount value <= max_amount ->
   total_balance (accounts s) + amount value <= max_amount) /\
  (accounts s = [] -> enforce_min = true -> amount MIN_BALANCE <= amount value).
Proof.
  intros Hinv Hsym H. unfold add_balance in H.
  destruct (ledger_inv_cases _ Hinv) as [E|[a [E [Ha Hpa]]]]; rewrite E in *.
  - cbn [sec_find index_order fold_right lower_bound] in H.
    apply bind_Ok in H. destruct H as [u [Hmin H]]. inv_ok H. subst s'.
    cbn [accounts set_accounts total_balance fold_right].
    cbn [emplace] in Hstep. injection Hstep as <-.
    split; [destruct value as [v sy]; cbn [symbol amount] in *; subst sy;
            rewrite Z.add_0_l; reflexivity|].
    split; [now left|]. split; [lia|]. intros _ ->.
    apply bind_Ok in Hmin. destruct Hmin as [c [Hc Hchk]].
    apply asset_ge_Ok in Hc. destruct Hc as [_ ->]. apply check_Ok in Hchk.
    now apply Z.leb_le in Hchk.
  - rewrite sec_find_single in H. destruct (owner a =? who) eqn:Eo.
    + apply Z.eqb_eq in Eo. inv_ok H. subst s'.
      apply asset_add_Ok in Hstep. destruct Hstep as [_ [-> Hrange]].
      unfold modify in Hstep0. inv_ok Hstep0. subst.
      cbn [accounts set_accounts map total_balance fold_right owner].
      rewrite Z.eqb_refl, Ha, Z.add_0_r.
      split; [reflexivity|]. split; [right; now exists a|]. split; [lia|].
      intros Hnil. discriminate Hnil.
    + inv_ok H. simpl in Hstep0. unfold account_pk in Hstep0. simpl in Hstep0.
      rewrite Hsym, Ha, Z.ltb_irrefl, Z.eqb_refl in Hstep0. discriminate.
Qed.

Lemma sub_balance_shape (who : name) (value : asset) (enforce_min : bool) (s s' : state) :
  ledger_inv (accounts s) ->
  sub_balance who value enforce_min s = Ok s' ->
  exists a,
    accounts s = [a] /\ owner a = who /\ symbol value = ACORN_SYMBOL /\
    amount value <= amount (balance a) /\ sent s' = sent s /\
    ((amount value = amount (balance a) /\ accounts s' = [] /\
      cancel_offers (sec_find get_host who (games s)) (matches s) (games s) =
      Ok (matches s', games s')) \/
     (amount value < amount (balance a) /\
      accounts s' = [mk_account who (mk_asset (amount (balance a) - amount value)
                                              ACORN_SYMBOL)] /\
      games s' = games s /\ matches s' = matches s /\
      (enforce_min = true ->
       amount MIN_BALANCE <= amount (balance a) - amount value /\
       MIN_TRANSFER_SHELLS <= amount value))).
Proof.
  intros Hinv H. unfold sub_balance in H.
  destruct (ledger_inv_cases _ Hinv) as [E|[a [E [Ha Hpa]]]]; rewrite E in H.
  - simpl in H. discriminate.
  - rewrite sec_find_single in H. destruct (owner a =? who) eqn:Eo; [|discriminate].
    apply Z.eqb_eq in Eo.
    apply bind_Ok in H. destruct H as [u [Hc H]]. apply check_Ok in Hc.
    apply Z.geb_le in Hc.
    apply bind_Ok in H. destruct H as [res [Hsub H]].
    apply asset_sub_Ok in Hsub. destruct Hsub as [Hsy [-> _]]. cbn [amount] in H.
    exists a. split; [exact E|]. split; [exact Eo|]. split; [congruence|].
    split; [exact Hc|].
    destruct (amount (balance a) - amount value =? 0) eqn:Ez.
    + apply Z.eqb_eq in Ez.
      apply bind_Ok in H. destruct H as [[mts' gms'] [Hco H]]. injection H as <-.
      cbn [accounts games matches sent fst snd]. split; [reflexivity|]. left.
      split; [lia|]. split; [|exact Hco].
      unfold erase_key. simpl. rewrite Z.eqb_refl. reflexivity.
    + apply Z.eqb_neq in Ez.
      apply bind_Ok in H. destruct H as [u' [Hmin H]].
      apply bind_Ok in H. destruct H as [t' [Hmod H]]. injection H as <-.
      unfold modify in Hmod. apply bind_Ok in Hmod. destruct Hmod as [u2 [_ Hmod]].
      injection Hmod as <-.
      cbn [accounts games matches sent set_accounts map]. rewrite Z.eqb_refl.
      split; [reflexivity|]. right. split; [lia|].
      split; [rewrite Ha, Eo; reflexivity|]. split; [reflexivity|]. split; [reflexivity|].
      intros ->. apply bind_Ok in Hmin. destruct Hmin as [c [Hge Hmin]].
      apply asset_ge_Ok in Hge. destruct Hge as [_ ->]. cbn [amount] in Hmin.
      apply bind_Ok in Hmin. destruct Hmin as [u3 [Hc1 Hc2]].
      apply check_Ok in Hc1, Hc2. apply Z.leb_le in Hc1. apply Z.geb_le in Hc2.
      split; [exact Hc1 | exact Hc2].
Qed.

(** ** What a wager and a reveal do, step by step *)

Lemma checksum_eqb_eq (a b : checksum256) : checksum_eqb a b = true <-> a = b.
Proof.
  unfold checksum_eqb. destruct (list_eq_dec byte_eq_dec a b); split; congruence.
Qed.

Section Shapes.
Variable self : name.
Variable sha256 : list byte -> checksum256.
Variable asset_to_string : asset -> string.

Lemma do_bet_shape (now : Z) (player : name) (quantity : asset) (guess : Z) (s s' : state) :
  do_bet asset_to_string now player quantity guess s = Ok s' ->
  exists acct eg s1 em,
    In acct (accounts s) /\ In eg (games s) /\ g_host eg = owner acct /\
    amount quantity <= Z.quot (amount (balance acct)) MAX_BET_TO_BANKROLL_RATIO /\
    sub_balance (owner acct) quantity false s = Ok s1 /\
    In em (matches s1) /\ match_pk em = game_pk eg /\
    accounts s' = accounts s1 /\ sent s' = sent s1 /\
    games s' = erase_key game_pk (game_pk eg) (games s1) /\
    matches s' = map (fun x => if match_pk x =? match_pk em
                               then mk_match (m_commitment em) (m_host em) guess player
                                             quantity (uint32 (now + GAME_TIMEOUT_SECS))
                               else x) (matches s1).
Proof.
  intros H. unfold do_bet in H. apply bind_Ok in H. destruct H as [[s0|mb] [Hscan H]].
  2:{ apply bind_Ok in H. destruct H as [mx [_ H]].
      destruct (amount mx <? MIN_TRANSFER_SHELLS); discriminate. }
  injection H as ->.
  destruct (do_bet_scan_matched _ _ _ _ _ _ _ _ Hscan)
    as [acct [eg [rest [s1 [em [Hacct [Hg [Hcov [Hsub [Hf ->]]]]]]]]]].
  apply sec_find_head in Hg. destruct Hg as [Hhost Hgin].
  apply find_In in Hf. destruct Hf as [Hin Hk].
  exists acct, eg, s1, em. cbn [accounts games matches sent]. auto 12.
Qed.

Lemma reveal_shape (commitment source : checksum256) (s s' : state) :
  reveal self sha256 commitment source s = Ok s' ->
  sha256 source = commitment /\
  exists em,
    find match_pk (get_hash_prefix commitment) (matches s) = Some em /\
    matches s' = erase_key match_pk (match_pk em) (matches s) /\
    ((m_guess em = NULL_GUESS /\ accounts s' = accounts s /\ sent s' = sent s /\
      (exists eg, find game_pk (get_hash_prefix commitment) (games s) = Some eg) /\
      games s' = erase_key game_pk (get_hash_prefix commitment) (games s)) \/
     (m_guess em <> NULL_GUESS /\ games s' = games s /\
      symbol (m_bet em) = ACORN_SYMBOL /\
      - max_amount <= amount (m_bet em) * 2 - 1 <= max_amount /\
      exists host_payout player_payout message s1,
        ((host_payout = 1 /\ player_payout = amount (m_bet em) * 2 - 1) \/
         (player_payout = 1 /\ host_payout = amount (m_bet em) * 2 - 1)) /\
        add_balance (m_host em) (mk_asset host_payout ACORN_SYMBOL) false
                    (pay self (m_player em) (mk_asset player_payout ACORN_SYMBOL)
                         message s) = Ok s1 /\
        accounts s' = accounts s1 /\
        sent s' = (sent s ++ [mk_transfer self (m_player em)
                                          (mk_asset player_payout ACORN_SYMBOL)
                                          message])%list)).
Proof.
  intros H. unfold reveal in H.
  apply bind_Ok in H. destruct H as [u [Hhash H]].
  unfold assert_sha256 in Hhash. apply check_Ok in Hhash. apply checksum_eqb_eq in Hhash.
  split; [exact Hhash|].
  destruct (find match_pk (get_hash_prefix commitment) (matches s)) as [em|] eqn:Ef;
    [|discriminate].
  exists em. split; [reflexivity|].
  apply bind_Ok in H. destruct H as [s1 [H1 H2]]. injection H2 as <-.
  cbn [matches games accounts sent set_matches].
  destruct (m_guess em =? NULL_GUESS) eqn:Eg; cbn [negb] in H1.
  - apply Z.eqb_eq in Eg.
    apply bind_Ok in H1. destruct H1 as [gms [Hgms H1]]. injection H1 as <-.
    cbn [matches games accounts sent set_games].
    split; [reflexivity|]. left.
    unfold erase in Hgms.
    destruct (find game_pk (get_hash_prefix commitment) (games s)) as [eg|] eqn:Efg;
      [|discriminate].
    injection Hgms as <-. pose proof (find_In _ _ _ _ _ Efg) as [_ Hk]. rewrite Hk.
    split; [exact Eg|]. split; [reflexivity|]. split; [reflexivity|].
    split; [now exists eg | reflexivity].
  - apply Z.eqb_neq in Eg.
    apply bind_Ok in H1. destruct H1 as [doubled [Hd H1]].
    apply bind_Ok in H1. destruct H1 as [win [Hwq H1]].
    apply asset_mul_Ok in Hd. destruct Hd as [-> _].
    apply asset_sub_Ok in Hwq. destruct Hwq as [Hsym [-> Hrange]].
    cbn [amount symbol ACORN_SHELL] in Hsym, Hrange, H1.
    assert (Hface : games s1 = games s /\ matches s1 = matches s /\
                    exists host_payout player_payout message,
                      ((host_payout = 1 /\ player_payout = amount (m_bet em) * 2 - 1) \/
                       (player_payout = 1 /\ host_payout = amount (m_bet em) * 2 - 1)) /\
                      add_balance (m_host em) (mk_asset host_payout ACORN_SYMBOL) false
                                  (pay self (m_player em)
                                       (mk_asset player_payout ACORN_SYMBOL) message s) =
                      Ok s1 /\
                      sent s1 = (sent s ++ [mk_transfer self (m_player em)
                                                        (mk_asset player_payout ACORN_SYMBOL)
                                                        message])%list).
    { rewrite <- Hsym in H1.
      destruct (Z.land (byte_at 31 source) 1 =? m_guess em);
        pose proof (add_balance_frame _ _ _ _ _ H1) as [Hg [Hm Hs]];
        (split; [exact Hg|]); (split; [exact Hm|]).
      - exists 1, (amount (m_bet em) * 2 - 1), "Win!". split; [now left|].
        split; [exact H1 | exact Hs].
      - exists (amount (m_bet em) * 2 - 1), 1, "Lose". split; [now right|].
        split; [exact H1 | exact Hs]. }
    destruct Hface as [Hg [Hm [hp [pp [msg [Hpay [Hadd Hs]]]]]]].
    rewrite Hm. split; [reflexivity|]. right.
    split; [exact Eg|]. split; [exact Hg|]. split; [congruence|]. split; [exact Hrange|].
    exists hp, pp, msg, s1. auto.
Qed.
End Shapes.

(** ** Offers and bankrolls over a run *)

Lemma cascade_clears (who : name) (gms gms' : list game) (mts mts' : list match_) :
  (forall g, In g gms -> g_host g = who) ->
  cancel_offers (sec_find get_host who gms) mts gms = Ok (mts', gms') ->
  forall g, ~ In g gms'.
Proof.
  intros Hall Hco g Hin.
  destruct (cancel_offers_Ok _ _ _ _ _ Hco) as [_ Hg].
  apply Hg in Hin. destruct Hin as [Hin Hne].
  apply (Hne g); [|reflexivity].
  apply (sec_find_complete _ get_host); [exact Hin | now apply Hall].
Qed.

Lemma offers_hosted_by_owner (s : state) (a : account) :
  offers_have_bankroll s -> accounts s = [a] ->
  forall g, In g (games s) -> g_host g = owner a.
Proof.
  intros Hob E g Hg. destruct (Hob g Hg) as [a0 [E0 Ho]].
  rewrite E in E0. injection E0 as <-. now symmetry.
Qed.

Section LedgerRun.
Variable self : name.
Variable sha256 : list byte -> checksum256.
Variable asset_to_string : asset -> string.

Lemma apply_ledger_run (auth : list name) (now : Z) (a : action) (s s' : state) :
  state_inv s -> ledger_bounded (accounts s) -> offers_have_bankroll s ->
  apply self sha256 asset_to_string auth now a s = Ok s' ->
  ledger_bounded (accounts s') /\ offers_have_bankroll s'.
Proof.
  intros [Hl _] Hb Hob H.
  assert (Hsame : forall s2, accounts s2 = accounts s ->
                             (forall g, In g (games s2) -> In g (games s)) ->
                             ledger_bounded (accounts s2) /\ offers_have_bankroll s2).
  { intros s2 Ha Hg. split; [now rewrite Ha|].
    intros g Hin. rewrite Ha. apply Hob. now apply Hg. }
  assert (Hdebit : forall who value e s1,
             0 <= amount value -> sub_balance who value e s = Ok s1 ->
             ledger_bounded (accounts s1) /\ offers_have_bankroll s1).
  { intros who value e s1 Hpos Hsub.
    destruct (sub_balance_shape _ _ _ _ _ Hl Hsub)
      as [a0 [E [Ho [_ [Hle [_ [[_ [Hacc Hco]]|[_ [Hacc [Hg [_ _]]]]]]]]]]].
    - split; [rewrite Hacc; intros x []|].
      intros g Hin. exfalso.
      assert (Hall : forall g0, In g0 (games s) -> g_host g0 = who).
      { intros g0 Hg0. rewrite (offers_hosted_by_owner s a0 Hob E g0 Hg0). exact Ho. }
      exact (cascade_clears who _ _ _ _ Hall Hco g Hin).
    - split.
      + rewrite Hacc. intros x [<-|[]]. cbn [balance amount].
        pose proof (Hb a0 ltac:(rewrite E; now left)). lia.
      + intros g Hin. rewrite Hg in Hin. rewrite Hacc. eexists. split; [reflexivity|].
        cbn [owner]. rewrite <- Ho. symmetry.
        exact (offers_hosted_by_owner s a0 Hob E g Hin). }
  assert (Hcredit : forall who value e s0 s1,
             accounts s0 = accounts s -> games s0 = games s ->
             symbol value = ACORN_SYMBOL -> amount value <= max_amount ->
             add_balance who value e s0 = Ok s1 ->
             ledger_bounded (accounts s1) /\ offers_have_bankroll s1).
  { intros who value e s0 s1 Ea Eg Hsym Hmax Hadd.
    assert (Hl0 : ledger_inv (accounts s0)) by now rewrite Ea.
    destruct (add_balance_shape _ _ _ _ _ Hl0 Hsym Hadd) as [Hacc [Hprev [Hsum _]]].
    pose proof (add_balance_frame _ _ _ _ _ Hadd) as [Hg _].
    split.
    - rewrite Hacc. intros x [<-|[]]. cbn [balance amount]. now apply Hsum.
    - intros g Hin. rewrite Hg, Eg in Hin. rewrite Hacc. eexists. split; [reflexivity|].
      cbn [owner]. destruct (Hob g Hin) as [a1 [E1 Ho1]].
      rewrite Ea in Hprev. destruct Hprev as [Hnil|[a2 [E2 Ho2]]];
        [rewrite Hnil in E1; discriminate|].
      rewrite E1 in E2. injection E2 as <-. congruence. }
  destruct a; simpl in H.
  - unfold withdraw in H. inv_ok H. subst s'. apply Z.gtb_lt in Hstep2.
    assert (Hpos : 0 <= amount quantity) by lia.
    destruct (Hdebit _ _ _ _ Hpos Hstep3) as [Hb' Hob'].
    split; [exact Hb' | exact Hob'].
  - pose proof H as Hc. unfold commit in Hc. inv_ok Hc. subst s'. cbn [accounts games].
    split; [exact Hb|]. intros g Hin. cbn [games accounts] in *.
    apply (emplace_In _ _ _ _ _ Hstep3) in Hin. destruct Hin as [->|Hin]; [|now apply Hob].
    cbn [g_host]. destruct (ledger_inv_cases _ Hl) as [E|[a0 [E _]]];
      rewrite E in Hstep0; [discriminate|].
    rewrite sec_find_single in Hstep0. exists a0. split; [exact E|].
    destruct (owner a0 =? host) eqn:Eo; [now apply Z.eqb_eq | discriminate].
  - pose proof (cancelcommit_Ok _ _ _ _ _ H) as [_ [_ [_ [_ [_ [Ha _]]]]]].
    apply cancelcommit_tables in H. destruct H as [_ Hg].
    apply Hsame; [exact Ha | rewrite Hg; apply erase_key_incl].
  - destruct (reveal_shape self sha256 _ _ _ _ H) as [_ [em [Hf [_ Hcase]]]].
    destruct Hcase as [[_ [Ha [_ [_ Hg]]]]|
                       [_ [Hg [_ [Hrange [hp [pp [msg [s1 [Hpay [Hadd [Ha _]]]]]]]]]]]].
    + apply Hsame; [exact Ha | rewrite Hg; apply erase_key_incl].
    + assert (Hhp : amount (mk_asset hp ACORN_SYMBOL) <= max_amount).
      { cbn [amount]. destruct Hpay as [[-> _]|[_ ->]]; [unfold max_amount|]; lia. }
      destruct (Hcredit (m_host em) (mk_asset hp ACORN_SYMBOL) false
                        (pay self (m_player em) (mk_asset pp ACORN_SYMBOL) msg s) s1
                        eq_refl eq_refl eq_refl Hhp Hadd) as [Hb1 Hob1].
      pose proof (add_balance_frame _ _ _ _ _ Hadd) as [Hg1 _].
      split; [now rewrite Ha|].
      intros g Hin. rewrite Ha. apply Hob1. rewrite Hg1. cbn [games pay]. now rewrite <- Hg.
  - destruct (collect_loop_frame self _ _ _ _ _ H) as [Ha [Hg _]].
    apply Hsame; [exact Ha | now rewrite Hg].
  - destruct (acorn_transfer_Ok self asset_to_string _ _ _ _ _ _ _ H)
      as [[_ ->]|[_ [Hsym [Hrange [[guess [_ Hbet]]|Hadd]]]]].
    + now split.
    + destruct (do_bet_shape asset_to_string _ _ _ _ _ _ Hbet)
        as [acct [eg [s1 [em [_ [_ [_ [_ [Hsub [_ [_ [Ha [_ [Hg _]]]]]]]]]]]]]].
      unfold MIN_TRANSFER_SHELLS in Hrange.
      assert (Hpos : 0 <= amount quantity) by lia.
      destruct (Hdebit _ _ _ _ Hpos Hsub) as [Hb1 Hob1].
      split; [now rewrite Ha|].
      intros g Hin. rewrite Ha. apply Hob1. rewrite Hg in Hin.
      now apply erase_key_incl in Hin.
    + exact (Hcredit from quantity true s s' eq_refl eq_refl Hsym (proj2 Hrange) Hadd).
Qed.

Lemma reachable_ledger_run (s : state) :
  reachable self sha256 asset_to_string s ->
  ledger_bounded (accounts s) /\ offers_have_bankroll s.
Proof.
  intros [clock H]. induction H as [|clock now auth a s s' Hr IH _ Happ].
  - split; [intros a [] | intros g []].
  - destruct IH as [Hb Hob].
    exact (apply_ledger_run _ _ _ _ _
             (reachable_at_inv self sha256 asset_to_string _ _ Hr) Hb Hob Happ).
Qed.
End LedgerRun.

(** ** Invariants of every reachable state *)

(** X5: in every reachable state each bankroll of the ledger is in ACORN,
    is positive and is at most the largest amount an asset can carry: no
    credit of [add_balance] and no debit of [sub_balance] takes a balance
    out of that range, and a balance that reaches zero is erased. *)
Theorem reachable_ledger_balances_in_range (self : name)
    (sha256 : list byte -> checksum256) (asset_to_string : asset -> string)
    (s : state) (a : account) :
  reachable self sha256 asset_to_string s ->
  In a (accounts s) ->
  symbol (balance a) = ACORN_SYMBOL /\ 0 < amount (balance a) <= max_amount.
Proof.
  intros Hr Hin.
  destruct (reachable_inv self sha256 asset_to_string s Hr) as [[_ Hl] _].
  destruct (reachable_ledger_run self sha256 asset_to_string s Hr) as [Hb _].
  destruct (Hl a Hin) as [Hsym Hpos]. pose proof (Hb a Hin). repeat split; [exact Hsym|lia|lia].
Qed.

Lemma reachable_ledger_balances_in_range_witness :
  In (mk_account Ex.ALICE (Ex.acorns 1000000)) (accounts Ex.funded) /\
  symbol (Ex.acorns 1000000) = ACORN_SYMBOL /\ 0 < 1000000 <= max_amount.
Proof.
  split; [now left|].
  exact (reachable_ledger_balances_in_range Ex.SELF Ex.digest Ex.show Ex.funded
           (mk_account Ex.ALICE (Ex.acorns 1000000)) funded_reachable (or_introl eq_refl)).
Defined.

(** X6: in every reachable state the host of every open Offer holds the
    ledger row, with a positive bankroll: [commit] asks for it, and the
    debit that empties the row takes the host's Offers with it.  As the
    ledger has one row, all the open Offers are of one host. *)
Theorem reachable_offer_host_holds_bankroll (self : name)
    (sha256 : list byte -> checksum256) (asset_to_string : asset -> string)
    (s : state) (g : game) :
  reachable self sha256 asset_to_string s ->
  In g (games s) ->
  exists a, accounts s = [a] /\ owner a = g_host g /\
            ledger_balance (g_host g) s = amount (balance a) /\
            0 < amount (balance a).
Proof.
  intros Hr Hin.
  destruct (reachable_inv self sha256 asset_to_string s Hr) as [[_ Hl] _].
  destruct (reachable_ledger_run self sha256 asset_to_string s Hr) as [_ Hob].
  destruct (Hob g Hin) as [a [E Ho]]. exists a.
  split; [exact E|]. split; [exact Ho|]. split.
  - unfold ledger_balance. rewrite E, sec_find_single. unfold get_owner.
    rewrite Ho, Z.eqb_refl. reflexivity.
  - apply Hl. rewrite E. now left.
Qed.

Lemma reachable_offer_host_holds_bankroll_witness :
  exists g, In g (games Ex.offer_open) /\
  exists a, accounts Ex.offer_open = [a] /\ owner a = g_host g /\
            ledger_balance (g_host g) Ex.offer_open = amount (balance a) /\
            0 < amount (balance a).
Proof.
  exists (mk_game Ex.commitment1 Ex.ALICE).
  assert (Hin : In (mk_game Ex.commitment1 Ex.ALICE) (games Ex.offer_open))
    by (vm_compute; now left).
  split; [exact Hin|].
  exact (reachable_offer_host_holds_bankroll Ex.SELF Ex.digest Ex.show Ex.offer_open
           _ offer_open_reachable Hin).
Defined.

(** X7: in every reachable state a Bet is either a placeholder (guess
    unset, the empty name as player, no wager) or an active Bet (guess 0 or
    1, a wager in ACORN between the minimum transfer and the largest amount,
    a deadline that fits 32 bits), and no Bet and no Offer is keyed by the
    prefix of the hash of the zeroed source. *)
Theorem reachable_bets_shaped (self : name)
    (sha256 : list byte -> checksum256) (asset_to_string : asset -> string)
    (s : state) :
  reachable self sha256 asset_to_string s ->
  (forall m, In m (matches s) ->
             (is_placeholder_bet m \/ is_active_bet m) /\ match_pk m <> ZERO_SOURCE) /\
  (forall g, In g (games s) -> game_pk g <> ZERO_SOURCE).
Proof.
  intros [clock H]. induction H as [|clock now auth a s s' Hr IH _ Happ].
  - split; [intros m [] | intros g []].
  - destruct IH as [IHm IHg]. split.
    + intros m Hin.
      destruct (apply_matches_provenance self sha256 asset_to_string _ _ _ _ _ Happ m Hin)
        as [Hold|[[host [c [_ [Hk ->]]]]|
                  [from [to [q [memo [guess [em [_ [Hem [Hguess [Hsym [Hq ->]]]]]]]]]]]]].
      * now apply IHm.
      * split; [|exact Hk]. left. repeat split.
      * split; [|exact (proj2 (IHm em Hem))]. right.
        unfold is_active_bet. cbn [m_guess m_bet m_deadline].
        repeat split; try tauto; try lia;
          apply (Z.mod_pos_bound (now + GAME_TIMEOUT_SECS) (2 ^ 32)); lia.
    + intros g Hin.
      destruct (apply_games_provenance self sha256 asset_to_string _ _ _ _ _ Happ g Hin)
        as [Hold|[host [c [_ [-> [Hk _]]]]]].
      * now apply IHg.
      * exact Hk.
Qed.

Lemma reachable_bets_shaped_witness :
  (exists m, In m (matches Ex.in_play) /\ is_active_bet m) /\
  (forall m, In m (matches Ex.in_play) ->
             (is_placeholder_bet m \/ is_active_bet m) /\ match_pk m <> ZERO_SOURCE) /\
  (forall g, In g (games Ex.in_play) -> game_pk g <> ZERO_SOURCE).
Proof.
  split.
  - eexists. split; [vm_compute; left; reflexivity|].
    unfold is_active_bet. cbn. repeat split; try (right; reflexivity);
      try (left; reflexivity); try discriminate; vm_compute; congruence.
  - exact (reachable_bets_shaped Ex.SELF Ex.digest Ex.show Ex.in_play in_play_reachable).
Defined.

(** ** What the contract answers for *)

Lemma total_sent_app (l l2 : list transfer) :
  total_sent (l ++ l2) = total_sent l + total_sent l2.
Proof.
  induction l as [|x l IH]; [reflexivity|].
  change (amount (tr_quantity x) + total_sent (l ++ l2) =
          amount (tr_quantity x) + total_sent l + total_sent l2). lia.
Qed.

Lemma total_sent_one (x : transfer) : total_sent [x] = amount (tr_quantity x).
Proof. unfold total_sent. cbn [fold_right]. lia. Qed.

Lemma total_balance_one (a : account) : total_balance [a] = amount (balance a).
Proof. unfold total_balance. cbn [fold_right]. lia. Qed.

Lemma total_bets_cons (m : match_) (t : list match_) :
  total_bets (m :: t) = amount (m_bet m) + total_bets t.
Proof. reflexivity. Qed.

Lemma total_bets_emplace (r : match_) (t t' : list match_) :
  emplace match_pk r t = Ok t' -> total_bets t' = amount (m_bet r) + total_bets t.
Proof.
  revert t'. induction t as [|x t IH]; simpl; intros t' H.
  - injection H as <-. reflexivity.
  - destruct (match_pk r <? match_pk x); [injection H as <-; reflexivity|].
    destruct (match_pk r =? match_pk x); [discriminate|].
    apply bind_Ok in H. destruct H as [t'' [He H]]. injection H as <-.
    rewrite !total_bets_cons, (IH _ He). lia.
Qed.

Lemma total_bets_drop_zero (k : Z) (mts : list match_) :
  (forall m, In m mts -> match_pk m = k -> amount (m_bet m) = 0) ->
  total_bets (erase_key match_pk k mts) = total_bets mts.
Proof.
  induction mts as [|x t IH]; intros Hz; [reflexivity|].
  unfold erase_key in *. cbn [filter].
  assert (IH' := IH (fun m Hm => Hz m (or_intror Hm))).
  destruct (match_pk x =? k) eqn:E; cbn [negb]; rewrite !total_bets_cons; [|lia].
  apply Z.eqb_eq in E. rewrite (Hz x (or_introl eq_refl) E). lia.
Qed.

Lemma total_bets_erase_unique (em : match_) (mts : list match_) :
  keys_unique match_pk mts -> In em mts ->
  total_bets (erase_key match_pk (match_pk em) mts) = total_bets mts - amount (m_bet em).
Proof.
  unfold keys_unique. induction mts as [|x t IH]; intros Hu Hin; [destruct Hin|].
  cbn [map] in Hu. inversion Hu as [|? ? Hnot Hnd]; subst.
  unfold erase_key in *. cbn [filter]. destruct Hin as [->|Hin].
  - rewrite Z.eqb_refl. cbn [negb]. rewrite total_bets_cons.
    fold (erase_key match_pk (match_pk em) t). rewrite total_bets_drop_zero; [lia|].
    intros m Hm Hk. exfalso. apply Hnot. rewrite <- Hk. now apply in_map.
  - destruct (match_pk x =? match_pk em) eqn:E.
    + exfalso. apply Z.eqb_eq in E. apply Hnot. rewrite E. now apply in_map.
    + cbn [negb]. rewrite !total_bets_cons, (IH Hnd Hin). lia.
Qed.

Lemma total_bets_modify_unique (em new : match_) (mts : list match_) :
  keys_unique match_pk mts -> In em mts ->
  total_bets (map (fun x => if match_pk x =? match_pk em then new else x) mts) =
  total_bets mts - amount (m_bet em) + amount (m_bet new).
Proof.
  unfold keys_unique. induction mts as [|x t IH]; intros Hu Hin; [destruct Hin|].
  cbn [map] in Hu. inversion Hu as [|? ? Hnot Hnd]; subst.
  cbn [map]. rewrite !total_bets_cons. destruct Hin as [->|Hin].
  - rewrite Z.eqb_refl.
    assert (E : map (fun x => if match_pk x =? match_pk em then new else x) t = t).
    { rewrite <- (map_id t) at 2. apply map_ext_in. intros m Hm.
      destruct (match_pk m =? match_pk em) eqn:E; [|reflexivity].
      exfalso. apply Z.eqb_eq in E. apply Hnot. rewrite <- E. now apply in_map. }
    rewrite E. lia.
  - destruct (match_pk x =? match_pk em) eqn:E.
    + exfalso. apply Z.eqb_eq in E. apply Hnot. rewrite E. now apply in_map.
    + rewrite (IH Hnd Hin). lia.
Qed.

Lemma cancel_offers_total_bets (git : list game) (mts mts' : list match_)
      (gms gms' : list game) :
  (forall g m, In g git -> In m mts -> match_pk m = game_pk g -> amount (m_bet m) = 0) ->
  cancel_offers git mts gms = Ok (mts', gms') ->
  total_bets mts' = total_bets mts.
Proof.
  revert mts gms. induction git as [|g git IH]; intros mts gms Hz H; simpl in H.
  - now injection H as <- _.
  - apply bind_Ok in H. destruct H as [mts1 [He H]].
    destruct (find match_pk (game_pk g) mts) as [r|] eqn:Ef; [|discriminate].
    injection He as <-. apply find_In in Ef. destruct Ef as [_ Hk].
    assert (Hz' : forall g0 m, In g0 git -> In m (erase_key match_pk (match_pk r) mts) ->
                               match_pk m = game_pk g0 -> amount (m_bet m) = 0).
    { intros g0 m Hg0 Hm. apply erase_key_In in Hm. destruct Hm as [Hm _].
      exact (Hz g0 m (or_intror Hg0) Hm). }
    rewrite (IH _ _ Hz' H).
    apply total_bets_drop_zero. intros m Hm Hkm.
    apply (Hz g m (or_introl eq_refl) Hm). congruence.
Qed.

Section Custody.
Variable self : name.
Variable sha256 : list byte -> checksum256.
Variable asset_to_string : asset -> string.

Lemma offer_bet_is_empty (s : state) (g : game) (m : match_) :
  offers_inv (games s) (matches s) -> placeholders_inv (matches s) ->
  In g (games s) -> In m (matches s) -> match_pk m = game_pk g ->
  amount (m_bet m) = 0.
Proof.
  intros Ho Hp Hg Hm Hk.
  destruct (Hp m Hm (Ho g m Hg Hm Hk)) as [_ ->]. reflexivity.
Qed.

Lemma sub_balance_custody (who : name) (value : asset) (e : bool) (s s1 : state) :
  state_inv s -> placeholders_inv (matches s) ->
  sub_balance who value e s = Ok s1 ->
  total_balance (accounts s1) = total_balance (accounts s) - amount value /\
  total_bets (matches s1) = total_bets (matches s) /\
  sent s1 = sent s.
Proof.
  intros [Hl [_ Ho]] Hp H.
  destruct (sub_balance_shape _ _ _ _ _ Hl H)
    as [a [E [_ [_ [_ [Hs [[Hv [Hacc Hco]]|[_ [Hacc [_ [Hm _]]]]]]]]]]].
  - rewrite Hacc, E, total_balance_one. change (total_balance []) with 0.
    split; [lia|]. split; [|exact Hs].
    refine (cancel_offers_total_bets _ _ _ _ _ _ Hco).
    intros g m Hg Hin Hk. apply sec_find_In in Hg.
    exact (offer_bet_is_empty s g m Ho Hp Hg Hin Hk).
  - rewrite Hacc, E, Hm, !total_balance_one. cbn [balance amount].
    split; [lia|]. split; [reflexivity | exact Hs].
Qed.

Lemma add_balance_custody (who : name) (value : asset) (e : bool) (s s1 : state) :
  ledger_inv (accounts s) -> symbol value = ACORN_SYMBOL ->
  add_balance who value e s = Ok s1 ->
  total_balance (accounts s1) = total_balance (accounts s) + amount value /\
  matches s1 = matches s /\ sent s1 = sent s.
Proof.
  intros Hl Hsym H.
  destruct (add_balance_shape _ _ _ _ _ Hl Hsym H) as [Hacc _].
  destruct (add_balance_frame _ _ _ _ _ H) as [_ [Hm Hs]].
  rewrite Hacc, total_balance_one. cbn [balance amount]. split; [lia|]. now split.
Qed.

Lemma collect_loop_custody (now : Z) (player : name) (it : list match_) (s s' : state) :
  keys_unique match_pk (matches s) -> keys_unique match_pk it ->
  (forall e, In e it -> In e (matches s)) ->
  collect_loop self now player it s = Ok s' ->
  custody s' = custody s.
Proof.
  revert s. induction it as [|em it IH]; intros s Hu Hnd Hin H; simpl in H.
  - now injection H as <-.
  - unfold keys_unique in Hnd. cbn [map] in Hnd. inversion Hnd as [|? ? Hnot Hnd']; subst.
    destruct (now >? m_deadline em).
    + apply bind_Ok in H. destruct H as [q [Hq H]].
      apply asset_mul_Ok in Hq. destruct Hq as [-> _].
      set (s2 := set_matches _ _) in H.
      assert (Hu2 : keys_unique match_pk (matches s2))
        by (subst s2; cbn [matches set_matches pay]; now apply erase_key_unique).
      assert (Hin2 : forall e, In e it -> In e (matches s2)).
      { intros e He. subst s2. cbn [matches set_matches pay]. apply erase_key_In.
        split; [apply Hin; now right|].
        intros Hk. apply Hnot. rewrite <- Hk. now apply in_map. }
      rewrite (IH s2 Hu2 Hnd' Hin2 H). subst s2.
      unfold custody. cbn [accounts matches sent set_matches pay].
      rewrite total_sent_app, total_sent_one,
        (total_bets_erase_unique em _ Hu (Hin em (or_introl eq_refl))).
      cbn [tr_quantity amount]. lia.
    + apply (IH s Hu Hnd'); [|exact H]. intros e He. apply Hin. now right.
Qed.

Lemma apply_custody (auth : list name) (now : Z) (a : action) (s s' : state) :
  state_inv s -> placeholders_inv (matches s) -> tables_ok s ->
  apply self sha256 asset_to_string auth now a s = Ok s' ->
  custody s' = custody s + inflow self a.
Proof.
  intros Hinv Hp [_ [Htg Htm]] H.
  pose proof (table_ok_unique _ match_pk _ Htm) as Hu.
  pose proof Hinv as [Hl [_ Ho]].
  destruct a; simpl in H; unfold inflow.
  - unfold withdraw in H. inv_ok H. subst s'.
    destruct (sub_balance_custody _ _ _ _ _ Hinv Hp Hstep3) as [Hb [Hm Hs]].
    unfold custody. cbn [accounts matches sent pay].
    rewrite Hb, Hm, Hs, total_sent_app, total_sent_one. cbn [tr_quantity]. lia.
  - unfold commit in H. inv_ok H. subst s'.
    unfold custody. cbn [accounts matches sent].
    rewrite (total_bets_emplace _ _ _ Hstep4). cbn [m_bet ZERO_ACORNS amount]. lia.
  - destruct (cancelcommit_Ok _ _ _ _ _ H) as [_ [_ [[eg Hg] [_ [_ [Ha Hs]]]]]].
    destruct (cancelcommit_tables _ _ _ _ _ H) as [Hm _].
    apply find_In in Hg. destruct Hg as [Hg Hk].
    unfold custody. rewrite Ha, Hs, Hm, total_bets_drop_zero; [lia|].
    intros m Hin Hkm. apply (offer_bet_is_empty s eg m Ho Hp Hg Hin). congruence.
  - destruct (reveal_shape self sha256 _ _ _ _ H) as [_ [em [Hf [Hm Hcase]]]].
    apply find_In in Hf. destruct Hf as [Hem Hkem].
    destruct Hcase as [[_ [Ha [Hs [[eg Hg] _]]]]|
                       [_ [_ [_ [_ [hp [pp [msg [s1 [Hpay [Hadd [Ha Hs]]]]]]]]]]]].
    + apply find_In in Hg. destruct Hg as [Hg Hk].
      unfold custody. rewrite Ha, Hs, Hm, total_bets_drop_zero; [lia|].
      intros m Hin Hkm. apply (offer_bet_is_empty s eg m Ho Hp Hg Hin). congruence.
    + destruct (add_balance_custody (m_host em) (mk_asset hp ACORN_SYMBOL) false
                  (pay self (m_player em) (mk_asset pp ACORN_SYMBOL) msg s) s1
                  Hl eq_refl Hadd) as [Hb _].
      unfold custody. rewrite Ha, Hb, Hs, Hm, total_sent_app, total_sent_one,
        (total_bets_erase_unique em _ Hu Hem).
      cbn [tr_quantity amount accounts pay]. destruct Hpay as [[-> ->]|[-> ->]]; lia.
  - unfold collect in H. rewrite Z.add_0_r.
    apply (collect_loop_custody _ _ _ _ _ Hu
             (sec_find_keys_unique match_pk get_player _ _ Hu)
             (fun e He => sec_find_In _ get_player _ _ _ He) H).
  - destruct (acorn_transfer_Ok self asset_to_string _ _ _ _ _ _ _ H)
      as [[-> ->]|[Hne [Hsym [_ [[guess [_ Hbet]]|Hadd]]]]].
    + rewrite Z.eqb_refl. lia.
    + apply Z.eqb_neq in Hne. rewrite Hne.
      destruct (do_bet_shape asset_to_string _ _ _ _ _ _ Hbet)
        as [acct [eg [s1 [em [_ [Heg [_ [_ [Hsub [Hem [Hk [Ha [Hs [_ Hm]]]]]]]]]]]]]].
      destruct (sub_balance_custody _ _ _ _ _ Hinv Hp Hsub) as [Hb [Hbets Hs1]].
      assert (Hu1 : keys_unique match_pk (matches s1)).
      { destruct (sub_balance_frame _ _ _ _ _ Hsub) as [[_ ->]|Hco]; [exact Hu|].
        apply table_ok_unique.
        exact (proj1 (cancel_offers_table_ok _ _ _ _ _ Htm Htg Hco)). }
      unfold custody. rewrite Ha, Hs, Hm, Hb, Hs1,
        (total_bets_modify_unique em _ _ Hu1 Hem), Hbets.
      rewrite (offer_bet_is_empty s eg em Ho Hp Heg
                 (proj1 (sub_balance_incl _ _ _ _ _ Hsub) em Hem) Hk).
      cbn [m_bet]. lia.
    + apply Z.eqb_neq in Hne. rewrite Hne.
      destruct (add_balance_custody _ _ _ _ _ Hl Hsym Hadd) as [Hb [Hm Hs]].
      unfold custody. rewrite Hb, Hm, Hs. lia.
Qed.
End Custody.

Lemma run_custody (self : name) (sha256 : list byte -> checksum256)
      (asset_to_string : asset -> string)
      (trace : list (list name * Z * action)) (clock : Z) (s s' : state) :
  reachable_at self sha256 asset_to_string clock s ->
  run self sha256 asset_to_string clock trace s = Ok s' ->
  custody s' = custody s + inflows self trace.
Proof.
  revert clock s. induction trace as [|[[auth now] a] trace IH]; intros clock s Hr H.
  - injection H as <-. unfold inflows. cbn [fold_right]. lia.
  - cbn [run] in H. apply bind_Ok in H. destruct H as [u [Hc H]]. apply check_Ok in Hc.
    apply bind_Ok in H. destruct H as [s1 [Happ H]].
    apply andb_true_iff in Hc. destruct Hc as [Hc1 Hc2].
    apply Z.leb_le in Hc1. apply Z.ltb_lt in Hc2.
    assert (Hr1 : reachable_at self sha256 asset_to_string now s1)
      by exact (@reach_step self sha256 asset_to_string clock now auth a s s1 Hr
                  (conj Hc1 Hc2) Happ).
    rewrite (IH now s1 Hr1 H).
    assert (Hreach : reachable self sha256 asset_to_string s) by (now exists clock).
    rewrite (apply_custody self sha256 asset_to_string auth now a s s1
               (reachable_at_inv self sha256 asset_to_string clock s Hr)
               (reachable_placeholders self sha256 asset_to_string s Hreach)
               (reachable_tables_ok self sha256 asset_to_string s Hreach) Happ).
    change (inflows self ((auth, now, a) :: trace))
      with (inflow self a + inflows self trace). lia.
Qed.

(** X8: the contract answers for what came in, no more and no less.  After
    any run from the empty state the bankrolls of the ledger, twice the
    wagers of the Bets (the player's stake and the host's, set aside when the
    wager was taken) and the payments queued so far add up to the quantities
    of the transfers notified to the contract from others: [withdraw],
    [commit], [cancelcommit], [reveal] and [collect] move shells between the
    three and bring in or lose none. *)
Theorem custody_is_what_came_in (self : name) (sha256 : list byte -> checksum256)
    (asset_to_string : asset -> string)
    (trace : list (list name * Z * action)) (s : state) :
  run self sha256 asset_to_string 0 trace init_state = Ok s ->
  total_balance (accounts s) + 2 * total_bets (matches s) + total_sent (sent s) =
  inflows self trace.
Proof.
  intros H.
  exact (run_custody self sha256 asset_to_string trace 0 init_state s
           (reach_init self sha256 asset_to_string) H).
Qed.

Lemma custody_is_what_came_in_witness :
  run Ex.SELF Ex.digest Ex.show 0 Ex.trace_settled init_state = Ok Ex.settled /\
  total_balance (accounts Ex.settled) + 2 * total_bets (matches Ex.settled) +
  total_sent (sent Ex.settled) = 1005000.
Proof.
  assert (H : run Ex.SELF Ex.digest Ex.show 0 Ex.trace_settled init_state = Ok Ex.settled)
    by reflexivity.
  split; [exact H|].
  exact (custody_is_what_came_in Ex.SELF Ex.digest Ex.show Ex.trace_settled Ex.settled H).
Defined.

(** ** The way out of a Bet that was taken *)

Lemma same_key_same_row {R : Type} (pk : R -> Z) (t : list R) (x y : R) :
  keys_unique pk t -> In x t -> In y t -> pk x = pk y -> x = y.
Proof.
  intros Hu Hx Hy Hk.
  pose proof (find_unique _ pk t x Hu Hx) as Fx.
  pose proof (find_unique _ pk t y Hu Hy) as Fy.
  rewrite Hk, Fy in Fx. now injection Fx.
Qed.

(** X9: a Bet that was taken stays in the table as it is, whatever is
    called, until somebody reveals a source whose hash has the prefix that
    keys the Bet, or somebody sweeps it with [collect] after its deadline,
    for a name that is not greater than its player's.  Neither the host's
    [cancelcommit], nor the cascade of a withdrawal, nor another wager
    touches it. *)
Theorem taken_bet_leaves_by_reveal_or_timeout (self : name)
    (sha256 : list byte -> checksum256) (asset_to_string : asset -> string)
    (auth : list name) (now : Z) (a : action) (s s' : state) (m : match_) :
  reachable self sha256 asset_to_string s ->
  In m (matches s) -> m_guess m <> NULL_GUESS ->
  apply self sha256 asset_to_string auth now a s = Ok s' ->
  In m (matches s') \/
  (exists commitment source,
      a = Reveal commitment source /\ sha256 source = commitment /\
      get_hash_prefix commitment = match_pk m) \/
  (exists player, a = Collect player /\ m_deadline m < now /\ player <= m_player m).
Proof.
  intros Hr Hm Hg H.
  destruct (reachable_inv self sha256 asset_to_string s Hr) as [_ [_ Ho]].
  destruct (reachable_tables_ok self sha256 asset_to_string s Hr) as [_ [_ Htm]].
  pose proof (table_ok_unique _ match_pk _ Htm) as Hu.
  assert (Hoffer : forall g, In g (games s) -> match_pk m <> game_pk g).
  { intros g Hin Hk. apply Hg. exact (Ho g m Hin Hm Hk). }
  assert (Hdebit : forall who value e s1,
             sub_balance who value e s = Ok s1 -> In m (matches s1)).
  { intros who value e s1 Hsub.
    destruct (sub_balance_frame _ _ _ _ _ Hsub) as [[_ ->]|Hco]; [exact Hm|].
    apply (cancel_offers_Ok _ _ _ _ _ Hco). split; [exact Hm|].
    intros g Hin. apply Hoffer. now apply sec_find_In in Hin. }
  destruct a; simpl in H.
  - left. unfold withdraw in H. inv_ok H. subst s'. cbn [matches pay].
    exact (Hdebit _ _ _ _ Hstep3).
  - left. unfold commit in H. inv_ok H. subst s'. cbn [matches].
    apply (emplace_In _ _ _ _ _ Hstep4). now right.
  - left. destruct (cancelcommit_Ok _ _ _ _ _ H) as [_ [[em [Hf Hnull]] _]].
    destruct (cancelcommit_tables _ _ _ _ _ H) as [-> _].
    apply erase_key_In. split; [exact Hm|]. intros Hk.
    apply find_In in Hf. destruct Hf as [Hem Hkem].
    apply Hg. rewrite (same_key_same_row match_pk _ m em Hu Hm Hem); [exact Hnull|congruence].
  - destruct (reveal_shape self sha256 _ _ _ _ H) as [Hhash [em [Hf [Hms _]]]].
    apply find_In in Hf. destruct Hf as [_ Hkem].
    destruct (Z.eq_dec (match_pk m) (match_pk em)) as [E|E].
    + right. left. exists commitment, source. split; [reflexivity|].
      split; [exact Hhash | congruence].
    + left. rewrite Hms. apply erase_key_In. now split.
  - unfold collect in H. apply collect_loop_Ok in H. destruct H as [Hiff _].
    set (it := sec_find get_player player (matches s)) in *.
    destruct (existsb (fun e => (m_deadline e <? now) && (match_pk m =? match_pk e)) it)
      eqn:Esw.
    + right. right. exists player. split; [reflexivity|].
      apply existsb_exists in Esw. destruct Esw as [e [He Hc]].
      apply andb_true_iff in Hc. destruct Hc as [Hd Hk].
      apply Z.ltb_lt in Hd. apply Z.eqb_eq in Hk.
      assert (Heq : m = e).
      { apply (same_key_same_row match_pk (matches s)); auto.
        exact (sec_find_In _ get_player _ _ _ He). }
      subst e. split; [exact Hd|].
      exact (sec_find_ge _ get_player _ _ _ He).
    + left. apply Hiff. split; [exact Hm|]. intros e He Hd Hk.
      assert (Hc : (m_deadline e <? now) && (match_pk m =? match_pk e) = true).
      { apply andb_true_iff. split; [now apply Z.ltb_lt | now apply Z.eqb_eq]. }
      assert (Hex : existsb (fun e => (m_deadline e <? now) && (match_pk m =? match_pk e)) it
                    = true) by (apply existsb_exists; now exists e).
      rewrite Hex in Esw. discriminate.
  - left. destruct (acorn_transfer_Ok self asset_to_string _ _ _ _ _ _ _ H)
      as [[_ ->]|[_ [_ [_ [[guess [_ Hbet]]|Hadd]]]]].
    + exact Hm.
    + destruct (do_bet_shape asset_to_string _ _ _ _ _ _ Hbet)
        as [acct [eg [s1 [em [_ [Heg [_ [_ [Hsub [_ [Hk [_ [_ [_ ->]]]]]]]]]]]]]].
      apply in_map_iff. exists m. split; [|exact (Hdebit _ _ _ _ Hsub)].
      destruct (match_pk m =? match_pk em) eqn:E; [|reflexivity].
      exfalso. apply Z.eqb_eq in E. apply (Hoffer eg Heg). congruence.
    + destruct (add_balance_frame _ _ _ _ _ Hadd) as [_ [-> _]]. exact Hm.
Qed.

Lemma taken_bet_leaves_by_reveal_or_timeout_witness :
  In (mk_match Ex.commitment1 Ex.ALICE 1 Ex.BOB (Ex.acorns 5000) 320) (matches Ex.in_play) /\
  apply Ex.SELF Ex.digest Ex.show [Ex.ALICE] 30 (Reveal Ex.commitment1 Ex.source1) Ex.in_play
  = Ok Ex.settled /\
  (In (mk_match Ex.commitment1 Ex.ALICE 1 Ex.BOB (Ex.acorns 5000) 320) (matches Ex.settled) \/
   (exists commitment source,
       Reveal Ex.commitment1 Ex.source1 = Reveal commitment source /\
       Ex.digest source = commitment /\
       get_hash_prefix commitment =
       match_pk (mk_match Ex.commitment1 Ex.ALICE 1 Ex.BOB (Ex.acorns 5000) 320)) \/
   (exists player, Reveal Ex.commitment1 Ex.source1 = Collect player /\
                   320 < 30 /\ player <= Ex.BOB)).
Proof.
  assert (Hin : In (mk_match Ex.commitment1 Ex.ALICE 1 Ex.BOB (Ex.acorns 5000) 320)
                   (matches Ex.in_play)) by (vm_compute; left; reflexivity).
  assert (Happ : apply Ex.SELF Ex.digest Ex.show [Ex.ALICE] 30
                       (Reveal Ex.commitment1 Ex.source1) Ex.in_play = Ok Ex.settled)
    by reflexivity.
  split; [exact Hin|]. split; [exact Happ|].
  refine (taken_bet_leaves_by_reveal_or_timeout Ex.SELF Ex.digest Ex.show [Ex.ALICE] 30
            (Reveal Ex.commitment1 Ex.source1) Ex.in_play Ex.settled _
            in_play_reachable Hin _ Happ).
  cbn. unfold NULL_GUESS. discriminate.
Defined.

Section KeyAbsent.
Variable self : name.
Variable sha256 : list byte -> checksum256.
Variable asset_to_string : asset -> string.

Lemma apply_keeps_key_absent (k : Z) (auth : list name) (now : Z) (a : action)
      (s s' : state) :
  find match_pk k (matches s) = None -> ~ commits_key k a ->
  apply self sha256 asset_to_string auth now a s = Ok s' ->
  find match_pk k (matches s') = None.
Proof.
  intros Hn Hnc H. pose proof (proj1 (find_None _ match_pk _ _) Hn) as Hno.
  apply find_None. intros m Hin.
  destruct (apply_matches_provenance self sha256 asset_to_string _ _ _ _ _ H m Hin)
    as [Hold|[[host [c [-> [_ ->]]]]|
              [from [to [q [memo [guess [em [_ [Hem [_ [_ [_ ->]]]]]]]]]]]]].
  - now apply Hno.
  - exact Hnc.
  - exact (Hno em Hem).
Qed.

Lemma run_keeps_key_absent (k : Z) (trace : list (list name * Z * action)) (clock : Z)
      (s s' : state) :
  find match_pk k (matches s) = None ->
  Forall (fun step => ~ commits_key k (snd step)) trace ->
  run self sha256 asset_to_string clock trace s = Ok s' ->
  find match_pk k (matches s') = None.
Proof.
  revert clock s. induction trace as [|[[auth now] a] trace IH]; intros clock s Hn Hall H.
  - now injection H as <-.
  - inversion Hall as [|? ? Hnc Hall']; subst.
    cbn [run] in H. apply bind_Ok in H. destruct H as [u [_ H]].
    apply bind_Ok in H. destruct H as [s1 [Happ H]].
    exact (IH now s1 (apply_keeps_key_absent k auth now a s s1 Hn Hnc Happ) Hall' H).
Qed.
End KeyAbsent.

(** X10: a [reveal] that went through leaves no Bet under the key of the
    commitment, and none comes back unless somebody commits that key anew:
    in every state that a run without such a [commit] reaches from there, a
    [reveal] for a commitment with the same key aborts, whatever the source:
    the hash does not match, or the Bet is not found. *)
Theorem reveal_settles_once (self : name) (sha256 : list byte -> checksum256)
    (asset_to_string : asset -> string)
    (commitment source commitment' source' : checksum256)
    (trace : list (list name * Z * action)) (clock : Z) (s s' s'' : state) :
  reveal self sha256 commitment source s = Ok s' ->
  Forall (fun step => ~ commits_key (get_hash_prefix commitment) (snd step)) trace ->
  run self sha256 asset_to_string clock trace s' = Ok s'' ->
  get_hash_prefix commitment' = get_hash_prefix commitment ->
  reveal self sha256 commitment' source' s'' = Abort "hash mismatch" \/
  reveal self sha256 commitment' source' s'' = Abort "commitment not found".
Proof.
  intros H Hall Hrun Hk.
  destruct (reveal_shape self sha256 _ _ _ _ H) as [_ [em [Hf [Hm _]]]].
  apply find_In in Hf. destruct Hf as [_ Hkem].
  assert (Hgone : find match_pk (get_hash_prefix commitment) (matches s') = None)
    by (rewrite Hm, Hkem; apply find_erase_key_same).
  pose proof (run_keeps_key_absent self sha256 asset_to_string _ trace clock s' s''
                Hgone Hall Hrun) as Hn.
  unfold reveal, assert_sha256.
  destruct (checksum_eqb (sha256 source') commitment'); [right | left; reflexivity].
  cbn [check bind]. rewrite Hk, Hn. reflexivity.
Qed.

(** After Alice's reveal of the Bet Bob took, she offers another game and
    tops up her bankroll; a second reveal of the first commitment aborts. *)
Lemma reveal_settles_once_witness :
  reveal Ex.SELF Ex.digest Ex.commitment1 Ex.source1 Ex.in_play = Ok Ex.settled /\
  run Ex.SELF Ex.digest Ex.show 30
      [ ([Ex.ALICE], 31, Commit Ex.ALICE Ex.commitment2);
        ([], 32, AcornTransfer Ex.ALICE Ex.SELF (Ex.acorns 100) "deposit") ]
      Ex.settled
  = Ok (Ex.final (run Ex.SELF Ex.digest Ex.show 30
                      [ ([Ex.ALICE], 31, Commit Ex.ALICE Ex.commitment2);
                        ([], 32, AcornTransfer Ex.ALICE Ex.SELF (Ex.acorns 100) "deposit") ]
                      Ex.settled)) /\
  (reveal Ex.SELF Ex.digest Ex.commitment1 Ex.source1
          (Ex.final (run Ex.SELF Ex.digest Ex.show 30
                         [ ([Ex.ALICE], 31, Commit Ex.ALICE Ex.commitment2);
                           ([], 32, AcornTransfer Ex.ALICE Ex.SELF (Ex.acorns 100)
                                                  "deposit") ]
                         Ex.settled))
   = Abort "hash mismatch" \/
   reveal Ex.SELF Ex.digest Ex.commitment1 Ex.source1
          (Ex.final (run Ex.SELF Ex.digest Ex.show 30
                         [ ([Ex.ALICE], 31, Commit Ex.ALICE Ex.commitment2);
                           ([], 32, AcornTransfer Ex.ALICE Ex.SELF (Ex.acorns 100)
                                                  "deposit") ]
                         Ex.settled))
   = Abort "commitment not found").
Proof.
  assert (H : reveal Ex.SELF Ex.digest Ex.commitment1 Ex.source1 Ex.in_play = Ok Ex.settled)
    by (vm_compute; reflexivity).
  assert (Hrun : run Ex.SELF Ex.digest Ex.show 30
                     [ ([Ex.ALICE], 31, Commit Ex.ALICE Ex.commitment2);
                       ([], 32, AcornTransfer Ex.ALICE Ex.SELF (Ex.acorns 100) "deposit") ]
                     Ex.settled
                 = Ok (Ex.final (run Ex.SELF Ex.digest Ex.show 30
                         [ ([Ex.ALICE], 31, Commit Ex.ALICE Ex.commitment2);
                           ([], 32, AcornTransfer Ex.ALICE Ex.SELF (Ex.acorns 100)
                                                  "deposit") ]
                         Ex.settled)))
    by (vm_compute; reflexivity).
  split; [exact H|]. split; [exact Hrun|].
  refine (reveal_settles_once Ex.SELF Ex.digest Ex.show Ex.commitment1 Ex.source1
            Ex.commitment1 Ex.source1 _ 30 Ex.in_play Ex.settled _ H _ Hrun eq_refl).
  repeat constructor; cbn [snd commits_key]; try tauto.
  vm_compute. discriminate.
Defined.

(** ** An Offer that lost its Bet *)

Lemma find_None_incl {R : Type} (pk : R -> Z) (k : Z) (t t' : list R) :
  (forall r, In r t' -> In r t) -> find pk k t = None -> find pk k t' = None.
Proof.
  intros Hincl Hn. apply find_None. intros r Hr.
  exact (proj1 (find_None _ pk k t) Hn r (Hincl r Hr)).
Qed.

Lemma cancel_offers_orphan (git : list game) (mts : list match_) (gms : list game) :
  (exists g, In g git /\ find match_pk (game_pk g) mts = None) ->
  cancel_offers git mts gms = Abort ERASE_END.
Proof.
  revert mts gms. induction git as [|g0 git IH]; intros mts gms [g [Hin Hn]];
    [destruct Hin|].
  cbn [cancel_offers].
  destruct (find match_pk (game_pk g0) mts) as [r|] eqn:Ef; [|reflexivity].
  cbn [erase bind]. destruct Hin as [->|Hin]; [congruence|].
  apply IH. exists g. split; [exact Hin|].
  apply (find_None_incl match_pk _ mts); [|exact Hn].
  intros x Hx. now apply erase_key_In in Hx.
Qed.

Section Orphan.
Variable self : name.
Variable sha256 : list byte -> checksum256.
Variable asset_to_string : asset -> string.

Lemma sub_balance_orphan (who : name) (value : asset) (e : bool) (s s1 : state) (g : game) :
  orphan_offer g s -> sub_balance who value e s = Ok s1 -> orphan_offer g s1.
Proof.
  intros [Hg Hn] H. split.
  - destruct (sub_balance_frame _ _ _ _ _ H) as [[-> _]|Hco]; [exact Hg|].
    apply (cancel_offers_Ok _ _ _ _ _ Hco). split; [exact Hg|].
    intros g0 Hg0 Hk.
    destruct (cancel_offers_paired _ _ _ _ Hco g0 Hg0) as [em [Hem Hkem]].
    apply (proj1 (find_None _ match_pk _ _) Hn em Hem). congruence.
  - apply (find_None_incl match_pk _ (matches s)); [|exact Hn].
    exact (proj1 (sub_balance_incl _ _ _ _ _ H)).
Qed.

Lemma apply_orphan (auth : list name) (now : Z) (a : action) (s s' : state) (g : game) :
  tables_ok s -> orphan_offer g s ->
  apply self sha256 asset_to_string auth now a s = Ok s' ->
  orphan_offer g s'.
Proof.
  intros [_ [Htg _]] Horph H. pose proof Horph as [Hg Hn].
  pose proof (proj1 (find_None _ match_pk _ _) Hn) as Hno.
  destruct a; simpl in H.
  - unfold withdraw in H. inv_ok H. subst s'.
    exact (sub_balance_orphan _ _ _ _ _ g Horph Hstep3).
  - unfold commit in H. inv_ok H. subst s'. split; cbn [games matches].
    + apply (emplace_In _ _ _ _ _ Hstep3). now right.
    + apply find_None. intros r Hr.
      apply (emplace_In _ _ _ _ _ Hstep4) in Hr. destruct Hr as [->|Hr]; [|now apply Hno].
      intros Hk. apply (emplace_Ok_fresh game_pk _ _ _ Htg Hstep3 g Hg).
      symmetry. exact Hk.
  - destruct (cancelcommit_Ok _ _ _ _ _ H) as [_ [[em [Hf _]] _]].
    destruct (cancelcommit_tables _ _ _ _ _ H) as [Hm Hgs].
    apply find_In in Hf. destruct Hf as [Hem Hkem].
    split.
    + rewrite Hgs. apply erase_key_In. split; [exact Hg|].
      intros Hk. apply (Hno em Hem). congruence.
    + rewrite Hm. apply (find_None_incl match_pk _ (matches s)); [|exact Hn].
      intros x Hx. now apply erase_key_In in Hx.
  - destruct (reveal_shape self sha256 _ _ _ _ H) as [_ [em [Hf [Hm Hcase]]]].
    apply find_In in Hf. destruct Hf as [Hem Hkem].
    split.
    + destruct Hcase as [[_ [_ [_ [_ ->]]]]|[_ [-> _]]]; [|exact Hg].
      apply erase_key_In. split; [exact Hg|].
      intros Hk. apply (Hno em Hem). congruence.
    + rewrite Hm. apply (find_None_incl match_pk _ (matches s)); [|exact Hn].
      intros x Hx. now apply erase_key_In in Hx.
  - destruct (collect_loop_frame self _ _ _ _ _ H) as [_ [Hgs Hincl]].
    split; [now rewrite Hgs|].
    exact (find_None_incl match_pk _ _ _ Hincl Hn).
  - destruct (acorn_transfer_Ok self asset_to_string _ _ _ _ _ _ _ H)
      as [[_ ->]|[_ [_ [_ [[guess [_ Hbet]]|Hadd]]]]].
    + exact Horph.
    + destruct (do_bet_shape asset_to_string _ _ _ _ _ _ Hbet)
        as [acct [eg [s1 [em [_ [_ [_ [_ [Hsub [Hem [Hk [_ [_ [Hgs Hm]]]]]]]]]]]]]].
      destruct (sub_balance_orphan _ _ _ _ _ g Horph Hsub) as [Hg1 Hn1].
      pose proof (proj1 (find_None _ match_pk _ _) Hn1) as Hno1.
      split.
      * rewrite Hgs. apply erase_key_In. split; [exact Hg1|].
        intros Hkg. apply (Hno1 em Hem). congruence.
      * rewrite Hm. apply find_None. intros r Hr.
        apply in_map_iff in Hr. destruct Hr as [x [<- Hx]].
        destruct (match_pk x =? match_pk em) eqn:E; [|now apply Hno1].
        exact (Hno1 em Hem).
    + destruct (add_balance_frame _ _ _ _ _ Hadd) as [Hgs [Hm _]].
      split; [now rewrite Hgs | now rewrite Hm].
Qed.
End Orphan.

(** X11: an Offer whose Bet is gone (as after a sweep for the empty name)
    never leaves.  Whatever is called afterwards, the Offer is still there
    without a Bet, and its host still holds the ledger row with a positive
    bankroll: [cancelcommit], [reveal] and a wager look for the Bet first,
    [commit] refuses the key of the Offer, and the withdrawal that would
    empty the account aborts in its cascade. *)
Theorem orphan_offer_never_leaves (self : name) (sha256 : list byte -> checksum256)
    (asset_to_string : asset -> string)
    (trace : list (list name * Z * action)) (clock : Z) (s s' : state) (g : game) :
  reachable_at self sha256 asset_to_string clock s ->
  orphan_offer g s ->
  run self sha256 asset_to_string clock trace s = Ok s' ->
  orphan_offer g s' /\
  exists a, accounts s' = [a] /\ owner a = g_host g /\ 0 < amount (balance a).
Proof.
  revert clock s. induction trace as [|[[auth now] a] trace IH]; intros clock s Hr Horph H.
  - injection H as <-. split; [exact Horph|].
    assert (Hreach : reachable self sha256 asset_to_string s) by (now exists clock).
    destruct (reachable_ledger_run self sha256 asset_to_string s Hreach) as [_ Hob].
    destruct (reachable_inv self sha256 asset_to_string s Hreach) as [[_ Hl] _].
    destruct (Hob g (proj1 Horph)) as [a [E Ho]]. exists a.
    split; [exact E|]. split; [exact Ho|]. apply Hl. rewrite E. now left.
  - cbn [run] in H. apply bind_Ok in H. destruct H as [u [Hc H]]. apply check_Ok in Hc.
    apply bind_Ok in H. destruct H as [s1 [Happ H]].
    apply andb_true_iff in Hc. destruct Hc as [Hc1 Hc2].
    apply Z.leb_le in Hc1. apply Z.ltb_lt in Hc2.
    assert (Hreach : reachable self sha256 asset_to_string s) by (now exists clock).
    apply (IH now s1); [|
      exact (apply_orphan self sha256 asset_to_string auth now a s s1 g
               (reachable_tables_ok self sha256 asset_to_string s Hreach) Horph Happ)|
      exact H].
    exact (@reach_step self sha256 asset_to_string clock now auth a s s1 Hr
             (conj Hc1 Hc2) Happ).
Qed.

Lemma swept_reachable_at : reachable_at Ex.SELF Ex.digest Ex.show 11 Ex.swept.
Proof.
  apply (@reach_step Ex.SELF Ex.digest Ex.show 10 11 [Ex.BOB] (Collect NULL_NAME)
           Ex.offer_open Ex.swept); [|lia|reflexivity].
  apply (@reach_step Ex.SELF Ex.digest Ex.show 10 10 [Ex.ALICE]
           (Commit Ex.ALICE Ex.commitment1) Ex.funded Ex.offer_open); [|lia|reflexivity].
  apply (@reach_step Ex.SELF Ex.digest Ex.show 0 10 []
           (AcornTransfer Ex.ALICE Ex.SELF (Ex.acorns 1000000) "deposit")
           init_state Ex.funded); [|lia|reflexivity].
  apply reach_init.
Qed.

Lemma swept_offer_is_orphan : orphan_offer (mk_game Ex.commitment1 Ex.ALICE) Ex.swept.
Proof. split; [now left | reflexivity]. Qed.

Lemma orphan_offer_never_leaves_witness :
  run Ex.SELF Ex.digest Ex.show 11
      [ ([Ex.ALICE], 12, Withdraw Ex.ALICE (Ex.acorns 400000));
        ([], 13, AcornTransfer Ex.ALICE Ex.SELF (Ex.acorns 100) "deposit") ]
      Ex.swept
  = Ok (mk_state [mk_account Ex.ALICE (Ex.acorns 600100)] (games Ex.swept)
                 (matches Ex.swept)
                 (sent Ex.swept ++ [mk_transfer Ex.SELF Ex.ALICE (Ex.acorns 400000) ""])) /\
  orphan_offer (mk_game Ex.commitment1 Ex.ALICE)
    (mk_state [mk_account Ex.ALICE (Ex.acorns 600100)] (games Ex.swept)
              (matches Ex.swept)
              (sent Ex.swept ++ [mk_transfer Ex.SELF Ex.ALICE (Ex.acorns 400000) ""])) /\
  exists a, [mk_account Ex.ALICE (Ex.acorns 600100)] = [a] /\
            owner a = Ex.ALICE /\ 0 < amount (balance a).
Proof.
  assert (H : run Ex.SELF Ex.digest Ex.show 11
                  [ ([Ex.ALICE], 12, Withdraw Ex.ALICE (Ex.acorns 400000));
                    ([], 13, AcornTransfer Ex.ALICE Ex.SELF (Ex.acorns 100) "deposit") ]
                  Ex.swept
              = Ok (mk_state [mk_account Ex.ALICE (Ex.acorns 600100)] (games Ex.swept)
                             (matches Ex.swept)
                             (sent Ex.swept ++
                              [mk_transfer Ex.SELF Ex.ALICE (Ex.acorns 400000) ""])))
    by (vm_compute; reflexivity).
  split; [exact H|].
  exact (orphan_offer_never_leaves Ex.SELF Ex.digest Ex.show _ 11 Ex.swept _
           (mk_game Ex.commitment1 Ex.ALICE) swept_reachable_at swept_offer_is_orphan H).
Defined.

(** X12: the host of an Offer whose Bet is gone cannot take the whole
    bankroll out.  The withdrawal passes every test of [withdraw] and of
    [sub_balance], and then the cascade aborts on the Offer: it erases the
    Bet through an iterator that is [end()]. *)
Theorem orphan_offer_blocks_full_withdrawal (self : name)
    (sha256 : list byte -> checksum256) (asset_to_string : asset -> string)
    (s : state) (g : game) (auth : list name) (quantity : asset) :
  reachable self sha256 asset_to_string s ->
  orphan_offer g s ->
  In (g_host g) auth ->
  symbol quantity = ACORN_SYMBOL ->
  amount quantity = ledger_balance (g_host g) s ->
  withdraw self auth (g_host g) quantity s = Abort ERASE_END.
Proof.
  intros Hr [Hg Hn] Hauth Hsym Hq.
  destruct (reachable_ledger_run self sha256 asset_to_string s Hr) as [Hb Hob].
  destruct (reachable_inv self sha256 asset_to_string s Hr) as [[_ Hl] _].
  destruct (Hob g Hg) as [a [E Ho]].
  assert (Ha : In a (accounts s)) by (rewrite E; now left).
  destruct (Hl a Ha) as [Hsa Hpos]. pose proof (Hb a Ha) as Hmax.
  assert (Hfind : sec_find get_owner (g_host g) (accounts s) = [a]).
  { rewrite E, sec_find_single, Ho, Z.eqb_refl. reflexivity. }
  unfold ledger_balance in Hq. rewrite Hfind in Hq.
  unfold withdraw.
  rewrite (proj2 (require_auth_Ok auth (g_host g)) Hauth). cbn [bind].
  rewrite Hsym, Z.eqb_refl. cbn [check bind].
  assert (Hv : is_valid quantity = true).
  { unfold is_valid, is_amount_within_range. apply andb_true_iff.
    split; [apply Z.leb_le | apply Z.leb_le]; unfold max_amount in *; lia. }
  rewrite Hv. cbn [check bind].
  assert (Hgt : (amount quantity >? 0) = true) by (apply Z.gtb_lt; lia).
  rewrite Hgt. cbn [check bind].
  unfold sub_balance. rewrite Hfind.
  assert (Hge : (amount (balance a) >=? amount quantity) = true) by (apply Z.geb_le; lia).
  rewrite Hge. cbn [check bind].
  rewrite (asset_sub_in_range (balance a) quantity);
    [|congruence | unfold max_amount in *; lia].
  cbn [bind amount]. rewrite Hq, Z.sub_diag. cbn [Z.eqb].
  rewrite (cancel_offers_orphan _ _ _); [reflexivity|].
  exists g. split; [|exact Hn].
  now apply (sec_find_complete _ get_host).
Qed.

Lemma orphan_offer_blocks_full_withdrawal_witness :
  withdraw Ex.SELF [Ex.ALICE] Ex.ALICE (Ex.acorns 1000000) Ex.swept = Abort ERASE_END.
Proof.
  exact (orphan_offer_blocks_full_withdrawal Ex.SELF Ex.digest Ex.show Ex.swept
           (mk_game Ex.commitment1 Ex.ALICE) [Ex.ALICE] (Ex.acorns 1000000)
           swept_reachable swept_offer_is_orphan (or_introl eq_refl) eq_refl eq_refl).
Defined.

(** ** Sweeps *)

(** Once the index holds a row with the key asked for, [find] hands over
    every row from there to the end: all the rows with that key or a greater
    one. *)
Lemma sec_find_overrun {R : Type} (sk : R -> Z) (k : Z) (x y : R) (t : list R) :
  In y t -> sk y = k -> In x t -> k <= sk x -> In x (sec_find sk k t).
Proof.
  intros Hy Hky Hx Hkx. unfold sec_find.
  assert (Hlx : In x (lower_bound sk k (index_order sk t))).
  { apply lower_bound_keeps; [now apply index_order_In | exact Hkx]. }
  assert (Hly : In y (lower_bound sk k (index_order sk t))).
  { apply lower_bound_keeps; [now apply index_order_In | lia]. }
  pose proof (lower_bound_sorted _ sk k _ (index_order_sorted _ sk t)) as Hs.
  destruct (lower_bound sk k (index_order sk t)) as [|h rest] eqn:E; [destruct Hlx|].
  pose proof (lower_bound_head _ sk _ _ _ _ E) as Hh.
  destruct Hs as [Hall _].
  assert (Hhk : sk h = k).
  { destruct Hly as [->|Hy']; [exact Hky|]. specialize (Hall y Hy'). lia. }
  apply Z.eqb_eq in Hhk. rewrite Hhk. exact Hlx.
Qed.

Lemma collect_loop_unexpired (self : name) (now : Z) (player : name)
      (it : list match_) (s : state) :
  (forall e, In e it -> (now >? m_deadline e) = false) ->
  collect_loop self now player it s = Ok s.
Proof.
  induction it as [|em it IH]; intros Hall; [reflexivity|].
  cbn [collect_loop]. rewrite (Hall em (or_introl eq_refl)).
  apply IH. intros e He. apply Hall. now right.
Qed.

(** X13: a sweep leaves nothing for the same sweep: [collect] called again
    for the same name at the same time goes through and changes nothing,
    pays nothing. *)
Theorem collect_again_changes_nothing (self : name) (now : Z) (player : name)
    (s s' : state) :
  collect self now player s = Ok s' ->
  collect self now player s' = Ok s'.
Proof.
  intros H. unfold collect in *. apply collect_loop_unexpired. intros e He.
  destruct (now >? m_deadline e) eqn:E; [|reflexivity].
  exfalso. apply Z.gtb_lt in E.
  destruct (collect_loop_Ok self _ _ _ _ _ H) as [Hiff _].
  pose proof (sec_find_ge _ get_player _ _ _ He) as Hge.
  pose proof (proj1 (Hiff e) (sec_find_In _ get_player _ _ _ He)) as [Hes Hne].
  destruct (sec_find get_player player (matches s')) as [|y rest] eqn:Ey; [destruct He|].
  apply sec_find_head in Ey. destruct Ey as [Hky Hy].
  apply Hiff in Hy. destruct Hy as [Hys _].
  apply (Hne e); [|exact E|reflexivity].
  exact (sec_find_overrun get_player player e y _ Hys Hky Hes Hge).
Qed.

Lemma collect_again_changes_nothing_witness :
  collect Ex.SELF 400 Ex.BOB Ex.in_play
  = Ok (mk_state (accounts Ex.in_play) (games Ex.in_play) []
                 (sent Ex.in_play ++
                  [mk_transfer Ex.SELF Ex.BOB (Ex.acorns 10000) "Win! (Timeout)"])) /\
  collect Ex.SELF 400 Ex.BOB
          (mk_state (accounts Ex.in_play) (games Ex.in_play) []
                    (sent Ex.in_play ++
                     [mk_transfer Ex.SELF Ex.BOB (Ex.acorns 10000) "Win! (Timeout)"]))
  = Ok (mk_state (accounts Ex.in_play) (games Ex.in_play) []
                 (sent Ex.in_play ++
                  [mk_transfer Ex.SELF Ex.BOB (Ex.acorns 10000) "Win! (Timeout)"])).
Proof.
  assert (H : collect Ex.SELF 400 Ex.BOB Ex.in_play
              = Ok (mk_state (accounts Ex.in_play) (games Ex.in_play) []
                             (sent Ex.in_play ++
                              [mk_transfer Ex.SELF Ex.BOB (Ex.acorns 10000)
                                           "Win! (Timeout)"])))
    by (vm_compute; reflexivity).
  split; [exact H|].
  exact (collect_again_changes_nothing Ex.SELF 400 Ex.BOB Ex.in_play _ H).
Defined.

(** X14: [collect] does not stop at the Bets of the player it is called
    for.  When that player has a Bet in the table, every Bet past its
    deadline whose player's name is not less than the player's is swept, and
    its two stakes are paid to the player named in the call, whoever placed
    the wager. *)
Theorem collect_sweeps_greater_players (self : name) (now : Z) (player : name)
    (s s' : state) (own m : match_) :
  collect self now player s = Ok s' ->
  In own (matches s) -> m_player own = player ->
  In m (matches s) -> player <= m_player m -> m_deadline m < now ->
  ~ In m (matches s') /\
  In (mk_transfer self player (mk_asset (amount (m_bet m) * 2) (symbol (m_bet m)))
                  "Win! (Timeout)") (sent s').
Proof.
  intros H Hown Hk Hm Hge Hd. unfold collect in H.
  destruct (collect_loop_Ok self _ _ _ _ _ H) as [Hiff Hsent].
  assert (Hit : In m (sec_find get_player player (matches s)))
    by exact (sec_find_overrun get_player player m own _ Hown Hk Hm Hge).
  split.
  - intros Hin. apply Hiff in Hin. destruct Hin as [_ Hne].
    exact (Hne m Hit Hd eq_refl).
  - rewrite Hsent. apply in_or_app. right.
    change (In (timeout_payment self player m)
               (map (timeout_payment self player)
                    (filter (fun e => now >? m_deadline e)
                            (sec_find get_player player (matches s))))).
    apply in_map. apply filter_In. split; [exact Hit | now apply Z.gtb_lt].
Qed.

(** Bob sweeps after both deadlines: Carol's wager is paid to him. *)
Lemma collect_sweeps_greater_players_witness :
  exists s',
    collect Ex.SELF 400 Ex.BOB Ex2.two_bets = Ok s' /\
    ~ In (mk_match Ex.commitment1 Ex.ALICE 0 Ex.CAROL (Ex.acorns 4000) 321) (matches s') /\
    In (mk_transfer Ex.SELF Ex.BOB (Ex.acorns 8000) "Win! (Timeout)") (sent s').
Proof.
  exists (mk_state (accounts Ex2.two_bets) [] []
                   [mk_transfer Ex.SELF Ex.BOB (Ex.acorns 10000) "Win! (Timeout)";
                    mk_transfer Ex.SELF Ex.BOB (Ex.acorns 8000) "Win! (Timeout)"]).
  assert (H : collect Ex.SELF 400 Ex.BOB Ex2.two_bets
              = Ok (mk_state (accounts Ex2.two_bets) [] []
                      [mk_transfer Ex.SELF Ex.BOB (Ex.acorns 10000) "Win! (Timeout)";
                       mk_transfer Ex.SELF Ex.BOB (Ex.acorns 8000) "Win! (Timeout)"]))
    by (vm_compute; reflexivity).
  split; [exact H|].
  refine (collect_sweeps_greater_players Ex.SELF 400 Ex.BOB Ex2.two_bets _
            (mk_match Ex.commitment2 Ex.ALICE 1 Ex.BOB (Ex.acorns 5000) 320)
            (mk_match Ex.commitment1 Ex.ALICE 0 Ex.CAROL (Ex.acorns 4000) 321)
            H _ eq_refl _ _ _).
  - vm_compute. left. reflexivity.
  - vm_compute. right. left. reflexivity.
  - vm_compute. discriminate.
  - reflexivity.
Defined.

(** ** Wagers are covered *)

Lemma covered_twice_fits :
  2 * Z.quot max_amount MAX_BET_TO_BANKROLL_RATIO <= max_amount.
Proof. vm_compute. discriminate. Qed.

Section Covered.
Variable self : name.
Variable sha256 : list byte -> checksum256.
Variable asset_to_string : asset -> string.

Lemma apply_wagers_covered (auth : list name) (now : Z) (a : action) (s s' : state) :
  ledger_bounded (accounts s) -> wagers_covered (matches s) ->
  apply self sha256 asset_to_string auth now a s = Ok s' ->
  wagers_covered (matches s').
Proof.
  intros Hb Hw H m Hin.
  destruct (apply_matches_provenance self sha256 asset_to_string _ _ _ _ _ H m Hin)
    as [Hold|[[host [c [_ [_ ->]]]]|
              [from [to [q [memo [guess [em [-> [_ [_ [_ [Hq Hmk]]]]]]]]]]]]].
  - now apply Hw.
  - cbn [m_bet ZERO_ACORNS amount]. split; [lia | vm_compute; discriminate].
  - simpl in H.
    destruct (acorn_transfer_Ok self asset_to_string _ _ _ _ _ _ _ H)
      as [[_ ->]|[_ [_ [_ [[g [_ Hbet]]|Hadd]]]]].
    + now apply Hw.
    + subst m. cbn [m_bet].
      destruct (do_bet_shape asset_to_string _ _ _ _ _ _ Hbet)
        as [acct [_ [_ [_ [Hacct [_ [_ [Hle _]]]]]]]].
      unfold MIN_TRANSFER_SHELLS in Hq. split; [lia|].
      pose proof (Hb acct Hacct) as Hmax.
      assert (Z.quot (amount (balance acct)) MAX_BET_TO_BANKROLL_RATIO
              <= Z.quot max_amount MAX_BET_TO_BANKROLL_RATIO)
        by (apply Z.quot_le_mono; [reflexivity | exact Hmax]).
      lia.
    + destruct (add_balance_frame _ _ _ _ _ Hadd) as [_ [Hm _]].
      rewrite Hm in Hin. now apply Hw.
Qed.

Lemma reachable_wagers_covered (s : state) :
  reachable self sha256 asset_to_string s -> wagers_covered (matches s).
Proof.
  intros [clock H]. induction H as [|clock now auth a s s' Hr IH _ Happ].
  - intros m [].
  - apply (apply_wagers_covered auth now a s s'); [|exact IH|exact Happ].
    apply (reachable_ledger_run self sha256 asset_to_string s). now exists clock.
Qed.
End Covered.

(** X15: in a reachable state [collect] never aborts, whatever the name and
    the time: every wager was covered a hundred times by a bankroll, so
    doubling it cannot overflow an asset. *)
Theorem collect_always_goes_through (self : name) (sha256 : list byte -> checksum256)
    (asset_to_string : asset -> string) (s : state) (now : Z) (player : name) :
  reachable self sha256 asset_to_string s ->
  exists s', collect self now player s = Ok s'.
Proof.
  intros Hr. unfold collect. apply collect_loop_total. intros e He.
  apply sec_find_In in He.
  pose proof (reachable_wagers_covered self sha256 asset_to_string s Hr e He) as Hc.
  pose proof covered_twice_fits. unfold max_amount in *. lia.
Qed.

Lemma collect_always_goes_through_witness :
  exists s', collect Ex.SELF 400 Ex.CAROL Ex2.two_bets = Ok s'.
Proof.
  apply (collect_always_goes_through Ex.SELF Ex.digest Ex.show Ex2.two_bets 400 Ex.CAROL).
  apply (run_from_init _ _ _ Ex2.trace_two_bets). reflexivity.
Defined.

Lemma two_bets_reachable : reachable Ex.SELF Ex.digest Ex.show Ex2.two_bets.
Proof. apply (run_from_init _ _ _ Ex2.trace_two_bets). reflexivity. Qed.

Lemma host_left_reachable : reachable Ex.SELF Ex.digest Ex.show Ex2.host_left.
Proof. apply (run_from_init _ _ _ Ex2.trace_host_left). reflexivity. Qed.

(** C1 at a failing run: Alice deposits and commits, Bob takes the game
    with a wager on odd, Alice withdraws her whole bankroll, and Carol
    deposits.  The state is reachable and holds Bob's Bet, active, under the
    key of Alice's commitment.  Alice's reveal with the source of the
    commitment aborts when it credits her share: the ledger row is Carol's,
    and a row for Alice would have the same primary key.  Nobody is paid,
    and the Bet stays.  While Alice still held the row, the same reveal went
    through. *)
Theorem reveal_of_active_bet_aborts :
  reachable Ex.SELF Ex.digest Ex.show Ex2.host_left /\
  Ex.digest Ex.source1 = Ex.commitment1 /\
  find match_pk (get_hash_prefix Ex.commitment1) (matches Ex2.host_left)
  = Some (mk_match Ex.commitment1 Ex.ALICE 1 Ex.BOB (Ex.acorns 5000) 320) /\
  1 <> NULL_GUESS /\
  accounts Ex2.host_left = [mk_account Ex.CAROL (Ex.acorns 500000)] /\
  reveal Ex.SELF Ex.digest Ex.commitment1 Ex.source1 Ex2.host_left = Abort DUPLICATE_KEY /\
  reveal Ex.SELF Ex.digest Ex.commitment1 Ex.source1 Ex.in_play = Ok Ex.settled.
Proof.
  split; [exact host_left_reachable|].
  split; [vm_compute; reflexivity|].
  split; [vm_compute; reflexivity|].
  split; [vm_compute; discriminate|].
  split; [reflexivity|].
  split; vm_compute; reflexivity.
Qed.

(** ** When a reveal goes through *)

Lemma add_balance_unchecked_iff (who : name) (value : asset) (s : state) :
  ledger_inv (accounts s) -> symbol value = ACORN_SYMBOL ->
  0 <= amount value <= max_amount ->
  (exists s', add_balance who value false s = Ok s') <->
  (accounts s = [] \/
   exists a, accounts s = [a] /\ owner a = who /\
             amount (balance a) + amount value <= max_amount).
Proof.
  intros Hl Hsym Hv. split.
  - intros [s' H].
    destruct (add_balance_shape _ _ _ _ _ Hl Hsym H) as [_ [Hprev [Hsum _]]].
    destruct Hprev as [E|[a [E Ho]]]; [now left|].
    right. exists a. split; [exact E|]. split; [exact Ho|].
    specialize (Hsum (proj2 Hv)). rewrite E, total_balance_one in Hsum. exact Hsum.
  - intros [E|[a [E [Ho Hsum]]]].
    + unfold add_balance. rewrite E. cbn. eexists. reflexivity.
    + destruct (proj2 Hl a ltac:(rewrite E; now left)) as [Hsa Hpos].
      subst who. rewrite (add_balance_tops_up a value false s E);
        [eexists; reflexivity | congruence | unfold max_amount in *; lia].
Qed.

(** X16: in a reachable state, the reveal of a Bet that was taken, with the
    source of its commitment, goes through exactly when the host's share can
    be credited: the ledger is empty, or its row is the host's and has room
    for the share.  When the row belongs to somebody else the reveal aborts,
    and the Bet can only be swept after its deadline. *)
Theorem reveal_of_taken_bet_goes_through_iff (self : name)
    (sha256 : list byte -> checksum256) (asset_to_string : asset -> string)
    (s : state) (commitment source : checksum256) (em : match_) :
  reachable self sha256 asset_to_string s ->
  sha256 source = commitment ->
  find match_pk (get_hash_prefix commitment) (matches s) = Some em ->
  m_guess em <> NULL_GUESS ->
  let host_payout :=
    if Z.land (byte_at 31 source) 1 =? m_guess em
    then 1 else amount (m_bet em) * 2 - 1 in
  (exists s', reveal self sha256 commitment source s = Ok s') <->
  (accounts s = [] \/
   exists a, accounts s = [a] /\ owner a = m_host em /\
             amount (balance a) + host_payout <= max_amount).
Proof.
  intros Hr Hhash Hf Hg host_payout.
  destruct (reachable_inv self sha256 asset_to_string s Hr) as [Hl [Hw _]].
  pose proof (find_In _ match_pk _ _ _ Hf) as [Hem _].
  destruct (Hw em Hem Hg) as [Hsym Hmin]. unfold MIN_TRANSFER_SHELLS in Hmin.
  pose proof (reachable_wagers_covered self sha256 asset_to_string s Hr em Hem) as Hc.
  pose proof covered_twice_fits as Hfit.
  assert (Hrange : 1 <= amount (m_bet em) * 2 - 1 <= max_amount) by lia.
  assert (Hred : exists player_payout message,
             reveal self sha256 commitment source s =
             (s1 <- add_balance (m_host em) (mk_asset host_payout ACORN_SYMBOL) false
                                (pay self (m_player em) player_payout message s) ;;
              Ok (set_matches (erase_key match_pk (match_pk em) (matches s1)) s1))).
  { unfold reveal, assert_sha256.
    rewrite (proj2 (checksum_eqb_eq (sha256 source) commitment) Hhash). cbn [check bind].
    rewrite Hf. apply Z.eqb_neq in Hg. rewrite Hg. cbn [negb].
    rewrite (asset_mul_in_range (m_bet em) 2) by (unfold max_amount in *; lia).
    cbn [bind].
    rewrite (asset_sub_in_range _ ACORN_SHELL);
      [|cbn [symbol ACORN_SHELL]; congruence
       |cbn [amount ACORN_SHELL]; unfold max_amount in *; lia].
    cbn [bind amount symbol ACORN_SHELL]. rewrite Hsym. subst host_payout.
    destruct (Z.land (byte_at 31 source) 1 =? m_guess em);
      eexists; eexists; reflexivity. }
  destruct Hred as [pp [msg Hred]]. rewrite Hred.
  assert (Hhp : 0 <= amount (mk_asset host_payout ACORN_SYMBOL) <= max_amount).
  { cbn [amount]. subst host_payout.
    destruct (Z.land (byte_at 31 source) 1 =? m_guess em); unfold max_amount in *; lia. }
  pose proof (add_balance_unchecked_iff (m_host em) (mk_asset host_payout ACORN_SYMBOL)
                (pay self (m_player em) pp msg s) Hl eq_refl Hhp) as Hiff.
  cbn [accounts pay amount] in Hiff. rewrite <- Hiff. split.
  - intros [s' H]. apply bind_Ok in H. destruct H as [s1 [H _]]. now exists s1.
  - intros [s1 H]. rewrite H. cbn [bind]. eexists. reflexivity.
Qed.

(** Alice has left and the ledger row is Carol's: Alice's reveal of the Bet
    Bob took does not go through. *)
Lemma reveal_of_taken_bet_goes_through_iff_witness :
  ~ (exists s', reveal Ex.SELF Ex.digest Ex.commitment1 Ex.source1 Ex2.host_left = Ok s').
Proof.
  intros H.
  apply (proj1 (reveal_of_taken_bet_goes_through_iff Ex.SELF Ex.digest Ex.show
                  Ex2.host_left Ex.commitment1 Ex.source1
                  (mk_match Ex.commitment1 Ex.ALICE 1 Ex.BOB (Ex.acorns 5000) 320)
                  host_left_reachable eq_refl eq_refl
                  ltac:(cbn; unfold NULL_GUESS; discriminate))) in H.
  destruct H as [E|[a [E [Ho _]]]]; [discriminate E|].
  injection E as <-. discriminate Ho.
Defined.

(** ** Offers and Bets without sweeps for the empty name *)

(** X17: a run in which nobody calls [collect] for the empty name keeps the
    Offers and the placeholder Bets in step: in the state it ends in, the
    keys of the Offers are the keys of the Bets whose guess is unset. *)
Theorem duality_without_empty_sweep (self : name) (sha256 : list byte -> checksum256)
    (asset_to_string : asset -> string)
    (trace : list (list name * Z * action)) (s : state) :
  Forall (fun step => not_empty_sweep (snd step)) trace ->
  run self sha256 asset_to_string 0 trace init_state = Ok s ->
  forall k,
    (exists g, In g (games s) /\ game_pk g = k) <->
    (exists m, In m (matches s) /\ match_pk m = k /\ m_guess m = NULL_GUESS).
Proof.
  intros Hall H.
  assert (Hinit : reachable self sha256 asset_to_string init_state)
    by (exists 0; apply reach_init).
  exact (run_keeps_duality self sha256 asset_to_string trace 0 init_state s
           (reachable_inv self sha256 asset_to_string _ Hinit)
           (reachable_placeholders self sha256 asset_to_string _ Hinit)
           init_state_duality Hall H).
Qed.

Lemma duality_without_empty_sweep_witness :
  (exists g, In g (games Ex.three_offers) /\ game_pk g = get_hash_prefix Ex.commitment1) <->
  (exists m, In m (matches Ex.three_offers) /\
             match_pk m = get_hash_prefix Ex.commitment1 /\ m_guess m = NULL_GUESS).
Proof.
  apply (duality_without_empty_sweep Ex.SELF Ex.digest Ex.show Ex.trace_three_offers
           Ex.three_offers).
  - repeat constructor.
  - reflexivity.
Defined.

(** ** Withdrawals *)

(** X18: a withdrawal that goes through was signed by the owner, takes a
    positive quantity that the owner's bankroll covers, lowers the bankroll
    by that quantity and queues one payment of that quantity to the owner.
    What remains is nothing, or at least the minimum balance, and then the
    quantity is at least the minimum transfer. *)
Theorem withdraw_pays_what_it_debits (self : name) (sha256 : list byte -> checksum256)
    (asset_to_string : asset -> string)
    (auth : list name) (to : name) (quantity : asset) (s s' : state) :
  reachable self sha256 asset_to_string s ->
  withdraw self auth to quantity s = Ok s' ->
  In to auth /\
  0 < amount quantity <= ledger_balance to s /\
  ledger_balance to s' = ledger_balance to s - amount quantity /\
  sent s' = (sent s ++ [mk_transfer self to quantity ""])%list /\
  (ledger_balance to s' = 0 \/
   (amount MIN_BALANCE <= ledger_balance to s' /\ MIN_TRANSFER_SHELLS <= amount quantity)).
Proof.
  intros Hr H.
  destruct (reachable_inv self sha256 asset_to_string s Hr) as [Hl _].
  unfold withdraw in H. inv_ok H. subst s'.
  destruct v. apply require_auth_Ok in Hstep. apply Z.gtb_lt in Hstep2.
  destruct (sub_balance_shape _ _ _ _ _ Hl Hstep3)
    as [a [E [Ho [_ [Hle [Hs Hcase]]]]]].
  assert (Hbal : ledger_balance to s = amount (balance a)).
  { unfold ledger_balance. rewrite E, sec_find_single, Ho, Z.eqb_refl. reflexivity. }
  split; [exact Hstep|]. split; [lia|].
  unfold ledger_balance at 1 3 4. cbn [accounts sent pay]. rewrite Hs, Hbal.
  destruct Hcase as [[Hv [Hacc _]]|[Hv [Hacc [_ [_ Hmin]]]]]; rewrite Hacc.
  - cbn. split; [lia|]. split; [reflexivity | now left].
  - rewrite sec_find_single. cbn [owner]. rewrite Z.eqb_refl. cbn [balance amount].
    split; [reflexivity|]. split; [reflexivity|]. right. exact (Hmin eq_refl).
Qed.

Lemma withdraw_pays_what_it_debits_witness :
  exists s',
    withdraw Ex.SELF [Ex.ALICE] Ex.ALICE (Ex.acorns 400000) Ex.funded = Ok s' /\
    ledger_balance Ex.ALICE s' = ledger_balance Ex.ALICE Ex.funded - 400000 /\
    sent s' = [mk_transfer Ex.SELF Ex.ALICE (Ex.acorns 400000) ""].
Proof.
  exists (mk_state [mk_account Ex.ALICE (Ex.acorns 600000)] [] []
                   [mk_transfer Ex.SELF Ex.ALICE (Ex.acorns 400000) ""]).
  assert (H : withdraw Ex.SELF [Ex.ALICE] Ex.ALICE (Ex.acorns 400000) Ex.funded
              = Ok (mk_state [mk_account Ex.ALICE (Ex.acorns 600000)] [] []
                             [mk_transfer Ex.SELF Ex.ALICE (Ex.acorns 400000) ""]))
    by (vm_compute; reflexivity).
  split; [exact H|].
  destruct (withdraw_pays_what_it_debits Ex.SELF Ex.digest Ex.show [Ex.ALICE] Ex.ALICE
              (Ex.acorns 400000) Ex.funded _ funded_reachable H)
    as [_ [_ [Hb [Hs _]]]].
  split; [exact Hb | exact Hs].
Defined.

(** X19: with an empty ledger, a transfer notification from somebody else
    that goes through is a deposit, and the depositor can take all of it out
    again at once: the withdrawal of the same quantity goes through and
    leaves the tables as they were before the deposit, with one payment
    queued. *)
Theorem deposit_then_full_withdraw_restores (self : name)
    (sha256 : list byte -> checksum256) (asset_to_string : asset -> string)
    (now : Z) (from to : name) (quantity : asset) (memo : string)
    (auth : list name) (s s1 : state) :
  reachable self sha256 asset_to_string s ->
  accounts s = [] -> from <> self ->
  acorn_transfer self asset_to_string now from to quantity memo s = Ok s1 ->
  In from auth ->
  accounts s1 = [mk_account from quantity] /\
  withdraw self auth from quantity s1 = Ok (pay self from quantity "" s).
Proof.
  intros Hr E Hne H Hauth.
  destruct (reachable_ledger_run self sha256 asset_to_string s Hr) as [_ Hob].
  assert (Eg : games s = []).
  { destruct (games s) as [|g gs] eqn:Eg; [reflexivity|].
    destruct (Hob g ltac:(rewrite Eg; now left)) as [a [Ea _]]. congruence. }
  destruct (acorn_transfer_Ok self asset_to_string _ _ _ _ _ _ _ H)
    as [[Hself _]|[_ [Hsym [Hrange [[guess [_ Hbet]]|Hadd]]]]]; [contradiction| |].
  - destruct (do_bet_shape asset_to_string _ _ _ _ _ _ Hbet) as [acct [_ [_ [_ [Hacct _]]]]].
    rewrite E in Hacct. destruct Hacct.
  - rewrite (add_balance_opens_account from quantity s E Hsym) in Hadd.
    destruct (amount quantity <? amount MIN_BALANCE); [discriminate|].
    injection Hadd as <-. split; [reflexivity|].
    unfold MIN_TRANSFER_SHELLS in Hrange.
    unfold withdraw.
    rewrite (proj2 (require_auth_Ok auth from) Hauth). cbn [bind].
    rewrite Hsym, Z.eqb_refl. cbn [check bind].
    assert (Hv : is_valid quantity = true).
    { unfold is_valid, is_amount_within_range. apply andb_true_iff.
      split; apply Z.leb_le; unfold max_amount in *; lia. }
    rewrite Hv. cbn [check bind].
    assert (Hgt : (amount quantity >? 0) = true) by (apply Z.gtb_lt; lia).
    rewrite Hgt. cbn [check bind].
    unfold sub_balance. cbn [accounts games matches sent set_accounts].
    rewrite sec_find_single. cbn [owner balance]. rewrite Z.eqb_refl.
    assert (Hge : (amount quantity >=? amount quantity) = true) by (apply Z.geb_le; lia).
    cbn [balance]. rewrite Hge. cbn [check bind].
    rewrite (asset_sub_in_range quantity quantity eq_refl)
      by (unfold max_amount; lia).
    cbn [bind amount]. rewrite Z.sub_diag. cbn [Z.eqb].
    rewrite Eg. cbn [sec_find index_order fold_right lower_bound cancel_offers bind fst snd].
    unfold erase_key, account_pk. cbn [filter balance]. rewrite Z.eqb_refl. cbn [negb].
    unfold pay. cbn [accounts games matches sent]. rewrite E, Eg. reflexivity.
Qed.

Lemma deposit_then_full_withdraw_restores_witness :
  accounts Ex.funded = [mk_account Ex.ALICE (Ex.acorns 1000000)] /\
  withdraw Ex.SELF [Ex.ALICE] Ex.ALICE (Ex.acorns 1000000) Ex.funded
  = Ok (pay Ex.SELF Ex.ALICE (Ex.acorns 1000000) "" init_state).
Proof.
  apply (deposit_then_full_withdraw_restores Ex.SELF Ex.digest Ex.show 10 Ex.ALICE Ex.SELF
           (Ex.acorns 1000000) "deposit" [Ex.ALICE] init_state Ex.funded).
  - exists 0. apply reach_init.
  - reflexivity.
  - discriminate.
  - reflexivity.
  - now left.
Defined.

(** ** When a wager is taken *)

Lemma offer_open_duality : duality Ex.offer_open.
Proof.
  assert (Hinit : reachable Ex.SELF Ex.digest Ex.show init_state)
    by (exists 0; apply reach_init).
  apply (run_keeps_duality Ex.SELF Ex.digest Ex.show Ex.trace_offer 0 init_state
           Ex.offer_open
           (reachable_inv Ex.SELF Ex.digest Ex.show _ Hinit)
           (reachable_placeholders Ex.SELF Ex.digest Ex.show _ Hinit)
           init_state_duality).
  - repeat constructor.
  - reflexivity.
Qed.

(** X20: in a reachable state where the Offers and the placeholder Bets are
    in step, a wager of a positive quantity in ACORN is taken exactly when
    the owner of the ledger row has an open Offer and a hundredth of the
    bankroll covers the quantity. *)
Theorem do_bet_goes_through_iff (self : name) (sha256 : list byte -> checksum256)
    (asset_to_string : asset -> string)
    (s : state) (now : Z) (player : name) (quantity : asset) (guess : Z) :
  reachable self sha256 asset_to_string s ->
  duality s ->
  symbol quantity = ACORN_SYMBOL -> 0 < amount quantity ->
  (exists s', do_bet asset_to_string now player quantity guess s = Ok s') <->
  (exists a, accounts s = [a] /\ has_offer (owner a) s = true /\
             amount quantity <= Z.quot (amount (balance a)) MAX_BET_TO_BANKROLL_RATIO).
Proof.
  intros Hr Hdual Hsym Hpos.
  destruct (reachable_inv self sha256 asset_to_string s Hr) as [Hl _].
  destruct (reachable_ledger_run self sha256 asset_to_string s Hr) as [Hb _].
  split.
  - intros [s' H].
    destruct (do_bet_shape asset_to_string _ _ _ _ _ _ H)
      as [acct [eg [_ [_ [Hacct [Heg [Hhost [Hle _]]]]]]]].
    exists acct. split; [|split; [|exact Hle]].
    + destruct (ledger_inv_cases _ Hl) as [E|[a [E _]]]; rewrite E in Hacct;
        [destruct Hacct|]. destruct Hacct as [->|[]]. exact E.
    + unfold has_offer.
      pose proof (sec_find_complete _ get_host (owner acct) eg (games s) Heg Hhost) as Hin.
      destruct (sec_find get_host (owner acct) (games s)); [destruct Hin | reflexivity].
  - intros [a [E [Hoffer Hle]]].
    assert (Ha : In a (accounts s)) by (rewrite E; now left).
    destruct (proj2 Hl a Ha) as [Hsa Hbpos]. pose proof (Hb a Ha) as Hmax.
    unfold MAX_BET_TO_BANKROLL_RATIO in Hle.
    assert (Hlt : amount quantity < amount (balance a)).
    { rewrite Z.quot_div_nonneg in Hle by lia.
      pose proof (Z.div_lt (amount (balance a)) 100 Hbpos ltac:(lia)). lia. }
    unfold has_offer in Hoffer.
    destruct (sec_find get_host (owner a) (games s)) as [|eg rest] eqn:Eg; [discriminate|].
    pose proof (sec_find_head _ get_host _ _ _ _ Eg) as [_ Hegin].
    destruct (proj1 (Hdual (game_pk eg)) (ex_intro _ eg (conj Hegin eq_refl)))
      as [m0 [Hm0 [Hk0 _]]].
    destruct (find match_pk (game_pk eg) (matches s)) as [em|] eqn:Ef;
      [|exfalso; exact (proj1 (find_None _ match_pk _ _) Ef m0 Hm0 Hk0)].
    unfold do_bet. rewrite E. cbn [do_bet_scan].
    rewrite asset_div_ratio. cbn [bind].
    unfold asset_ge, asset_lt. cbn [symbol amount].
    rewrite Hsa, Hsym, Z.eqb_refl. cbn [check bind].
    assert (Hcov : (Z.quot (amount (balance a)) 100 <? amount quantity) = false)
      by (apply Z.ltb_ge; exact Hle).
    rewrite Hcov. cbn [negb]. rewrite Eg.
    unfold sub_balance. rewrite E, sec_find_single, Z.eqb_refl.
    assert (Hge : (amount (balance a) >=? amount quantity) = true)
      by (apply Z.geb_le; lia).
    rewrite Hge. cbn [check bind].
    rewrite (asset_sub_in_range (balance a) quantity)
      by (try congruence; unfold max_amount in *; lia).
    cbn [bind amount].
    assert (Hnz : (amount (balance a) - amount quantity =? 0) = false)
      by (apply Z.eqb_neq; lia).
    rewrite Hnz. cbn [bind modify].
    unfold account_pk at 1 2. cbn [balance symbol]. rewrite Z.eqb_refl.
    cbn [check bind matches set_accounts].
    change (get_hash_prefix (g_commitment eg)) with (game_pk eg).
    rewrite Ef. cbn [modify].
    unfold match_pk at 1 2. cbn [m_commitment]. rewrite Z.eqb_refl.
    cbn [check bind]. eexists. reflexivity.
Qed.

Lemma do_bet_goes_through_iff_witness :
  (exists s', do_bet Ex.show 20 Ex.BOB (Ex.acorns 10000) 1 Ex.offer_open = Ok s') /\
  ~ (exists s', do_bet Ex.show 20 Ex.BOB (Ex.acorns 10001) 1 Ex.offer_open = Ok s').
Proof.
  split.
  - apply (proj2 (do_bet_goes_through_iff Ex.SELF Ex.digest Ex.show Ex.offer_open 20 Ex.BOB
                    (Ex.acorns 10000) 1 offer_open_reachable offer_open_duality
                    eq_refl eq_refl)).
    exists (mk_account Ex.ALICE (Ex.acorns 1000000)).
    split; [reflexivity|]. split; [reflexivity | vm_compute; discriminate].
  - intros H.
    apply (proj1 (do_bet_goes_through_iff Ex.SELF Ex.digest Ex.show Ex.offer_open 20 Ex.BOB
                    (Ex.acorns 10001) 1 offer_open_reachable offer_open_duality
                    eq_refl eq_refl)) in H.
    destruct H as [a [E [_ Hle]]]. injection E as <-. vm_compute in Hle. now apply Hle.
Defined.

(** X21: a wager and its timeout.  The wager that was taken is recorded as a
    Bet of the player, with the guess, the quantity, and the time of the
    wager plus the timeout (as a 32-bit value) as deadline.  A [collect] for
    the player that comes after the deadline erases the Bet and pays the
    player twice the quantity; one that comes at the deadline or before
    leaves the Bet where it is. *)
Theorem wager_swept_only_after_deadline (self : name)
    (sha256 : list byte -> checksum256) (asset_to_string : asset -> string)
    (s s1 s2 : state) (now now2 : Z) (player : name) (quantity : asset) (guess : Z) :
  reachable self sha256 asset_to_string s ->
  do_bet asset_to_string now player quantity guess s = Ok s1 ->
  collect self now2 player s1 = Ok s2 ->
  exists bet,
    In bet (matches s1) /\
    m_player bet = player /\ m_guess bet = guess /\ m_bet bet = quantity /\
    m_deadline bet = uint32 (now + GAME_TIMEOUT_SECS) /\
    (m_deadline bet < now2 ->
     ~ In bet (matches s2) /\
     In (mk_transfer self player (mk_asset (amount quantity * 2) (symbol quantity))
                     "Win! (Timeout)") (sent s2)) /\
    (now2 <= m_deadline bet -> In bet (matches s2)).
Proof.
  intros Hr Hbet Hcol.
  assert (Hok1 : tables_ok s1).
  { pose proof Hbet as H. unfold do_bet in H. apply bind_Ok in H.
    destruct H as [[s0|mb] [Hscan H]].
    - injection H as ->.
      exact (do_bet_scan_tables_ok _ _ _ _ _ _ _ _
               (reachable_tables_ok self sha256 asset_to_string s Hr) Hscan).
    - apply bind_Ok in H. destruct H as [mx [_ H]].
      destruct (amount mx <? MIN_TRANSFER_SHELLS); discriminate. }
  pose proof (table_ok_unique _ match_pk _ (proj2 (proj2 Hok1))) as Hu.
  destruct (do_bet_shape asset_to_string _ _ _ _ _ _ Hbet)
    as [acct [eg [s0 [em [_ [_ [_ [_ [_ [Hem [_ [_ [_ [_ Hm]]]]]]]]]]]]]].
  set (bet := mk_match (m_commitment em) (m_host em) guess player quantity
                       (uint32 (now + GAME_TIMEOUT_SECS))) in *.
  assert (Hin : In bet (matches s1)).
  { rewrite Hm. apply in_map_iff. exists em. split; [|exact Hem].
    now rewrite Z.eqb_refl. }
  exists bet. split; [exact Hin|]. repeat split.
  - unfold collect in Hcol.
    destruct (collect_loop_Ok self _ _ _ _ _ Hcol) as [Hiff _].
    intros Hin2. apply Hiff in Hin2. destruct Hin2 as [_ Hne].
    apply (Hne bet); [|exact H|reflexivity].
    exact (sec_find_complete _ get_player player bet _ Hin eq_refl).
  - unfold collect in Hcol.
    destruct (collect_loop_Ok self _ _ _ _ _ Hcol) as [_ Hsent].
    rewrite Hsent. apply in_or_app. right.
    change (In (timeout_payment self player bet)
               (map (timeout_payment self player)
                    (filter (fun e => now2 >? m_deadline e)
                            (sec_find get_player player (matches s1))))).
    apply in_map. apply filter_In.
    split; [exact (sec_find_complete _ get_player player bet _ Hin eq_refl)
           | now apply Z.gtb_lt].
  - intros Hle. unfold collect in Hcol.
    destruct (collect_loop_Ok self _ _ _ _ _ Hcol) as [Hiff _].
    apply Hiff. split; [exact Hin|]. intros e He Hd Hk.
    assert (Heq : bet = e).
    { apply (same_key_same_row match_pk (matches s1)); auto.
      exact (sec_find_In _ get_player _ _ _ He). }
    subst e. lia.
Qed.

Lemma wager_swept_only_after_deadline_witness :
  exists bet,
    In bet (matches Ex.in_play) /\
    m_player bet = Ex.BOB /\ m_guess bet = 1 /\ m_bet bet = Ex.acorns 5000 /\
    m_deadline bet = uint32 (20 + GAME_TIMEOUT_SECS) /\
    (m_deadline bet < 320 ->
     ~ In bet (matches Ex.in_play) /\
     In (mk_transfer Ex.SELF Ex.BOB
                     (mk_asset (amount (Ex.acorns 5000) * 2) (symbol (Ex.acorns 5000)))
                     "Win! (Timeout)") (sent Ex.in_play)) /\
    (320 <= m_deadline bet -> In bet (matches Ex.in_play)).
Proof.
  apply (wager_swept_only_after_deadline Ex.SELF Ex.digest Ex.show
           Ex.offer_open Ex.in_play Ex.in_play 20 320 Ex.BOB (Ex.acorns 5000) 1
           offer_open_reachable).
  - vm_compute. reflexivity.
  - vm_compute. reflexivity.
Defined.

(** ** When a deposit goes through *)

(** X22: in a reachable state, a transfer notification from somebody else
    with one of the deposit memos goes through exactly when the quantity is
    in ACORN and between the minimum transfer and the largest amount, and
    the ledger is empty and the quantity reaches the minimum balance, or the
    ledger row is the sender's and has room for the quantity. *)
Theorem deposit_goes_through_iff (self : name) (sha256 : list byte -> checksum256)
    (asset_to_string : asset -> string)
    (s : state) (now : Z) (from to : name) (quantity : asset) (memo : string) :
  reachable self sha256 asset_to_string s ->
  from <> self -> In memo deposit_memos ->
  (exists s', acorn_transfer self asset_to_string now from to quantity memo s = Ok s') <->
  (symbol quantity = ACORN_SYMBOL /\
   MIN_TRANSFER_SHELLS <= amount quantity <= max_amount /\
   ((accounts s = [] /\ amount MIN_BALANCE <= amount quantity) \/
    exists a, accounts s = [a] /\ owner a = from /\
              amount (balance a) + amount quantity <= max_amount)).
Proof.
  intros Hr Hne Hmemo.
  destruct (reachable_inv self sha256 asset_to_string s Hr) as [Hl _].
  assert (Hdispatch :
            symbol quantity = ACORN_SYMBOL ->
            MIN_TRANSFER_SHELLS <= amount quantity <= max_amount ->
            acorn_transfer self asset_to_string now from to quantity memo s =
            add_balance from quantity true s).
  { intros Hsym Hrange. unfold MIN_TRANSFER_SHELLS in Hrange.
    rewrite (memo_dispatch self asset_to_string now from to quantity memo s Hne Hsym).
    - destruct Hmemo as [<-|[<-|[<-|[]]]]; reflexivity.
    - unfold is_valid, is_amount_within_range. apply andb_true_iff.
      split; apply Z.leb_le; unfold max_amount in *; lia.
    - unfold MIN_TRANSFER_SHELLS. lia.
    - destruct Hmemo as [<-|[<-|[<-|[]]]]; cbn; lia. }
  split.
  - intros [s' H].
    destruct (acorn_transfer_Ok self asset_to_string _ _ _ _ _ _ _ H)
      as [[Hself _]|[_ [Hsym [Hrange _]]]]; [contradiction|].
    rewrite (Hdispatch Hsym Hrange) in H.
    split; [exact Hsym|]. split; [exact Hrange|].
    destruct (add_balance_shape _ _ _ _ _ Hl Hsym H) as [_ [Hprev [Hsum Hmin]]].
    destruct Hprev as [E|[a [E Ho]]].
    + left. split; [exact E | exact (Hmin E eq_refl)].
    + right. exists a. split; [exact E|]. split; [exact Ho|].
      specialize (Hsum (proj2 Hrange)). rewrite E, total_balance_one in Hsum. exact Hsum.
  - intros [Hsym [Hrange Hcase]]. rewrite (Hdispatch Hsym Hrange).
    destruct Hcase as [[E Hmin]|[a [E [Ho Hsum]]]].
    + rewrite (add_balance_opens_account from quantity s E Hsym).
      assert (Hlt : (amount quantity <? amount MIN_BALANCE) = false)
        by (apply Z.ltb_ge; exact Hmin).
      rewrite Hlt. eexists. reflexivity.
    + destruct (proj2 Hl a ltac:(rewrite E; now left)) as [Hsa Hpos].
      unfold MIN_TRANSFER_SHELLS in Hrange.
      subst from. rewrite (add_balance_tops_up a quantity true s E);
        [eexists; reflexivity | congruence | unfold max_amount in *; lia].
Qed.

(** Alice can add to her bankroll; Bob, who is not the owner of the ledger
    row, cannot deposit. *)
Lemma deposit_goes_through_iff_witness :
  (exists s', acorn_transfer Ex.SELF Ex.show 11 Ex.ALICE Ex.SELF (Ex.acorns 100) "Deposit"
                             Ex.funded = Ok s') /\
  ~ (exists s', acorn_transfer Ex.SELF Ex.show 11 Ex.BOB Ex.SELF (Ex.acorns 1000000)
                               "deposit" Ex.funded = Ok s').
Proof.
  split.
  - apply (proj2 (deposit_goes_through_iff Ex.SELF Ex.digest Ex.show Ex.funded 11
                    Ex.ALICE Ex.SELF (Ex.acorns 100) "Deposit" funded_reachable
                    ltac:(discriminate) ltac:(right; left; reflexivity))).
    split; [reflexivity|]. split; [vm_compute; split; discriminate|].
    right. exists (mk_account Ex.ALICE (Ex.acorns 1000000)).
    split; [reflexivity|]. split; [reflexivity | vm_compute; discriminate].
  - intros H.
    apply (proj1 (deposit_goes_through_iff Ex.SELF Ex.digest Ex.show Ex.funded 11
                    Ex.BOB Ex.SELF (Ex.acorns 1000000) "deposit" funded_reachable
                    ltac:(discriminate) ltac:(left; reflexivity))) in H.
    destruct H as [_ [_ [[E _]|[a [E [Ho _]]]]]]; [discriminate E|].
    injection E as <-. discriminate Ho.
Defined.
